(** * The retrieval core of the study assistant: [VectorStore]

    A shallow embedding of the class [VectorStore] of
    [src/useGemini.ts] (chunker, cosine similarity, batched index build,
    ranked search) together with the properties its specification
    states; then of the code around it: the request hook [useGemini] of
    the same file, the callbacks of [src/useChat.ts] that use the store
    or keep the conversations, the document processor [processFile] the
    upload reads a file with, the table of [src/personaConfig.ts] and
    the sources [useVoiceAssistant] gives with an answer, with further
    properties read off the code.

    Conventions of the embedding:
    - a JavaScript [number] is an IEEE 754 binary64 value, modelled by
      Rocq's primitive [float]; loop indices and lengths, which the
      source only ever holds as non-negative integers below 2^53, are
      [Z] or [nat];
    - a JavaScript [string] is modelled by [string]; the store only
      uses [length] and [slice] on it, the upload also [trim];
    - the two injected collaborators (embedding function, progress
      callback) are modelled by a state-passing function over the
      collaborator's own state and by an event trace;
    - a React hook is the record of its state variables; a callback is
      a function from the state of the render it was created in to the
      state after its updates, and an [await] cuts a callback into the
      step before it and the step after it. *)

From Stdlib Require Import Reals Lra.
From Stdlib Require Import ZArith List String Ascii Bool Lia Arith.
From Stdlib Require Import Floats DecimalString.
From Stdlib Require Import Permutation Sorted.
Import ListNotations.

Local Open Scope string_scope.
Local Open Scope list_scope.
Local Open Scope Z_scope.

(* ================================================================== *)
(** * JavaScript numbers *)

Module JSNumber.

(** The number nearest to an integer (what a length or a counter is
    when used as a [number]). *)
Definition of_Z (z : Z) : float :=
  SF2Prim (binary_normalize prec emax z 0 false).

Definition of_nat (n : nat) : float := of_Z (Z.of_nat n).

(** [Math.round(x)]: the integer nearest to [x], ties towards
    +Infinity, that is [floor (x + 1/2)] computed exactly; NaN, the
    infinities and the zeros are returned as they are, and a result
    that is zero keeps the sign of [x]. *)
Definition round_Z (s : bool) (m : positive) (e : Z) : Z :=
  let v := if s then Z.neg m else Z.pos m in
  if 0 <=? e then v * 2 ^ e
  else (2 * v + 2 ^ (- e)) / 2 ^ (- e + 1).

Definition Math_round (x : float) : float :=
  match Prim2SF x with
  | S754_finite s m e =>
      if 0 <=? e then x
      else
        let z := round_Z s m e in
        if z =? 0 then (if s then neg_zero else zero) else of_Z z
  | _ => x
  end.

(** [SortCompare] of ECMAScript: the value returned by the comparison
    function, with NaN read as +0. *)
Definition SortCompare (v : float) : float :=
  if is_nan v then zero else v.

End JSNumber.

(* ================================================================== *)
(** * JavaScript strings and arrays *)

Module JS.

(** Clamping of a relative index, as [slice] does for strings and
    arrays: a negative index counts from the end. *)
Definition relative_index (len : nat) (k : Z) : nat :=
  if k <? 0 then Z.to_nat (Z.max (Z.of_nat len + k) 0)
  else Nat.min (Z.to_nat k) len.

(** [s.slice(start, stop)] *)
Definition string_slice (s : string) (start stop : Z) : string :=
  let from := relative_index (String.length s) start in
  let to := relative_index (String.length s) stop in
  substring from (to - from) s.

(** [a.slice(start, stop)] *)
Definition array_slice {A} (a : list A) (start stop : Z) : list A :=
  let from := relative_index (List.length a) start in
  let to := relative_index (List.length a) stop in
  firstn (to - from) (skipn from a).

(** [a[i]] on an array of numbers, read where a number is expected:
    an index out of range gives [undefined], which arithmetic turns
    into NaN. *)
Definition number_at (a : list float) (i : nat) : float :=
  nth i a nan.

(** [a.sort(comparefn)]: ECMAScript requires the sort to be stable and,
    for a consistent comparison function, sorted; the order obtained
    with an inconsistent one is implementation-defined.  The model is
    the stable insertion sort: an element moves behind its right
    neighbours as long as [comparefn] is positive. *)
Section Sort.
Context {A : Type} (comparefn : A -> A -> float).

Definition goes_after (x y : A) : bool :=
  (zero <? JSNumber.SortCompare (comparefn x y))%float.

Fixpoint insert (x : A) (l : list A) : list A :=
  match l with
  | [] => [x]
  | y :: l' => if goes_after x y then y :: insert x l' else x :: l
  end.

Fixpoint array_sort (l : list A) : list A :=
  match l with
  | [] => []
  | x :: l' => insert x (array_sort l')
  end.
End Sort.

End JS.

(* ================================================================== *)
(** * The vector store *)

Record VectorStoreEntry := mkEntry {
  chunk : string;
  embedding : list float
}.

(** How an awaited promise ends: with a value, with a rejection, or
    never. *)
Inductive Outcome (A : Type) : Type :=
| Fulfilled (value : A)
| Rejected (reason : string)
| Pending.
Arguments Fulfilled {A} value.
Arguments Rejected {A} reason.
Arguments Pending {A}.

(** The argument of the progress callback. *)
Record Progress := mkProgress {
  stage : string;
  percentage : float
}.

(** What the two collaborators see of a run: every invocation of the
    embedding function (with the text passed and how the returned
    promise ends) and every invocation of [onProgress]. *)
Inductive Event : Type :=
| EmbedCall (text : string) (result : Outcome (list float))
| ProgressCall (progress : Progress).

(** The element type of the array [similarities] of [search]. *)
Record Scored := mkScored {
  scored_chunk : string;
  similarity : float
}.

Module VectorStore.

(** ** [chunkText] *)

(** The [while] loop of [chunkText], one iteration per unit of fuel.
    [None] is the loop still running when the fuel is used up. *)
Fixpoint chunkText_loop (fuel : nat) (text : string) (chunkSize overlap : Z)
    (i : Z) (chunks : list string) : option (list string) :=
  match fuel with
  | O => None
  | S fuel' =>
      let len := Z.of_nat (String.length text) in
      if i <? len then
        let end_ := Z.min (i + chunkSize) len in
        let chunks' := chunks ++ [JS.string_slice text i end_] in
        let i' := i + (chunkSize - overlap) in
        if end_ =? len then Some chunks'
        else chunkText_loop fuel' text chunkSize overlap i' chunks'
      else Some chunks
  end.

Definition chunkText (text : string) (chunkSize overlap : Z)
    : option (list string) :=
  chunkText_loop (S (String.length text)) text chunkSize overlap 0 [].

(** ** [cosineSimilarity] *)

Definition cosine_step (vecA vecB : list float)
    (acc : float * float * float) (i : nat) : float * float * float :=
  let '(dotProduct, normA, normB) := acc in
  ((dotProduct + JS.number_at vecA i * JS.number_at vecB i)%float,
   (normA + JS.number_at vecA i * JS.number_at vecA i)%float,
   (normB + JS.number_at vecB i * JS.number_at vecB i)%float).

Definition cosine_sums (vecA vecB : list float) : float * float * float :=
  fold_left (cosine_step vecA vecB) (seq 0 (List.length vecA))
            (zero, zero, zero).

Definition cosineSimilarity (vecA vecB : list float) : float :=
  let '(dotProduct, normA, normB) := cosine_sums vecA vecB in
  if (normA =? zero)%float || (normB =? zero)%float then zero
  else (dotProduct / (sqrt normA * sqrt normB))%float.

(** ** State and collaborators *)

Section WithCollaborator.

(** The embedding collaborator's own state (a remote service, or a
    call-counting stub). *)
Variable World : Type.

(** [type EmbeddingFunction = (text: string) => Promise<number[]>] *)
Definition EmbeddingFunction : Type :=
  string -> World -> Outcome (list float) * World.

(** The field [this.store], the collaborator's state, and the
    events so far (most recent last). *)
Record Config := mkConfig {
  store : list VectorStoreEntry;
  world : World;
  trace : list Event
}.

(** [new VectorStore()] *)
Definition fresh (w : World) : Config := mkConfig [] w [].

(** One invocation [embeddingFn(text)]. *)
Definition call (embeddingFn : EmbeddingFunction) (text : string)
    (c : Config) : Outcome (list float) * Config :=
  let '(r, w) := embeddingFn text (world c) in
  (r, mkConfig (store c) w (trace c ++ [EmbedCall text r])).

(** [batchChunks.map(chunk => embeddingFn(chunk))]: every call of the
    batch is issued, in order, whatever the earlier ones return. *)
Fixpoint call_all (embeddingFn : EmbeddingFunction)
    (batchChunks : list string) (c : Config)
    : list (Outcome (list float)) * Config :=
  match batchChunks with
  | [] => ([], c)
  | chunk :: rest =>
      let '(r, c1) := call embeddingFn chunk c in
      let '(rs, c2) := call_all embeddingFn rest c1 in
      (r :: rs, c2)
  end.

(** [await Promise.all(promises)]: rejected as soon as one promise
    is; otherwise fulfilled with all the values once all are. *)
Fixpoint Promise_all {A} (promises : list (Outcome A))
    : Outcome (list A) :=
  match promises with
  | [] => Fulfilled []
  | p :: rest =>
      match p, Promise_all rest with
      | Rejected reason, _ => Rejected reason
      | _, Rejected reason => Rejected reason
      | Pending, _ => Pending
      | _, Pending => Pending
      | Fulfilled v, Fulfilled vs => Fulfilled (v :: vs)
      end
  end.

(** ** [create] *)

Definition batchSize : nat := 5.

(** Decimal text of a count, as a template literal prints it. *)
Definition decimal (n : nat) : string :=
  NilEmpty.string_of_uint (Nat.to_uint n).

Definition progress_of (processedCount total : nat) : Progress :=
  mkProgress
    ("Embedding content... (" ++ decimal processedCount ++ "/"
       ++ decimal total ++ ")")%string
    (JSNumber.Math_round
       (JSNumber.of_nat processedCount / JSNumber.of_nat total * 100)%float).

(** The entries pushed by
    [batchChunks.forEach((chunk, index) => ...)]: each chunk with
    the embedding at its index. *)
Definition make_entries (batchChunks : list string)
    (batchEmbeddings : list (list float)) : list VectorStoreEntry :=
  map (fun ce => mkEntry (fst ce) (snd ce))
      (combine batchChunks batchEmbeddings).

(** The [for] loop of [create], one batch per unit of fuel. *)
Fixpoint create_loop (fuel : nat) (embeddingFn : EmbeddingFunction)
    (onProgress : bool) (chunks : list string) (i : nat) (c : Config)
    : Outcome unit * Config :=
  match fuel with
  | O => (Pending, c)
  | S fuel' =>
      if (i <? List.length chunks)%nat then
        let batchChunks :=
          JS.array_slice chunks (Z.of_nat i) (Z.of_nat (i + batchSize)) in
        let '(promises, c1) := call_all embeddingFn batchChunks c in
        match Promise_all promises with
        | Fulfilled batchEmbeddings =>
            let c2 :=
              mkConfig (store c1 ++ make_entries batchChunks batchEmbeddings)
                       (world c1) (trace c1) in
            let c3 :=
              if onProgress then
                let processedCount :=
                  Nat.min (i + batchSize) (List.length chunks) in
                mkConfig (store c2) (world c2)
                  (trace c2 ++
                     [ProgressCall
                        (progress_of processedCount (List.length chunks))])
              else c2 in
            create_loop fuel' embeddingFn onProgress chunks
                        (i + batchSize) c3
        | Rejected reason => (Rejected reason, c1)
        | Pending => (Pending, c1)
        end
      else (Fulfilled tt, c)
  end.

(** [create(text, embeddingFn, onProgress?)]; [onProgress] tells
    whether the optional callback was supplied, its invocations are
    the [ProgressCall] events. *)
Definition create (text : string) (embeddingFn : EmbeddingFunction)
    (onProgress : bool) (c : Config) : Outcome unit * Config :=
  let c0 := mkConfig [] (world c) (trace c) in
  match chunkText text 1000 200 with
  | None => (Pending, c0)
  | Some chunks =>
      create_loop (S (List.length chunks)) embeddingFn onProgress chunks 0 c0
  end.

(** ** [search] *)

Definition by_similarity (a b : Scored) : float :=
  (similarity b - similarity a)%float.

Definition score (queryEmbedding : list float) (entry : VectorStoreEntry)
    : Scored :=
  mkScored (chunk entry)
           (cosineSimilarity queryEmbedding (embedding entry)).

Definition rank (queryEmbedding : list float)
    (entries : list VectorStoreEntry) (topK : Z) : list string :=
  let similarities := map (score queryEmbedding) entries in
  let sorted := JS.array_sort by_similarity similarities in
  map scored_chunk (JS.array_slice sorted 0 topK).

Definition search (query : string) (embeddingFn : EmbeddingFunction)
    (topK : Z) (c : Config) : Outcome (list string) * Config :=
  if (List.length (store c) =? 0)%nat then (Fulfilled [], c)
  else
    let '(r, c1) := call embeddingFn query c in
    match r with
    | Fulfilled queryEmbedding =>
        (Fulfilled (rank queryEmbedding (store c1) topK), c1)
    | Rejected reason => (Rejected reason, c1)
    | Pending => (Pending, c1)
    end.

End WithCollaborator.

Arguments mkConfig {World} store world trace.
Arguments store {World} c.
Arguments world {World} c.
Arguments trace {World} c.
Arguments fresh {World} w.
Arguments call {World} embeddingFn text c.
Arguments call_all {World} embeddingFn batchChunks c.
Arguments create_loop {World} fuel embeddingFn onProgress chunks i c.
Arguments create {World} text embeddingFn onProgress c.
Arguments search {World} query embeddingFn topK c.

End VectorStore.

(* ================================================================== *)
(** * Vocabulary of the properties *)

Import VectorStore.

(** ** Observations on a run *)

(** The events a run appended to the trace. *)
Definition events_since {World} (before after : Config World) : list Event :=
  skipn (List.length (trace before)) (trace after).

(** The texts the embedding function was invoked on. *)
Fixpoint embed_calls (events : list Event) : list string :=
  match events with
  | [] => []
  | EmbedCall text _ :: rest => text :: embed_calls rest
  | ProgressCall _ :: rest => embed_calls rest
  end.

(** The arguments [onProgress] was invoked with. *)
Fixpoint progress_calls (events : list Event) : list Progress :=
  match events with
  | [] => []
  | EmbedCall _ _ :: rest => progress_calls rest
  | ProgressCall p :: rest => p :: progress_calls rest
  end.

(** The events of one batch of calls. *)
Definition embed_events (batchChunks : list string)
    (results : list (Outcome (list float))) : list Event :=
  map (fun p => EmbedCall (fst p) (snd p)) (combine batchChunks results).

(** For each invocation of [onProgress], in order, the number of
    invocations of the embedding function that came before it ([seen]
    counts the ones before [events]). *)
Fixpoint embeds_before_reports (seen : nat) (events : list Event) : list nat :=
  match events with
  | [] => []
  | EmbedCall _ _ :: rest => embeds_before_reports (S seen) rest
  | ProgressCall _ :: rest => seen :: embeds_before_reports seen rest
  end.

(** The percentage reported after [processedCount] of [total] chunks. *)
Definition percentage_of (processedCount total : nat) : float :=
  percentage (progress_of processedCount total).

(** The reports of [k] consecutive batches over [chunks], the first of
    which starts at chunk [i]. *)
Definition reports (chunks : list string) (i k : nat) : list Progress :=
  map (fun j =>
         progress_of (Nat.min (i + batchSize * j) (List.length chunks))
                     (List.length chunks))
      (seq 1 k).

(** What a run of the loop of [create] from chunk [i] leaves behind:
    [k] is the number of batches it completed. *)
Definition loop_post {World} (onProgress : bool) (chunks : list string)
    (fuel i : nat) (c : Config World)
    (out : Outcome unit) (c' : Config World) (k : nat) (evs : list Event)
    : Prop :=
  map chunk (store c')
    = map chunk (store c) ++ firstn (batchSize * k) (skipn i chunks)
  /\ trace c' = trace c ++ evs
  /\ progress_calls evs = (if onProgress then reports chunks i k else [])
  /\ (forall t reason,
        In (EmbedCall t (Rejected reason)) evs ->
        exists reason', out = Rejected reason')
  /\ match out with
     | Fulfilled _ =>
         (List.length chunks <= i + batchSize * k)%nat
         /\ (k = 0%nat \/ i + batchSize * (k - 1) < List.length chunks)%nat
         /\ embed_calls evs = skipn i chunks
         /\ (forall t r, In (EmbedCall t r) evs -> exists v, r = Fulfilled v)
     | Rejected reason =>
         (i + batchSize * k < List.length chunks)%nat
         /\ exists t,
              In t (firstn batchSize (skipn (i + batchSize * k) chunks))
              /\ In (EmbedCall t (Rejected reason)) evs
     | Pending =>
         (fuel <= List.length chunks - i)%nat \/ exists t, In (EmbedCall t Pending) evs
     end.

(** ** The window sequence of the chunker *)

(** The window sequence as the specification words it: window [k]
    starts at offset [k * (chunkSize - overlap)] and spans
    [min chunkSize (remaining length)] characters; the sequence ends
    with the first window that reaches the end of the text, and a text
    without characters has no window. *)
Definition window_start (chunkSize overlap : Z) (k : nat) : Z :=
  Z.of_nat k * (chunkSize - overlap).

Definition window (text : string) (chunkSize overlap : Z) (k : nat) : string :=
  let start := window_start chunkSize overlap k in
  let remaining := Z.of_nat (String.length text) - start in
  substring (Z.to_nat start) (Z.to_nat (Z.min chunkSize remaining)) text.

Definition reaches_end (text : string) (chunkSize overlap : Z) (k : nat) : bool :=
  Z.of_nat (String.length text) <=? window_start chunkSize overlap k + chunkSize.

(** The least [j] with [k <= j < k + n] and [p j], if any. *)
Fixpoint first_index (p : nat -> bool) (n k : nat) : option nat :=
  match n with
  | O => None
  | S n' => if p k then Some k else first_index p n' (S k)
  end.

Definition spec_windows (text : string) (chunkSize overlap : Z) : list string :=
  if (String.length text =? 0)%nat then []
  else
    match first_index (reaches_end text chunkSize overlap)
                      (S (String.length text)) 0 with
    | Some last => map (window text chunkSize overlap) (seq 0 (S last))
    | None => []
    end.

(** [ceil (a / b)] for [b > 0]. *)
Definition ceil_div (a b : Z) : Z := (a + b - 1) / b.

(** ** Scores and ranks *)

(** A store entry cut down to the first [n] components of its
    embedding. *)
Definition truncate_entry (n : nat) (entry : VectorStoreEntry)
    : VectorStoreEntry :=
  mkEntry (chunk entry) (firstn n (embedding entry)).

Definition entry_at (entries : list VectorStoreEntry) (i : nat)
    : VectorStoreEntry :=
  nth i entries (mkEntry EmptyString []).

(** The similarity score of the entry at index [i]. *)
Definition score_at (q : list float) (entries : list VectorStoreEntry)
    (i : nat) : float :=
  cosineSimilarity q (embedding (entry_at entries i)).

(** Entry [i] ranks before entry [j]: its score is higher, or the
    scores are numerically equal and [i] was inserted first. *)
Definition ranks_before (q : list float) (entries : list VectorStoreEntry)
    (i j : nat) : Prop :=
  (score_at q entries j <? score_at q entries i)%float = true
  \/ ((score_at q entries i =? score_at q entries j)%float = true
      /\ (i < j)%nat).

(** No score is NaN. *)
Definition scores_are_numbers (q : list float)
    (entries : list VectorStoreEntry) : Prop :=
  forall i, (i < List.length entries)%nat ->
            is_nan (score_at q entries i) = false.

(** The scored entries, each with its index in the store. *)
Definition indexed_scores (q : list float) (entries : list VectorStoreEntry)
    : list (nat * Scored) :=
  map (fun i => (i, score q (entry_at entries i)))
      (seq 0 (List.length entries)).

Definition by_indexed_similarity (a b : nat * Scored) : float :=
  by_similarity (snd a) (snd b).

(** The indices of the store in the order in which [search] ranks the
    entries. *)
Definition ranking (q : list float) (entries : list VectorStoreEntry)
    : list nat :=
  map fst (JS.array_sort by_indexed_similarity (indexed_scores q entries)).

(** In a sorted array [x] is placed before [y]: [y] goes after [x], or
    neither goes after the other and [x] came first in the order [T] of
    the array before the sort. *)
Definition placed_before {A : Type} (comparefn : A -> A -> float)
    (T : A -> A -> Prop) (x y : A) : Prop :=
  JS.goes_after comparefn y x = true
  \/ (JS.goes_after comparefn x y = false /\ T x y).

(** ** The sums of [cosineSimilarity] *)

(** The three sums the loop of [cosineSimilarity] accumulates. *)
Definition dot_product (a b : list float) : float := fst (fst (cosine_sums a b)).

Definition norm_sq_first (a b : list float) : float := snd (fst (cosine_sums a b)).

Definition norm_sq_second (a b : list float) : float := snd (cosine_sums a b).

(** Every component is a zero ([+0] or [-0]). *)
Definition all_zero (v : list float) : Prop :=
  Forall (fun x => is_zero x = true) v.

(** ** Binary64 values *)

(** A key whose lexicographic order is the order of the numbers. *)
Definition SFkey (a : spec_float) : Z * Z * Z :=
  match a with
  | S754_infinity true => (-2, 0, 0)
  | S754_finite true m e => (-1, - e, Z.neg m)
  | S754_zero _ => (0, 0, 0)
  | S754_nan => (0, 0, 0)
  | S754_finite false m e => (1, e, Z.pos m)
  | S754_infinity false => (2, 0, 0)
  end.

Definition key_lt (k1 k2 : Z * Z * Z) : Prop :=
  let '(a1, b1, c1) := k1 in
  let '(a2, b2, c2) := k2 in
  a1 < a2 \/ (a1 = a2 /\ (b1 < b2 \/ (b1 = b2 /\ c1 < c2))).

Definition positive_result (r : spec_float) : Prop :=
  (exists m e, r = S754_finite false m e) \/ r = S754_infinity false.

Definition nonneg_sf (r : spec_float) : Prop :=
  match r with
  | S754_finite true _ _ | S754_infinity true => False
  | _ => True
  end.

(** Real-number reading of the rounding steps: [F e] is [2^e]. *)
Definition F (e : Z) : R := powerRZ 2 e.

(** Where the exact value stands between two consecutive multiples of
    the unit, as the round and sticky bits tell it. *)
Definition loc_ok (r s : bool) (delta : R) : Prop :=
  match r, s with
  | false, false => delta = 0%R
  | false, true => (0 < delta < 1 / 2)%R
  | true, false => delta = (1 / 2)%R
  | true, true => (1 / 2 < delta < 1)%R
  end.

(** The record [rec] at exponent [e] stands for the exact value [X]. *)
Definition represents (rec : shr_record) (e : Z) (X : R) : Prop :=
  exists delta : R,
    X = ((IZR (shr_m rec) + delta) * F e)%R
    /\ loc_ok (shr_r rec) (shr_s rec) delta.

(** The number that [Math.round] returns for the integer [z] when its
    argument is not negative. *)
Definition rounded (z : Z) : float := if z =? 0 then zero else JSNumber.of_Z z.

Definition rounded_table_ok : bool :=
  forallb (fun a =>
    forallb (fun b =>
      if (a <=? b)%nat
      then (rounded (Z.of_nat a) <=? rounded (Z.of_nat b))%float
      else true) (seq 0 101)) (seq 0 101).

(* ================================================================== *)
(** * The request hook [useGemini] *)

Module UseGemini.

(** What [catch (e)] receives: an [Error] with its message, or any
    other value. *)
Inductive Thrown : Type :=
| ErrorObject (message : string)
| OtherValue.

Section Hook.

(** The results of the API function ([any]); [None] is [null]. *)
Variable Data : Type.

(** The three state variables of the hook. *)
Record State := mkState {
  data : option Data;
  isLoading : bool;
  error : option string
}.

(** The state at the first render. *)
Definition initial : State := mkState None false None.

(** How the awaited call [apiFunc(input)] ends. *)
Inductive Settlement : Type :=
| Resolved (result : option Data)
| Threw (e : Thrown).

(** [execute], up to the [await]:
    [setIsLoading(true); setError(null); setData(null)]. *)
Definition execute_start (s : State) : State :=
  mkState None true None.

Definition errorMessage (e : Thrown) : string :=
  match e with
  | ErrorObject message => message
  | OtherValue => "An unknown API error occurred."
  end.

(** [execute], from the [await] on: [setData(result)], or in the
    [catch] clause [setError(...)], and [setIsLoading(false)] in the
    [finally] clause. *)
Definition execute_finish (r : Settlement) (s : State) : State :=
  match r with
  | Resolved result => mkState result false (error s)
  | Threw e =>
      mkState (data s) false
              (Some ("Failed to get response. " ++ errorMessage e)%string)
  end.

(** [clear]: [setData(null); setError(null)]. *)
Definition clear (s : State) : State :=
  mkState None (isLoading s) None.

(** What happens to the hook: [execute] is called, a call settles, or
    [clear] is called. *)
Inductive Action : Type :=
| Execute
| Settle (r : Settlement)
| Clear.

Definition step (s : State) (a : Action) : State :=
  match a with
  | Execute => execute_start s
  | Settle r => execute_finish r s
  | Clear => clear s
  end.

Definition run (actions : list Action) (s : State) : State :=
  fold_left step actions s.

End Hook.

Arguments mkState {Data} data isLoading error.
Arguments data {Data} s.
Arguments isLoading {Data} s.
Arguments error {Data} s.
Arguments initial {Data}.
Arguments Resolved {Data} result.
Arguments Threw {Data} e.
Arguments execute_start {Data} s.
Arguments execute_finish {Data} r s.
Arguments clear {Data} s.
Arguments Execute {Data}.
Arguments Settle {Data} r.
Arguments Clear {Data}.
Arguments step {Data} s a.
Arguments run {Data} actions s.

End UseGemini.

(* ================================================================== *)
(** * The personas *)

Module PersonaConfig.

(** The members of the enumeration [Persona], the keys of
    [personaConfigs]. *)
Inductive Persona : Type := Default | Socratic | Simple | Expert.

(** The icon components the configurations refer to. *)
Inductive Icon : Type :=
| SparklesIcon | QuestionIcon | ExplainIcon | UserCircleIcon.

(** [a === b] on personas. *)
Definition Persona_eqb (a b : Persona) : bool :=
  match a, b with
  | Default, Default | Socratic, Socratic
  | Simple, Simple | Expert, Expert => true
  | _, _ => false
  end.

Record PersonaConfig := mkPersonaConfig {
  id : Persona;
  name : string;
  description : string;
  icon : Icon;
  systemInstruction : string
}.

Definition personaConfigs (persona : Persona) : PersonaConfig :=
  match persona with
  | Default =>
      mkPersonaConfig Default
        "Intermediate"
        "Clear and concise, assuming some prior knowledge."
        SparklesIcon
        ("You are an expert tutor. Your goal is to not just answer, "
         ++ "but to expand the user's understanding. Always start with "
         ++ "encouraging feedback. First, provide a clear and direct "
         ++ "answer to their question. Then, introduce a related "
         ++ "concept or a different perspective to provide multiple "
         ++ "angles on the topic. Conclude your response by asking a "
         ++ "thought-provoking question to stimulate active learning. "
         ++ "Assume the user has some foundational knowledge.")%string
  | Socratic =>
      mkPersonaConfig Socratic
        "Socratic Method"
        "Leads you to the answer with questions."
        QuestionIcon
        ("You are a tutor who uses the Socratic method. Your "
         ++ "primary goal is to guide the user's thinking process. "
         ++ "Begin by acknowledging their question with encouragement. "
         ++ "Instead of giving direct answers, ask insightful, guiding "
         ++ "questions to help them explore multiple angles and "
         ++ "construct the answer themselves. Lead them step-by-step. "
         ++ "Encourage them to form their own conclusions before "
         ++ "confirming the answer. Only provide a direct summary if "
         ++ "the user is stuck and explicitly asks for it.")%string
  | Simple =>
      mkPersonaConfig Simple
        "Beginner"
        "Simple, easy-to-understand explanations."
        ExplainIcon
        ("You are an educator who explains complex topics in the "
         ++ "simplest way possible. Your persona is friendly, patient, "
         ++ "and encouraging. Start your answers with positive "
         ++ "reinforcement like 'Great question!' or 'That's an "
         ++ "excellent thing to be curious about.' Use simple "
         ++ "analogies and short sentences to explain the core idea. "
         ++ "After your explanation, always ask a simple, engaging "
         ++ "follow-up question to encourage the user to think a "
         ++ "little more about the topic. Avoid jargon at all costs.")%string
  | Expert =>
      mkPersonaConfig Expert
        "Advanced"
        "In-depth, technical answers for experts."
        UserCircleIcon
        ("You are a knowledgeable and collaborative peer. Your tone "
         ++ "is like a fellow expert. Acknowledge the user's query "
         ++ "with encouraging feedback. Provide a technical, in-depth "
         ++ "answer, but don't stop there. Actively guide their "
         ++ "thinking by discussing nuances, potential "
         ++ "counter-arguments, or broader implications. To encourage "
         ++ "active learning, conclude by challenging the user with a "
         ++ "scenario or a question that pushes them to apply the "
         ++ "knowledge or consider exceptions. Treat the user as an "
         ++ "equal with a strong background in the subject.")%string
  end.

Definition personaList : list PersonaConfig :=
  [personaConfigs Simple; personaConfigs Default;
   personaConfigs Expert; personaConfigs Socratic].

End PersonaConfig.

(* ================================================================== *)
(** * [String.prototype.trim] *)

Module JSString.

(** The white space and line terminator code units below 256: TAB, LF,
    VT, FF, CR, SP and NBSP. *)
Definition is_white_space (c : ascii) : bool :=
  let n := nat_of_ascii c in
  (n =? 9)%nat || (n =? 10)%nat || (n =? 11)%nat || (n =? 12)%nat
  || (n =? 13)%nat || (n =? 32)%nat || (n =? 160)%nat.

Fixpoint trim_start (s : string) : string :=
  match s with
  | EmptyString => EmptyString
  | String c s' => if is_white_space c then trim_start s' else s
  end.

Fixpoint trim_end (s : string) : string :=
  match s with
  | EmptyString => EmptyString
  | String c s' =>
      match trim_end s' with
      | EmptyString =>
          if is_white_space c then EmptyString else String c EmptyString
      | rest => String c rest
      end
  end.

(** [s.trim()] *)
Definition trim (s : string) : string := trim_end (trim_start s).

End JSString.

(* ================================================================== *)
(** * The document processor *)

Module DocumentProcessor.

Section Processor.
Context {World : Type}.

(** The uploaded files and their MIME type, [file.type]. *)
Variable File : Type.
Variable fileType : File -> string.

(** What pdf.js reads in a file: for each page, in order, the [str] of
    the items of its text content. *)
Variable readPdf : File -> World -> Outcome (list (list string)) * World.

(** [processImage]: the file read as a data URL and sent to
    [geminiService.transcribeImage]. *)
Variable processImage : File -> World -> Outcome string * World.

(** ["\n"] *)
Definition newline : string := String (ascii_of_nat 10) EmptyString.

(** [textContent.items.map(item => item.str).join(' ')] *)
Definition pageText (items : list string) : string :=
  String.concat " " items.

(** The loop of [processPdf]: [allText += pageText + '\n\n'] for each
    page. *)
Definition allText (pages : list (list string)) : string :=
  fold_left
    (fun acc items => (acc ++ pageText items ++ newline ++ newline)%string)
    pages EmptyString.

Definition processPdf (file : File) (w : World) : Outcome string * World :=
  let '(r, w1) := readPdf file w in
  (match r with
   | Fulfilled pages => Fulfilled (allText pages)
   | Rejected reason => Rejected reason
   | Pending => Pending
   end,
   w1).

Definition processFile (file : File) (w : World) : Outcome string * World :=
  if String.eqb (fileType file) "application/pdf" then processPdf file w
  else if String.prefix "image/" (fileType file) then processImage file w
  else
    (Rejected "Unsupported file type. Please upload a PDF or an image.", w).

End Processor.

End DocumentProcessor.

(* ================================================================== *)
(** * The chat hook [useChat] *)

Module UseChat.

(** The callback that [handleFileUpload] passes to [create]:
    [(progress) => setFileProcessingProgress({stage: progress.stage,
    percentage: 15 + Math.round(progress.percentage * 0.80)})]; the
    value is the argument of [setFileProcessingProgress]. *)
Definition onEmbeddingProgress (progress : Progress) : Progress :=
  mkProgress (stage progress)
    (15 + JSNumber.Math_round
            (percentage progress * 0x1.999999999999ap-1))%float.

Inductive Sender : Type := user | ai | system.

(** An element of [SourcedContent.sources]. *)
Record Source := mkSource {
  source_content : string;
  source_type : string
}.

Section Hook.

(** The payloads the hook only passes along: the data of a document
    overview and the other objects a message can carry (quiz data,
    ...). *)
Variables OverviewData OtherData : Type.

(** The vector store objects and the QA documents; [None] is [null]. *)
Variables Store QADocument : Type.

(** [ChatMessage.content]: a string or an object.  The objects with
    [type: 'knowledge_upload'] and [type: 'document_overview'] are told
    apart by the hook; a [SourcedContent] has no [type], and
    [OtherObject] stands for the remaining objects, whose [type], if
    any, is neither of the two. *)
Inductive Content : Type :=
| Text (text : string)
| KnowledgeUpload
| DocumentOverview (data : OverviewData)
| Sourced (answer : string) (sources : list Source)
| OtherObject (o : OtherData).

Record ChatMessage := mkMessage {
  id : string;
  sender : Sender;
  content : Content;
  mode : option string
}.

(** The state variables of the hook that its synchronous callbacks
    read or write.  A [LearningMode] is its string value, the key of
    the record [messagesByMode]; a key without a value is [None]. *)
Record State := mkState {
  messagesByMode : string -> option (list ChatMessage);
  activeMode : string;
  activePersona : PersonaConfig.Persona;
  vectorStore : option Store;
  qaDocument : option QADocument
}.

(** [{ ...prev, [key]: value }] *)
Definition set_key (prev : string -> option (list ChatMessage))
    (key : string) (value : list ChatMessage)
    : string -> option (list ChatMessage) :=
  fun k => if String.eqb k key then Some value else prev k.

(** [messagesByMode[activeMode] || []], the messages on display. *)
Definition messages (s : State) : list ChatMessage :=
  match messagesByMode s (activeMode s) with
  | Some ms => ms
  | None => []
  end.

(** The values of [LearningMode.KnowledgeBase] and [LearningMode.QA]. *)
Variables KnowledgeBase QA : string.

(** [addMessage(message)]; [now] is [Date.now().toString()], the
    field [id] of [message] is overwritten with it. *)
Definition addMessage (message : ChatMessage) (now : string) (s : State)
    : State :=
  let currentMessages :=
    match messagesByMode s (activeMode s) with
    | Some ms => ms
    | None => []
    end in
  mkState
    (set_key (messagesByMode s) (activeMode s)
       (currentMessages
        ++ [mkMessage now (sender message) (content message) (mode message)]))
    (activeMode s) (activePersona s) (vectorStore s) (qaDocument s).

Definition clearChat (s : State) : State :=
  let initialMessages :=
    if String.eqb (activeMode s) KnowledgeBase
    then [mkMessage "upload-prompt-after-clear" system KnowledgeUpload None]
    else [mkMessage "init-clear" system
            (Text "Chat cleared. Let's start over!") None] in
  mkState
    (set_key (messagesByMode s) (activeMode s) initialMessages)
    (activeMode s) (activePersona s)
    (if String.eqb (activeMode s) KnowledgeBase then None else vectorStore s)
    (if String.eqb (activeMode s) QA then None else qaDocument s).

Definition selectMode (newMode : string) (s : State) : State :=
  if String.eqb newMode (activeMode s) then s
  else
    mkState
      (match messagesByMode s newMode with
       | Some _ => messagesByMode s
       | None =>
           let newModeMessages :=
             if String.eqb newMode KnowledgeBase
             then match vectorStore s with
                  | None =>
                      [mkMessage "upload-prompt-on-select" system
                                 KnowledgeUpload None]
                  | Some _ => []
                  end
             else [] in
           set_key (messagesByMode s) newMode newModeMessages
       end)
      newMode (activePersona s) (vectorStore s) (qaDocument s).

Definition selectPersona (newPersona : PersonaConfig.Persona)
    (now : string) (s : State) : State :=
  if PersonaConfig.Persona_eqb newPersona (activePersona s) then s
  else
    let personaName :=
      PersonaConfig.name (PersonaConfig.personaConfigs newPersona) in
    addMessage
      (mkMessage EmptyString system
         (Text ("Switched to " ++ personaName ++ " persona.")) None)
      now
      (mkState (messagesByMode s) (activeMode s) newPersona
               (vectorStore s) (qaDocument s)).

(** A call of one of the four synchronous callbacks. *)
Inductive Action : Type :=
| AddMessage (message : ChatMessage) (now : string)
| ClearChat
| SelectMode (newMode : string)
| SelectPersona (newPersona : PersonaConfig.Persona) (now : string).

Definition step (s : State) (a : Action) : State :=
  match a with
  | AddMessage message now => addMessage message now s
  | ClearChat => clearChat s
  | SelectMode newMode => selectMode newMode s
  | SelectPersona newPersona now => selectPersona newPersona now s
  end.

Definition run (actions : list Action) (s : State) : State :=
  fold_left step actions s.

End Hook.

Arguments Text {OverviewData OtherData} text.
Arguments KnowledgeUpload {OverviewData OtherData}.
Arguments DocumentOverview {OverviewData OtherData} data.
Arguments Sourced {OverviewData OtherData} answer sources.
Arguments OtherObject {OverviewData OtherData} o.
Arguments mkMessage {OverviewData OtherData} id sender content mode.
Arguments id {OverviewData OtherData} c.
Arguments sender {OverviewData OtherData} c.
Arguments content {OverviewData OtherData} c.
Arguments mode {OverviewData OtherData} c.
Arguments mkState {OverviewData OtherData Store QADocument}
  messagesByMode activeMode activePersona vectorStore qaDocument.
Arguments messagesByMode {OverviewData OtherData Store QADocument} s.
Arguments activeMode {OverviewData OtherData Store QADocument} s.
Arguments activePersona {OverviewData OtherData Store QADocument} s.
Arguments vectorStore {OverviewData OtherData Store QADocument} s.
Arguments qaDocument {OverviewData OtherData Store QADocument} s.
Arguments set_key {OverviewData OtherData} prev key value.
Arguments messages {OverviewData OtherData Store QADocument} s.
Arguments addMessage {OverviewData OtherData Store QADocument} message now s.
Arguments clearChat {OverviewData OtherData Store QADocument}
  KnowledgeBase QA s.
Arguments selectMode {OverviewData OtherData Store QADocument}
  KnowledgeBase newMode s.
Arguments selectPersona {OverviewData OtherData Store QADocument}
  newPersona now s.
Arguments AddMessage {OverviewData OtherData} message now.
Arguments ClearChat {OverviewData OtherData}.
Arguments SelectMode {OverviewData OtherData} newMode.
Arguments SelectPersona {OverviewData OtherData} newPersona now.
Arguments step {OverviewData OtherData Store QADocument} KnowledgeBase QA s a.
Arguments run {OverviewData OtherData Store QADocument}
  KnowledgeBase QA actions s.

(** ** The [KnowledgeBase] case of [sendMessage] *)

Section KnowledgeBaseCase.
Context {OverviewData OtherData World : Type}.

(** [geminiService.getAnswerFromContext(question, context, config)],
    a call to the remote service; [config] is the system instruction
    of the persona, if any. *)
Variable getAnswerFromContext :
  string -> string -> option string -> World -> Outcome string * World.

(** ["\n"] *)
Definition newline : string := String (ascii_of_nat 10) EmptyString.

(** The statements of [case LearningMode.KnowledgeBase:]; [text] is
    [input.text] and [w] the state of the remote service.  The result
    is the value assigned to [result], or the rejection the [catch]
    clause receives, with the state of the service afterwards. *)
Definition knowledgeBaseCase (vectorStore : option (list VectorStoreEntry))
    (text : string) (embedContent : VectorStore.EmbeddingFunction World)
    (geminiConfig : option string) (w : World)
    : Outcome (Content OverviewData OtherData) * World :=
  match vectorStore with
  | None =>
      (Rejected "Please upload a document to the Knowledge Base first.", w)
  | Some entries =>
      let '(r, vs1) :=
        VectorStore.search text embedContent 3
                           (VectorStore.mkConfig entries w []) in
      let w1 := VectorStore.world vs1 in
      match r with
      | Fulfilled contextChunks =>
          if (List.length contextChunks =? 0)%nat then
            (Fulfilled
               (Text ("I couldn't find any relevant information in the "
                      ++ "provided document to answer your question.")),
             w1)
          else
            let contextString :=
              String.concat (newline ++ newline) contextChunks in
            let '(a, w2) :=
              getAnswerFromContext text contextString geminiConfig w1 in
            (match a with
             | Fulfilled answer =>
                 Fulfilled
                   (Sourced answer
                      (map (fun chunk => mkSource chunk "document_chunk")
                           contextChunks))
             | Rejected reason => Rejected reason
             | Pending => Pending
             end,
             w2)
      | Rejected reason => (Rejected reason, w1)
      | Pending => (Pending, w1)
      end
  end.

End KnowledgeBaseCase.

(** ** [handleFileUpload] *)

Section HandleFileUpload.
Context {Overview QuizData World : Type}.

(** The uploaded files, of which the hook reads the name. *)
Variable File : Type.
Variable fileName : File -> string.

(** The values of [LearningMode.Quiz], [LearningMode.KnowledgeBase]
    and [LearningMode.QA]. *)
Variables Quiz KnowledgeBase QA : string.

(** The collaborators: [processFile] and the calls to the remote
    service. *)
Variable processFile : File -> World -> Outcome string * World.
Variable embedContent : VectorStore.EmbeddingFunction World.
Variable generateDocumentOverview :
  string -> World -> Outcome Overview * World.
Variable generateQuiz : string -> World -> Outcome QuizData * World.

(** [e instanceof Error ? e.message : "An unknown error occurred
    during processing."] for the value [e] a rejected call of a
    collaborator is rejected with. *)
Variable errorMessage : string -> string.

(** [{ store, overviewData, fullText }]; the overview data of a
    document, [{ ...overviewData, fileName: file.name }], is the pair
    of the data and the file name. *)
Record QADocument := mkQADocument {
  qa_store : list VectorStoreEntry;
  qa_overviewData : Overview * string;
  qa_fullText : string
}.

Definition UploadState : Type :=
  State (Overview * string) QuizData (list VectorStoreEntry) QADocument.

(** The double quote of the template literals. *)
Definition quote : string := String (ascii_of_nat 34) EmptyString.

(** What the [catch] clause receives. *)
Inductive Failure : Type :=
| CallRejected (reason : string)
| InsufficientText.

Definition failureMessage (f : Failure) : string :=
  match f with
  | CallRejected reason => errorMessage reason
  | InsufficientText =>
      "Could not extract sufficient text from the document."
  end.

(** How the first statements of a [try] block end: with the text,
    in the [catch] clause, or never. *)
Inductive Extraction : Type :=
| Extracted (text : string)
| Caught (f : Failure)
| Hangs.

(** [const text = await processFile(file);
     if (!text || text.trim().length < 10) throw new Error(...)] *)
Definition extractText (file : File) (w : World) : Extraction * World :=
  let '(r, w1) := processFile file w in
  (match r with
   | Fulfilled text =>
       if (String.length text =? 0)%nat
          || (String.length (JSString.trim text) <? 10)%nat
       then Caught InsufficientText
       else Extracted text
   | Rejected reason => Caught (CallRejected reason)
   | Pending => Hangs
   end,
   w1).

(** The filter that removes the upload prompts and the document
    overviews. *)
Definition keepOnUpload (m : ChatMessage (Overview * string) QuizData)
    : bool :=
  match sender m with
  | user => true
  | ai | system =>
      match content m with
      | KnowledgeUpload | DocumentOverview _ => false
      | Text _ | Sourced _ _ | OtherObject _ => true
      end
  end.

(** A run of [handleFileUpload(file)] that no other update of the
    state interleaves with: the state of the hook and of the service
    afterwards, the successive arguments of [setFileProcessingProgress]
    ([None] is [null]), and whether the run came to its end ([false]:
    an awaited call never settles).  [now1] and [now2] are
    [Date.now().toString()] at the first and at the second call of
    [addMessage]. *)
Definition handleFileUpload (file : File) (now1 now2 : string)
    (s : UploadState) (w : World)
    : UploadState * World * list (option Progress) * bool :=
  let preparing :=
    Some (mkProgress ("Preparing " ++ quote ++ fileName file ++ quote
                      ++ "...") 0%float) in
  if String.eqb (activeMode s) Quiz then
    let s1 :=
      addMessage
        (mkMessage EmptyString system
           (Text ("Generating a quiz from " ++ quote ++ fileName file
                  ++ quote ++ "...")) None) now1 s in
    let bar1 :=
      [preparing;
       Some (mkProgress "Extracting text from document..." 25%float)] in
    match extractText file w with
    | (Hangs, w1) => (s1, w1, bar1, false)
    | (Caught f, w1) =>
        (addMessage
           (mkMessage EmptyString ai
              (Text ("Error: Failed to generate quiz. "
                     ++ failureMessage f)) None) now2 s1,
         w1, bar1 ++ [None], true)
    | (Extracted text, w1) =>
        let bar2 :=
          bar1
          ++ [Some (mkProgress "Generating quiz questions..." 75%float)] in
        let '(q, w2) := generateQuiz text w1 in
        match q with
        | Fulfilled quizData =>
            (addMessage
               (mkMessage EmptyString ai (OtherObject quizData)
                          (Some (activeMode s))) now2 s1,
             w2, bar2 ++ [None], true)
        | Rejected reason =>
            (addMessage
               (mkMessage EmptyString ai
                  (Text ("Error: Failed to generate quiz. "
                         ++ errorMessage reason)) None) now2 s1,
             w2, bar2 ++ [None], true)
        | Pending => (s1, w2, bar2, false)
        end
    end
  else if negb (String.eqb (activeMode s) KnowledgeBase)
          && negb (String.eqb (activeMode s) QA) then (s, w, [], true)
  else
    let currentMessages :=
      match messagesByMode s (activeMode s) with
      | Some ms => ms
      | None => []
      end in
    let s1 :=
      mkState
        (set_key (messagesByMode s) (activeMode s)
                 (filter keepOnUpload currentMessages))
        (activeMode s) (activePersona s) (vectorStore s) (qaDocument s) in
    let bar1 :=
      [preparing;
       Some (mkProgress "Extracting text from document..." 15%float)] in
    let failed (f : string) (w' : World) (bar : list (option Progress)) :=
      (addMessage
         (mkMessage EmptyString ai
            (Text ("Error: Failed to process document. " ++ f)) None)
         now1 s1,
       w', bar ++ [None], true) in
    match extractText file w with
    | (Hangs, w1) => (s1, w1, bar1, false)
    | (Caught f, w1) => failed (failureMessage f) w1 bar1
    | (Extracted text, w1) =>
        let '(created, newVectorStore) :=
          VectorStore.create text embedContent true (VectorStore.fresh w1) in
        let bar2 :=
          bar1
          ++ map (fun p => Some (onEmbeddingProgress p))
                 (progress_calls (VectorStore.trace newVectorStore)) in
        let w2 := VectorStore.world newVectorStore in
        match created with
        | Pending => (s1, w2, bar2, false)
        | Rejected reason => failed (errorMessage reason) w2 bar2
        | Fulfilled _ =>
            let bar3 :=
              bar2
              ++ [Some (mkProgress "Generating document overview..."
                                   95%float)] in
            let textSample :=
              if (4000 <? String.length text)%nat
              then substring 0 4000 text else text in
            let '(o, w3) := generateDocumentOverview textSample w2 in
            match o with
            | Pending => (s1, w3, bar3, false)
            | Rejected reason => failed (errorMessage reason) w3 bar3
            | Fulfilled overviewData =>
                let fullOverviewData := (overviewData, fileName file) in
                let s2 :=
                  if String.eqb (activeMode s) KnowledgeBase then
                    mkState (messagesByMode s1) (activeMode s1)
                            (activePersona s1)
                            (Some (VectorStore.store newVectorStore))
                            (qaDocument s1)
                  else if String.eqb (activeMode s) QA then
                    mkState (messagesByMode s1) (activeMode s1)
                            (activePersona s1) (vectorStore s1)
                            (Some (mkQADocument
                                     (VectorStore.store newVectorStore)
                                     fullOverviewData text))
                  else s1 in
                (addMessage
                   (mkMessage EmptyString ai
                      (DocumentOverview fullOverviewData)
                      (Some (activeMode s))) now1 s2,
                 w3, bar3 ++ [None], true)
            end
        end
    end.

End HandleFileUpload.

End UseChat.

(* ================================================================== *)
(** * The voice assistant [useVoiceAssistant]: the sources of an answer *)

Module UseVoiceAssistant.

(** [chunk.web] of a grounding chunk of the response; a field that is
    [undefined] is [None]. *)
Record Web := mkWeb {
  uri : option string;
  title : option string
}.

Record GroundingChunk := mkGroundingChunk {
  web : option Web
}.

(** An element of [TranscriptEntry.sources]. *)
Record Source := mkSource {
  content : string;
  sourceTitle : string;
  type : string
}.

(** The string counts as true in a condition: it is defined and not
    empty. *)
Definition truthy (s : option string) : bool :=
  match s with
  | Some (String _ _) => true
  | Some EmptyString | None => false
  end.

(** [uniqueUris.has(uri)], the set kept as the list of its elements. *)
Definition has (u : string) (uniqueUris : list string) : bool :=
  existsb (String.eqb u) uniqueUris.

(** [chunk.web.title || chunk.web.uri], for a [uri] that is defined. *)
Definition title_or_uri (w : Web) (u : string) : string :=
  match title w with
  | Some (String c t) => String c t
  | Some EmptyString | None => u
  end.

(** [for (const chunk of groundingMetadata.groundingChunks) { if
    (chunk.web && chunk.web.uri && !uniqueUris.has(chunk.web.uri)) {
    sources.push(...); uniqueUris.add(chunk.web.uri); } }] *)
Fixpoint collect (chunks : list GroundingChunk) (sources : list Source)
    (uniqueUris : list string) : list Source :=
  match chunks with
  | [] => sources
  | chunk :: rest =>
      match web chunk with
      | Some w =>
          match uri w with
          | Some u =>
              if truthy (Some u) && negb (has u uniqueUris)
              then collect rest
                     (sources ++ [mkSource u (title_or_uri w u) "web_link"])
                     (uniqueUris ++ [u])
              else collect rest sources uniqueUris
          | None => collect rest sources uniqueUris
          end
      | None => collect rest sources uniqueUris
      end
  end.

(** The sources of a response; [groundingChunks] is
    [response.candidates?.[0]?.groundingMetadata?.groundingChunks]. *)
Definition groundingSources (groundingChunks : option (list GroundingChunk))
    : list Source :=
  match groundingChunks with
  | Some chunks => collect chunks [] []
  | None => []
  end.

(** [if ((!aiText || !aiText.trim()) && sources.length > 0) aiText =
    "I found ..."]: the text of the transcript entry. *)
Definition transcriptText (aiText : option string) (sources : list Source)
    : option string :=
  let noText :=
    match aiText with
    | Some t => negb (truthy (Some t)) || negb (truthy (Some (JSString.trim t)))
    | None => true
    end in
  if noText && (0 <? List.length sources)%nat
  then Some "I found some relevant information. Please see the sources for details."
  else aiText.

End UseVoiceAssistant.

(* ================================================================== *)
(** * Vocabulary of the further properties *)

(** ** Putting chunks back together *)

(** Putting chunks back together: the first chunk, then every later
    chunk without its first [overlap] characters. *)
Definition drop_prefix (n : nat) (s : string) : string :=
  substring n (String.length s - n) s.

Fixpoint stitch_rest (overlap : nat) (rest : list string) : string :=
  match rest with
  | [] => EmptyString
  | c :: rest' => (drop_prefix overlap c ++ stitch_rest overlap rest')%string
  end.

Definition stitch (overlap : nat) (chunks : list string) : string :=
  match chunks with
  | [] => EmptyString
  | c :: rest => (c ++ stitch_rest overlap rest)%string
  end.

(** ** Calls of a batch *)

(** The results of the calls of a batch, in order, and the state of the
    collaborator after them. *)
Fixpoint call_results {World} (embeddingFn : EmbeddingFunction World)
    (batchChunks : list string) (w : World)
    : list (Outcome (list float)) * World :=
  match batchChunks with
  | [] => ([], w)
  | chunk :: rest =>
      let '(r, w1) := embeddingFn chunk w in
      let '(rs, w2) := call_results embeddingFn rest w1 in
      (r :: rs, w2)
  end.

Definition is_embed_call (e : Event) : bool :=
  match e with
  | EmbedCall _ _ => true
  | ProgressCall _ => false
  end.

(** ** The progress bar of an upload *)

(** The percentage shown when [create] reports the integer percentage
    [z]. *)
Definition shown_for (z : Z) : float :=
  percentage (UseChat.onEmbeddingProgress
                (mkProgress EmptyString (rounded z))).

(** The percentage shown for [a] lies between 15 and 95, and is at most
    the one shown for [b] when the percentage [a] is at most [b]. *)
Definition shown_pair_ok (a b : nat) : bool :=
  (15 <=? shown_for (Z.of_nat a))%float
  && (shown_for (Z.of_nat a) <=? 95)%float
  && (if (rounded (Z.of_nat a) <=? rounded (Z.of_nat b))%float
      then (shown_for (Z.of_nat a) <=? shown_for (Z.of_nat b))%float
      else true).

(** ** Requests through [useGemini] *)

(** The number of calls in flight after [actions], starting from
    [n]; [None] when a call settles that was never made. *)
Fixpoint in_flight {Data} (n : nat) (actions : list (UseGemini.Action Data))
    : option nat :=
  match actions with
  | [] => Some n
  | UseGemini.Execute :: rest => in_flight (S n) rest
  | UseGemini.Settle _ :: rest =>
      match n with
      | O => None
      | S n' => in_flight n' rest
      end
  | UseGemini.Clear :: rest => in_flight n rest
  end.

(** [execute] is never called while a call is in flight (the panel
    disables its form while [isLoading]). *)
Fixpoint one_at_a_time {Data} (n : nat) (actions : list (UseGemini.Action Data))
    : bool :=
  match actions with
  | [] => true
  | UseGemini.Execute :: rest =>
      match n with
      | O => one_at_a_time 1 rest
      | S _ => false
      end
  | UseGemini.Settle _ :: rest =>
      match n with
      | O => false
      | S n' => one_at_a_time n' rest
      end
  | UseGemini.Clear :: rest => one_at_a_time n rest
  end.

Definition is_failure_message (e : option string) : Prop :=
  match e with
  | None => True
  | Some m => exists detail, m = ("Failed to get response. " ++ detail)%string
  end.

(** ** Callbacks of [useChat] *)

(** The actions are performed while [m] is not the active mode. *)
Fixpoint performed_elsewhere {OverviewData OtherData Store QADocument}
    (KnowledgeBase QA m : string)
    (actions : list (UseChat.Action OverviewData OtherData))
    (s : UseChat.State OverviewData OtherData Store QADocument) : Prop :=
  match actions with
  | [] => True
  | a :: rest =>
      UseChat.activeMode s <> m
      /\ performed_elsewhere KnowledgeBase QA m rest
           (UseChat.step KnowledgeBase QA s a)
  end.

(** ** Uploads *)

(** The store holds the chunks of [text], one entry per chunk, and
    there is at least one. *)
Definition complete_store_of (text : string)
    (entries : list VectorStoreEntry) : Prop :=
  chunkText text 1000 200 = Some (map chunk entries) /\ entries <> [].

(** What an upload leaves of the state it found: the active mode, the
    persona and the conversations of the other modes. *)
Definition upload_frame {Overview QuizData : Type}
    (s s' : @UseChat.UploadState Overview QuizData) : Prop :=
  UseChat.activeMode s' = UseChat.activeMode s
  /\ UseChat.activePersona s' = UseChat.activePersona s
  /\ (forall m, m <> UseChat.activeMode s ->
        UseChat.messagesByMode s' m = UseChat.messagesByMode s m).

(** The percentages of the successive values of the progress indicator
    ([null] has none). *)
Definition bar_percentages (bar : list (option Progress)) : list float :=
  flat_map (fun o => match o with
                     | Some p => [percentage p]
                     | None => []
                     end) bar.

Definition never_decreases (l : list float) : Prop :=
  StronglySorted (fun x y => (x <=? y)%float = true) l.

Definition shown_above_zero (a : nat) : bool :=
  (0 <=? shown_for (Z.of_nat a))%float.

(** The string consists of white space only. *)
Fixpoint blank (s : string) : bool :=
  match s with
  | EmptyString => true
  | String c s' => JSString.is_white_space c && blank s'
  end.

(** [u] is the URI of the web page of the grounding chunk. *)
Definition web_uri (chunk : UseVoiceAssistant.GroundingChunk) (u : string)
    : Prop :=
  exists w,
    UseVoiceAssistant.web chunk = Some w /\ UseVoiceAssistant.uri w = Some u.

(** ** Stubs and data of the concrete runs *)

(** An embedding stub that fulfils every call with the same vector. *)
Definition constant_stub (v : list float) : EmbeddingFunction unit :=
  fun _ w => (Fulfilled v, w).

(** A call-counting stub: the state is the number of calls so far, the
    call numbered [fail_at] (from 0) is rejected, every other call is
    fulfilled with a vector that depends on the count. *)
Definition counting_stub (fail_at : nat) : EmbeddingFunction nat :=
  fun _ calls =>
    (if (calls =? fail_at)%nat then Rejected "quota exceeded"
     else Fulfilled [1%float; JSNumber.of_nat calls],
     S calls).

Fixpoint repeat_string (s : string) (n : nat) : string :=
  match n with
  | O => EmptyString
  | S n' => (s ++ repeat_string s n')%string
  end.

(** 5000 characters: six chunks, two batches. *)
Definition long_text : string := repeat_string "0123456789" 500.

Definition stale_entry : VectorStoreEntry := mkEntry "stale" [1%float].

Definition three_equal : list VectorStoreEntry :=
  [mkEntry "a" [1%float; 0%float];
   mkEntry "b" [1%float; 0%float];
   mkEntry "c" [1%float; 0%float]].

Definition one_hot : list VectorStoreEntry :=
  [mkEntry "a" [1%float; 0%float; 0%float];
   mkEntry "b" [0%float; 1%float; 0%float];
   mkEntry "c" [0%float; 0%float; 1%float];
   mkEntry "d" [0%float; 0%float; 1%float]].

Definition overflowing : list VectorStoreEntry :=
  [mkEntry "a" [1%float; 0%float];
   mkEntry "b" [0x1p+600%float; 0%float];
   mkEntry "c" [1%float; 1%float]].

Definition big_query : list float := [0x1p+500%float; 0x1p+500%float].

(** A stub of [getAnswerFromContext] that answers with the context it
    was given. *)
Definition echo_context_stub
    : string -> string -> option string -> nat -> Outcome string * nat :=
  fun _ context _ calls => (Fulfilled context, S calls).

(** A request that fails after one that succeeded and was cleared. *)
Definition two_requests : list (UseGemini.Action nat) :=
  [UseGemini.Execute; UseGemini.Settle (UseGemini.Resolved (Some 7%nat));
   UseGemini.Clear; UseGemini.Execute;
   UseGemini.Settle (UseGemini.Threw UseGemini.OtherValue)].

(** A state of the chat hook with a conversation in the mode
    ["Summarize"], and things done in the modes ["KnowledgeBase"] and
    ["QA"]. *)
Definition summary_message : UseChat.ChatMessage unit unit :=
  UseChat.mkMessage "1700000000000" UseChat.user
                    (UseChat.Text "Summarize this.") (Some "Summarize").

Definition in_knowledge_base : UseChat.State unit unit unit unit :=
  UseChat.mkState
    (fun key => if String.eqb key "Summarize" then Some [summary_message]
                else None)
    "KnowledgeBase" PersonaConfig.Default (Some tt) None.

Definition busy_elsewhere : list (UseChat.Action unit unit) :=
  [UseChat.AddMessage summary_message "1700000000001";
   UseChat.SelectPersona PersonaConfig.Expert "1700000000002";
   UseChat.SelectMode "QA";
   UseChat.ClearChat].

(** An upload of [long_text]: the extraction gives the text, the
    overview is its sample. *)
Definition long_text_file : unit -> nat -> Outcome string * nat :=
  fun _ calls => (Fulfilled long_text, calls).

Definition sample_overview : string -> nat -> Outcome string * nat :=
  fun textSample calls => (Fulfilled textSample, S calls).

Definition no_quiz : string -> nat -> Outcome unit * nat :=
  fun _ calls => (Rejected "no quiz", calls).

Definition upload_long_text (s : @UseChat.UploadState string unit)
    : @UseChat.UploadState string unit * nat * list (option Progress) * bool :=
  UseChat.handleFileUpload unit (fun _ => "notes.pdf")
    "Quiz" "KnowledgeBase" "QA"
    long_text_file (counting_stub 100) sample_overview no_quiz
    (fun reason => reason) tt "1700000000003" "1700000000004" s 0%nat.

Definition empty_knowledge_base : @UseChat.UploadState string unit :=
  UseChat.mkState (fun _ => None) "KnowledgeBase" PersonaConfig.Default
                  None None.

(** A scanned PDF of three pages: pdf.js finds no text item on the
    first and the last page, and two blank ones on the second. *)
Definition scanned_pages : list (list string) := [[]; [" "; EmptyString]; []].

Definition read_scanned : string -> nat -> Outcome (list (list string)) * nat :=
  fun _ reads => (Fulfilled scanned_pages, S reads).

Definition transcribed_image : string -> nat -> Outcome string * nat :=
  fun _ reads => (Fulfilled "A diagram of the water cycle.", S reads).

(** The files of these runs are given by their MIME type. *)
Definition processFile_of_type : string -> nat -> Outcome string * nat :=
  DocumentProcessor.processFile string (fun type => type)
    read_scanned transcribed_image.

(** The grounding chunks of a response that cites one page twice, under
    two titles, then a page without title, a chunk that is no web page
    and a page without address. *)
Definition cited_pages : list UseVoiceAssistant.GroundingChunk :=
  [UseVoiceAssistant.mkGroundingChunk
     (Some (UseVoiceAssistant.mkWeb (Some "https://a.example/cycle")
                                    (Some "The water cycle")));
   UseVoiceAssistant.mkGroundingChunk
     (Some (UseVoiceAssistant.mkWeb (Some "https://b.example/rain") None));
   UseVoiceAssistant.mkGroundingChunk
     (Some (UseVoiceAssistant.mkWeb (Some "https://a.example/cycle")
                                    (Some "Water cycle, again")));
   UseVoiceAssistant.mkGroundingChunk None;
   UseVoiceAssistant.mkGroundingChunk
     (Some (UseVoiceAssistant.mkWeb (Some EmptyString) (Some "No address")))].

(* ================================================================== *)
(** * Properties *)

(* ================================================================== *)
(** * Facts about binary64 numbers

    Derived from the specification of the primitive operations
    ([FloatAxioms]) and Rocq's reference implementation [SpecFloat]. *)

Lemma SFltb_key (a b : spec_float) :
  a <> S754_nan -> b <> S754_nan ->
  (SFltb a b = true <-> key_lt (SFkey a) (SFkey b)).
Proof.
  intros Ha Hb. unfold SFltb, SFcompare.
  destruct a as [sa | sa | | sa ma ea]; try congruence;
    destruct b as [sb | sb | | sb mb eb]; try congruence;
    try destruct sa; try destruct sb; cbn [SFkey key_lt];
    try (split; [discriminate | lia]);
    try (split; [lia | reflexivity]).
  all: change (Pos.compare_cont Eq ma mb) with (Pos.compare ma mb).
  all: destruct (Z.compare_spec ea eb); destruct (Pos.compare_spec ma mb);
    cbn [CompOpp]; split; intro; try discriminate; try reflexivity; try lia.
Qed.

Lemma SFeqb_key (a b : spec_float) :
  a <> S754_nan -> b <> S754_nan ->
  (SFeqb a b = true <-> SFkey a = SFkey b).
Proof.
  intros Ha Hb. unfold SFeqb, SFcompare.
  destruct a as [sa | sa | | sa ma ea]; try congruence;
    destruct b as [sb | sb | | sb mb eb]; try congruence;
    try destruct sa; try destruct sb; cbn [SFkey];
    try (split; [discriminate | intro H; inversion H; lia]);
    try (split; [reflexivity | reflexivity]);
    try (split; congruence).
  all: change (Pos.compare_cont Eq ma mb) with (Pos.compare ma mb).
  all: destruct (Z.compare_spec ea eb); destruct (Pos.compare_spec ma mb);
    cbn [CompOpp]; split; intro Hx; try discriminate; try reflexivity;
    try (inversion Hx; lia); try (subst; reflexivity).
Qed.
Lemma digits2_pos_bounds (m : positive) :
  2 ^ (Z.pos (digits2_pos m) - 1) <= Z.pos m < 2 ^ Z.pos (digits2_pos m).
Proof.
  induction m as [m IH | m IH |]; cbn [digits2_pos].
  - rewrite Pos2Z.inj_succ.
    replace (Z.succ (Z.pos (digits2_pos m)) - 1) with (Z.succ (Z.pos (digits2_pos m) - 1)) by lia.
    rewrite !Z.pow_succ_r by lia. lia.
  - rewrite Pos2Z.inj_succ.
    replace (Z.succ (Z.pos (digits2_pos m)) - 1) with (Z.succ (Z.pos (digits2_pos m) - 1)) by lia.
    rewrite !Z.pow_succ_r by lia. lia.
  - simpl. lia.
Qed.

Lemma shl_align_le (m : positive) (e e' : Z) :
  e' <= e ->
  shl_align m e e' = (fst (shl_align m e e'), e')
  /\ Z.pos (fst (shl_align m e e')) = Z.pos m * 2 ^ (e - e').
Proof.
  intro Hle. unfold shl_align.
  destruct (e' - e) as [| p | p] eqn:Hd; try lia.
  - assert (e' = e) by lia. subst. rewrite Z.sub_diag. simpl. split; [reflexivity | lia].
  - cbn [fst]. split; [reflexivity |].
    fold (shift_pos p m). rewrite shift_pos_correct.
    replace (e - e') with (Z.pos p) by lia.
    rewrite Z.pow_pos_fold. lia.
Qed.

Lemma shl_align_exp (m : positive) (e e' : Z) :
  snd (shl_align m e e') = Z.min e e'.
Proof.
  unfold shl_align. destruct (e' - e) as [| p | p] eqn:Hd; cbn [snd]; lia.
Qed.

Lemma shr_1_m (r : shr_record) :
  0 <= shr_m r -> shr_m (shr_1 r) = shr_m r / 2.
Proof.
  destruct r as [m r s]. cbn [shr_m]. intro Hm.
  rewrite <- Z.div2_div.
  destruct m as [| [p | p |] | p]; try reflexivity; lia.
Qed.

Lemma pow2_xO (p : positive) : 2 ^ Z.pos p~0 = 2 ^ Z.pos p * 2 ^ Z.pos p.
Proof. rewrite <- Z.pow_add_r by lia. f_equal; lia. Qed.

Lemma pow2_xI (p : positive) : 2 ^ Z.pos p~1 = 2 * (2 ^ Z.pos p * 2 ^ Z.pos p).
Proof.
  rewrite <- pow2_xO, <- Z.pow_succ_r by lia. f_equal; lia.
Qed.

Lemma iter_pos_shr_m (p : positive) :
  forall r : shr_record,
    0 <= shr_m r -> shr_m (iter_pos shr_1 p r) = shr_m r / 2 ^ Z.pos p.
Proof.
  induction p as [p IH | p IH |]; intros r Hr; cbn [iter_pos].
  - assert (H1 : shr_m (shr_1 r) = shr_m r / 2) by (apply shr_1_m; exact Hr).
    assert (H1' : 0 <= shr_m (shr_1 r)) by (rewrite H1; apply Z.div_pos; lia).
    assert (H2 := IH _ H1').
    assert (H2' : 0 <= shr_m (iter_pos shr_1 p (shr_1 r)))
      by (rewrite H2; apply Z.div_pos; [exact H1' | apply Z.pow_pos_nonneg; lia]).
    rewrite (IH _ H2'), H2, H1.
    rewrite !Z.div_div by (try apply Z.pow_pos_nonneg; lia).
    rewrite pow2_xI. reflexivity.
  - assert (H2 := IH _ Hr).
    assert (H2' : 0 <= shr_m (iter_pos shr_1 p r))
      by (rewrite H2; apply Z.div_pos; [exact Hr | apply Z.pow_pos_nonneg; lia]).
    rewrite (IH _ H2'), H2.
    rewrite !Z.div_div by (try apply Z.pow_pos_nonneg; lia).
    rewrite pow2_xO. reflexivity.
  - rewrite shr_1_m by exact Hr. reflexivity.
Qed.

Lemma shr_record_of_loc_m (m : Z) (l : location) :
  shr_m (shr_record_of_loc m l) = m.
Proof. destruct l as [| []]; reflexivity. Qed.

Lemma shr_fexp_pos (m e : Z) (l : location) :
  0 < m -> SpecFloat.emin prec emax <= e ->
  0 < shr_m (fst (shr_fexp prec emax m e l))
  /\ SpecFloat.emin prec emax <= snd (shr_fexp prec emax m e l).
Proof.
  intros Hm He. unfold shr_fexp, shr.
  destruct m as [| p | p]; try lia. cbn [Zdigits2].
  assert (Hd := digits2_pos_bounds p).
  set (d := Z.pos (digits2_pos p)) in *.
  destruct (fexp prec emax (d + e) - e) as [| q | q] eqn:Hn; cbn [fst snd];
    rewrite ?shr_record_of_loc_m; try (split; lia).
  rewrite iter_pos_shr_m by (rewrite shr_record_of_loc_m; lia).
  rewrite shr_record_of_loc_m.
  unfold fexp, SpecFloat.emin, prec, emax in *.
  assert (Hq : Z.pos q = d - 53) by lia.
  split; [| lia].
  apply Z.div_str_pos. split; [apply Z.pow_pos_nonneg; lia |].
  apply Z.le_trans with (2 ^ (d - 1)); [| lia].
  apply Z.pow_le_mono_r; lia.
Qed.

Lemma round_nearest_even_pos (m : Z) (l : location) :
  0 < m -> 0 < round_nearest_even m l.
Proof.
  intro Hm. unfold round_nearest_even.
  destruct l as [| []]; try lia. destruct (Z.even m); lia.
Qed.

Lemma binary_round_aux_pos (m e : Z) (l : location) :
  0 < m -> SpecFloat.emin prec emax <= e ->
  positive_result (binary_round_aux prec emax false m e l).
Proof.
  intros Hm He. unfold binary_round_aux.
  destruct (shr_fexp_pos m e l Hm He) as [H1 H1e].
  destruct (shr_fexp prec emax m e l) as [mrs' e'] eqn:E1. cbn [fst snd] in *.
  assert (H2 := round_nearest_even_pos (shr_m mrs') (loc_of_shr_record mrs') H1).
  destruct (shr_fexp_pos _ e' loc_Exact H2 H1e) as [H3 H3e].
  destruct (shr_fexp prec emax (round_nearest_even (shr_m mrs') (loc_of_shr_record mrs')) e' loc_Exact)
    as [mrs'' e''] eqn:E2. cbn [fst snd] in *.
  destruct (shr_m mrs'') as [| p | p]; try lia.
  destruct (e'' <=? emax - prec); [left; eauto | right; reflexivity].
Qed.

Lemma binary_normalize_pos (m : positive) (e : Z) :
  SpecFloat.emin prec emax <= e ->
  positive_result (binary_normalize prec emax (Z.pos m) e false).
Proof.
  intro He. unfold binary_normalize, binary_round.
  destruct (shl_align m e (fexp prec emax (Z.pos (digits2_pos m) + e))) as [mz ez] eqn:E.
  apply binary_round_aux_pos; [lia |].
  assert (Hs := shl_align_exp m e (fexp prec emax (Z.pos (digits2_pos m) + e))).
  rewrite E in Hs. cbn [snd] in Hs. subst ez.
  unfold fexp, SpecFloat.emin in *. lia.
Qed.

Lemma binary_normalize_neg (m : positive) (e : Z) :
  SFltb (S754_zero false) (binary_normalize prec emax (Z.neg m) e false) = false.
Proof.
  unfold binary_normalize, binary_round, binary_round_aux.
  destruct (shl_align m e _) as [mz ez].
  destruct (shr_fexp prec emax (Z.pos mz) ez loc_Exact) as [mrs' e'].
  destruct (shr_fexp prec emax _ e' loc_Exact) as [mrs'' e''].
  destruct (shr_m mrs''); try reflexivity.
  destruct (e'' <=? emax - prec); reflexivity.
Qed.

Lemma positive_result_ltb (r : spec_float) :
  positive_result r -> SFltb (S754_zero false) r = true /\ r <> S754_nan.
Proof.
  intros [[m [e ->]] | ->]; split; (reflexivity || discriminate).
Qed.

Lemma valid_finite (s : bool) (m : positive) (e : Z) :
  valid_binary (S754_finite s m e) = true ->
  Z.max (Z.pos (digits2_pos m) + e - 53) (-1074) = e /\ e <= 971.
Proof.
  cbn [SpecFloat.valid_binary]. unfold bounded, canonical_mantissa, fexp.
  intro H. apply andb_true_iff in H. destruct H as [H1 H2].
  apply Z.eqb_eq in H1. apply Z.leb_le in H2.
  unfold SpecFloat.emin, prec, emax in *. split; lia.
Qed.

(** Two canonical mantissas brought to the smaller of their exponents
    compare as the pairs (exponent, mantissa) do. *)
Lemma aligned_compare (ma mb : positive) (ea eb : Z) :
  Z.max (Z.pos (digits2_pos ma) + ea - 53) (-1074) = ea ->
  Z.max (Z.pos (digits2_pos mb) + eb - 53) (-1074) = eb ->
  let ez := Z.min eb ea in
  (Z.pos ma * 2 ^ (ea - ez) < Z.pos mb * 2 ^ (eb - ez)
   <-> ea < eb \/ (ea = eb /\ Z.pos ma < Z.pos mb)).
Proof.
  intros Ha Hb ez.
  assert (Da := digits2_pos_bounds ma). assert (Db := digits2_pos_bounds mb).
  set (da := Z.pos (digits2_pos ma)) in *. set (db := Z.pos (digits2_pos mb)) in *.
  assert (Hda : 1 <= da) by (subst da; lia).
  assert (Hdb : 1 <= db) by (subst db; lia).
  assert (Ha53 : Z.pos ma < 2 ^ 53).
  { apply Z.lt_le_trans with (2 ^ da); [lia | apply Z.pow_le_mono_r; lia]. }
  assert (Hb53 : Z.pos mb < 2 ^ 53).
  { apply Z.lt_le_trans with (2 ^ db); [lia | apply Z.pow_le_mono_r; lia]. }
  destruct (Z.lt_trichotomy ea eb) as [Hlt | [Heq | Hgt]].
  - assert (db = 53) by lia.
    assert (Hmb : 2 ^ 52 <= Z.pos mb) by (replace 52 with (db - 1) by lia; lia).
    subst ez. rewrite Z.min_r by lia. rewrite Z.sub_diag, Z.pow_0_r.
    assert (Hp : 2 ^ 1 <= 2 ^ (eb - ea)) by (apply Z.pow_le_mono_r; lia).
    change (2 ^ 1) with 2 in Hp. change (2 ^ 52) with 4503599627370496 in Hmb.
    change (2 ^ 53) with 9007199254740992 in Ha53.
    split; [intros _; left; exact Hlt | intros _]. nia.
  - subst ez eb. rewrite Z.min_l by lia. rewrite Z.sub_diag, Z.pow_0_r. lia.
  - assert (da = 53) by lia.
    assert (Hma : 2 ^ 52 <= Z.pos ma) by (replace 52 with (da - 1) by lia; lia).
    subst ez. rewrite Z.min_l by lia. rewrite Z.sub_diag, Z.pow_0_r.
    assert (Hp : 2 ^ 1 <= 2 ^ (ea - eb)) by (apply Z.pow_le_mono_r; lia).
    change (2 ^ 1) with 2 in Hp. change (2 ^ 52) with 4503599627370496 in Hma.
    change (2 ^ 53) with 9007199254740992 in Hb53.
    split; [intro Hx; exfalso; nia | intros [Hx | [Hx _]]; lia].
Qed.

Lemma SFsub_sign_finite (sa sb : bool) (ma mb : positive) (ea eb : Z) :
  valid_binary (S754_finite sa ma ea) = true ->
  valid_binary (S754_finite sb mb eb) = true ->
  SFltb (S754_zero false)
        (SFsub prec emax (S754_finite sb mb eb) (S754_finite sa ma ea))
  = SFltb (S754_finite sa ma ea) (S754_finite sb mb eb).
Proof.
  intros Va Vb.
  destruct (valid_finite _ _ _ Va) as [Ha Hae].
  destruct (valid_finite _ _ _ Vb) as [Hb Hbe].
  assert (Hcmp := aligned_compare ma mb ea eb Ha Hb).
  assert (Hcmp' := aligned_compare mb ma eb ea Hb Ha).
  rewrite (Z.min_comm ea eb) in Hcmp'.
  cbn [SFsub]. set (ez := Z.min eb ea) in *.
  destruct (shl_align_le mb eb ez ltac:(lia)) as [_ HB].
  destruct (shl_align_le ma ea ez ltac:(lia)) as [_ HA].
  set (B := Z.pos (fst (shl_align mb eb ez))) in *.
  set (A := Z.pos (fst (shl_align ma ea ez))) in *.
  cbv zeta in Hcmp, Hcmp'. rewrite <- HA, <- HB in Hcmp, Hcmp'.
  assert (HApos : 0 < A) by (subst A; lia).
  assert (HBpos : 0 < B) by (subst B; lia).
  assert (Hez : SpecFloat.emin prec emax <= ez)
    by (unfold SpecFloat.emin, prec, emax; lia).
  assert (Hk := SFltb_key (S754_finite sa ma ea) (S754_finite sb mb eb)
                  ltac:(discriminate) ltac:(discriminate)).
  set (z := cond_Zopp sb B - cond_Zopp sa A).
  assert (Hz : SFltb (S754_finite sa ma ea) (S754_finite sb mb eb) = (0 <? z)).
  { destruct (SFltb (S754_finite sa ma ea) (S754_finite sb mb eb)); symmetry.
    - apply Z.ltb_lt. destruct Hk as [Hk _]. specialize (Hk eq_refl).
      subst z. destruct sa, sb; cbn [SFkey key_lt cond_Zopp] in *; lia.
    - apply Z.ltb_ge. destruct (Z.lt_ge_cases 0 z) as [Hpos | ?]; [| assumption].
      destruct Hk as [_ Hk]. assert (false = true); [| discriminate].
      apply Hk. subst z. destruct sa, sb; cbn [SFkey key_lt cond_Zopp] in *; lia. }
  rewrite Hz. clear Hz Hk.
  destruct z as [| p | p].
  - reflexivity.
  - destruct (positive_result_ltb _ (binary_normalize_pos p ez Hez)) as [-> _].
    reflexivity.
  - rewrite binary_normalize_neg. reflexivity.
Qed.

Lemma SFsub_sign (a b : spec_float) :
  valid_binary a = true -> valid_binary b = true ->
  a <> S754_nan -> b <> S754_nan ->
  SFltb (S754_zero false) (SFsub prec emax b a) = SFltb a b.
Proof.
  intros Va Vb Ha Hb.
  destruct a as [sa | sa | | sa ma ea]; try congruence;
    destruct b as [sb | sb | | sb mb eb]; try congruence;
    try (apply SFsub_sign_finite; assumption);
    try destruct sa; try destruct sb; reflexivity.
Qed.

(** ** The same facts on primitive floats *)

Lemma Prim2SF_zero : Prim2SF zero = S754_zero false.
Proof. reflexivity. Qed.

Lemma is_nan_false (x : float) : is_nan x = false -> Prim2SF x <> S754_nan.
Proof.
  unfold is_nan. rewrite eqb_spec. intros H Hn. rewrite Hn in H. discriminate.
Qed.

Lemma is_nan_true (x : float) : is_nan x = true -> Prim2SF x = S754_nan.
Proof.
  unfold is_nan. rewrite eqb_spec. intro H.
  destruct (Prim2SF x) as [s | s | | s m e] eqn:E; try reflexivity;
    exfalso; revert H; unfold SFeqb, SFcompare;
    try (destruct s; discriminate).
  rewrite Z.compare_refl.
  change (Pos.compare_cont Eq m m) with (Pos.compare m m).
  rewrite Pos.compare_refl. destruct s; discriminate.
Qed.

Lemma ltb_not_nan (x y : float) :
  (x <? y)%float = true -> is_nan x = false /\ is_nan y = false.
Proof.
  rewrite ltb_spec. intro H.
  split.
  - destruct (is_nan x) eqn:E; [| reflexivity].
    apply is_nan_true in E. rewrite E in H. discriminate.
  - destruct (is_nan y) eqn:E; [| reflexivity].
    apply is_nan_true in E. rewrite E in H.
    destruct (Prim2SF x); discriminate.
Qed.

Lemma ltb_key (x y : float) :
  is_nan x = false -> is_nan y = false ->
  ((x <? y)%float = true <-> key_lt (SFkey (Prim2SF x)) (SFkey (Prim2SF y))).
Proof.
  intros Hx Hy. rewrite ltb_spec.
  apply SFltb_key; apply is_nan_false; assumption.
Qed.

Lemma key_lt_trans (k1 k2 k3 : Z * Z * Z) :
  key_lt k1 k2 -> key_lt k2 k3 -> key_lt k1 k3.
Proof.
  destruct k1 as [[a1 b1] c1], k2 as [[a2 b2] c2], k3 as [[a3 b3] c3].
  unfold key_lt. lia.
Qed.

Lemma key_lt_neg_trans (k1 k2 k3 : Z * Z * Z) :
  ~ key_lt k1 k2 -> ~ key_lt k2 k3 -> ~ key_lt k1 k3.
Proof.
  destruct k1 as [[a1 b1] c1], k2 as [[a2 b2] c2], k3 as [[a3 b3] c3].
  unfold key_lt. lia.
Qed.

Lemma key_lt_total (k1 k2 : Z * Z * Z) :
  ~ key_lt k1 k2 -> ~ key_lt k2 k1 -> k1 = k2.
Proof.
  destruct k1 as [[a1 b1] c1], k2 as [[a2 b2] c2].
  unfold key_lt. intros H1 H2.
  assert (a1 = a2) by lia. assert (b1 = b2) by lia. assert (c1 = c2) by lia.
  congruence.
Qed.

Lemma ltb_irrefl (x : float) : (x <? x)%float = false.
Proof.
  destruct (x <? x)%float eqn:E; [| reflexivity].
  destruct (ltb_not_nan _ _ E) as [Hx _].
  apply (ltb_key x x Hx Hx) in E.
  destruct (SFkey (Prim2SF x)) as [[a b] c]. unfold key_lt in E. lia.
Qed.

Lemma ltb_trans (x y z : float) :
  (x <? y)%float = true -> (y <? z)%float = true -> (x <? z)%float = true.
Proof.
  intros H1 H2.
  destruct (ltb_not_nan _ _ H1) as [Hx Hy].
  destruct (ltb_not_nan _ _ H2) as [_ Hz].
  apply (ltb_key x z Hx Hz).
  apply key_lt_trans with (SFkey (Prim2SF y));
    [apply (ltb_key x y Hx Hy) | apply (ltb_key y z Hy Hz)]; assumption.
Qed.

Lemma ltb_neg_trans (x y z : float) :
  is_nan x = false -> is_nan y = false -> is_nan z = false ->
  (x <? y)%float = false -> (y <? z)%float = false -> (x <? z)%float = false.
Proof.
  intros Hx Hy Hz H1 H2.
  destruct (x <? z)%float eqn:E; [| reflexivity]. exfalso.
  apply (ltb_key x z Hx Hz) in E. revert E.
  apply key_lt_neg_trans with (SFkey (Prim2SF y)); intro Hk.
  - apply (ltb_key x y Hx Hy) in Hk. congruence.
  - apply (ltb_key y z Hy Hz) in Hk. congruence.
Qed.

Lemma ltb_asym (x y : float) :
  (x <? y)%float = true -> (y <? x)%float = false.
Proof.
  intro H. destruct (y <? x)%float eqn:E; [| reflexivity].
  assert (Hxx := ltb_trans _ _ _ H E). rewrite ltb_irrefl in Hxx. discriminate.
Qed.

(** Numbers neither of which is below the other are numerically
    equal. *)
Lemma eqb_of_not_ltb (x y : float) :
  is_nan x = false -> is_nan y = false ->
  (x <? y)%float = false -> (y <? x)%float = false -> (x =? y)%float = true.
Proof.
  intros Hx Hy H1 H2. rewrite eqb_spec.
  apply SFeqb_key; try (apply is_nan_false; assumption).
  apply key_lt_total; intro Hk.
  - apply (ltb_key x y Hx Hy) in Hk. congruence.
  - apply (ltb_key y x Hy Hx) in Hk. congruence.
Qed.

Lemma eqb_not_ltb (x y : float) :
  (x =? y)%float = true -> (x <? y)%float = false /\ (y <? x)%float = false.
Proof.
  intro H.
  assert (Hx : is_nan x = false).
  { destruct (is_nan x) eqn:E; [| reflexivity]. apply is_nan_true in E.
    rewrite eqb_spec, E in H. discriminate. }
  assert (Hy : is_nan y = false).
  { destruct (is_nan y) eqn:E; [| reflexivity]. apply is_nan_true in E.
    rewrite eqb_spec, E in H. destruct (Prim2SF x); discriminate. }
  rewrite eqb_spec in H.
  apply SFeqb_key in H; try (apply is_nan_false; assumption).
  split.
  - destruct (x <? y)%float eqn:E; [| reflexivity].
    apply (ltb_key x y Hx Hy) in E. rewrite H in E.
    destruct (SFkey (Prim2SF y)) as [[a b] c]. unfold key_lt in E. lia.
  - destruct (y <? x)%float eqn:E; [| reflexivity].
    apply (ltb_key y x Hy Hx) in E. rewrite H in E.
    destruct (SFkey (Prim2SF y)) as [[a b] c]. unfold key_lt in E. lia.
Qed.

(** The sign of a difference: [y - x] is positive exactly when [x] is
    below [y]. *)
Lemma sub_pos_ltb (x y : float) :
  is_nan x = false -> is_nan y = false ->
  (zero <? y - x)%float = (x <? y)%float.
Proof.
  intros Hx Hy. rewrite !ltb_spec, sub_spec, Prim2SF_zero.
  apply SFsub_sign; try apply Prim2SF_valid; apply is_nan_false; assumption.
Qed.

Lemma SortCompare_pos (v : float) :
  (zero <? JSNumber.SortCompare v)%float = (zero <? v)%float.
Proof.
  unfold JSNumber.SortCompare. destruct (is_nan v) eqn:E; [| reflexivity].
  apply is_nan_true in E. rewrite !ltb_spec, E. reflexivity.
Qed.

(* ================================================================== *)
(** * More facts about binary64 numbers: zeros, signs, NaN *)

Lemma is_zero_Prim2SF (x : float) :
  is_zero x = true -> exists s, Prim2SF x = S754_zero s.
Proof.
  unfold is_zero. rewrite eqb_spec. change (Prim2SF zero) with (S754_zero false).
  destruct (Prim2SF x) as [s | s | | s m e]; try discriminate; eauto.
  - destruct s; discriminate.
  - destruct s; discriminate.
Qed.

Lemma mul_zero_zero (x y : float) :
  is_zero x = true -> is_zero y = true -> is_zero (x * y) = true.
Proof.
  intros Hx Hy.
  destruct (is_zero_Prim2SF x Hx) as [sx Ex].
  destruct (is_zero_Prim2SF y Hy) as [sy Ey].
  unfold is_zero. rewrite eqb_spec, mul_spec, Ex, Ey. reflexivity.
Qed.

Lemma square_zero (x : float) : is_zero x = true -> (x * x)%float = zero.
Proof.
  intro Hx. destruct (is_zero_Prim2SF x Hx) as [s Ex].
  apply Prim2SF_inj. rewrite mul_spec, Ex. destruct s; reflexivity.
Qed.

Lemma add_zero_zero : (zero + zero)%float = zero.
Proof. reflexivity. Qed.

Lemma digits2_pos_mono (m m' : positive) :
  (m <= m')%positive -> Z.pos (digits2_pos m) <= Z.pos (digits2_pos m').
Proof.
  intro Hle.
  assert (H1 := digits2_pos_bounds m). assert (H2 := digits2_pos_bounds m').
  destruct (Z.le_gt_cases (Z.pos (digits2_pos m)) (Z.pos (digits2_pos m')))
    as [? | Hgt]; [assumption | exfalso].
  assert (2 ^ Z.pos (digits2_pos m') <= 2 ^ (Z.pos (digits2_pos m) - 1))
    by (apply Z.pow_le_mono_r; lia).
  lia.
Qed.

(** A positive mantissa whose value is at least the smallest positive
    number stays positive when it is brought to its canonical
    exponent. *)
Lemma shr_fexp_pos_gen (m e : Z) (l : location) :
  0 < m -> SpecFloat.emin prec emax < Zdigits2 m + e ->
  0 < shr_m (fst (shr_fexp prec emax m e l))
  /\ e <= snd (shr_fexp prec emax m e l)
  /\ (snd (shr_fexp prec emax m e l) = e
      /\ shr_m (fst (shr_fexp prec emax m e l)) = m
      \/ SpecFloat.emin prec emax <= snd (shr_fexp prec emax m e l)).
Proof.
  intros Hm He. unfold shr_fexp, shr.
  destruct m as [| p | p]; try lia. cbn [Zdigits2] in *.
  assert (Hd := digits2_pos_bounds p).
  set (d := Z.pos (digits2_pos p)) in *.
  destruct (fexp prec emax (d + e) - e) as [| q | q] eqn:Hn; cbn [fst snd];
    rewrite ?shr_record_of_loc_m; try (repeat split; try lia; left; split; reflexivity).
  rewrite iter_pos_shr_m by (rewrite shr_record_of_loc_m; lia).
  rewrite shr_record_of_loc_m.
  unfold fexp, SpecFloat.emin, prec, emax in *.
  split; [| split; [lia | right; lia]].
  apply Z.div_str_pos. split; [apply Z.pow_pos_nonneg; lia |].
  apply Z.le_trans with (2 ^ (d - 1)); [| lia].
  apply Z.pow_le_mono_r; lia.
Qed.

Lemma binary_round_aux_pos_gen (m e : Z) (l : location) :
  0 < m -> SpecFloat.emin prec emax < Zdigits2 m + e ->
  (exists mr er,
      binary_round_aux prec emax false m e l = S754_finite false mr er
      /\ e <= er)
  \/ binary_round_aux prec emax false m e l = S754_infinity false.
Proof.
  intros Hm He. unfold binary_round_aux.
  destruct (shr_fexp_pos_gen m e l Hm He) as (H1 & H1e & H1c).
  destruct (shr_fexp prec emax m e l) as [mrs' e'] eqn:E1. cbn [fst snd] in *.
  assert (H2 := round_nearest_even_pos (shr_m mrs') (loc_of_shr_record mrs') H1).
  set (m2 := round_nearest_even (shr_m mrs') (loc_of_shr_record mrs')) in *.
  assert (Hm2 : shr_m mrs' <= m2).
  { subst m2. unfold round_nearest_even.
    destruct (loc_of_shr_record mrs') as [| []]; try lia.
    destruct (Z.even (shr_m mrs')); lia. }
  assert (He2 : SpecFloat.emin prec emax < Zdigits2 m2 + e').
  { destruct m2 as [| p2 | p2] eqn:Em2; try lia. cbn [Zdigits2].
    destruct H1c as [[-> Hm'] | Hge]; [| lia].
    rewrite Hm' in *. destruct m as [| p | p]; try lia. cbn [Zdigits2] in He.
    assert (Hmono := digits2_pos_mono p p2 ltac:(lia)). lia. }
  destruct (shr_fexp_pos_gen m2 e' loc_Exact H2 He2) as (H3 & H3e & _).
  destruct (shr_fexp prec emax m2 e' loc_Exact) as [mrs'' e''] eqn:E2.
  cbn [fst snd] in *.
  destruct (shr_m mrs'') as [| p | p]; try lia.
  destruct (e'' <=? emax - prec); [left | right; reflexivity].
  exists p, e''. split; [reflexivity | lia].
Qed.

Lemma shr_fexp_nonneg (m e : Z) (l : location) :
  0 <= m -> 0 <= shr_m (fst (shr_fexp prec emax m e l)).
Proof.
  intro Hm. unfold shr_fexp, shr.
  destruct (fexp prec emax (Zdigits2 m + e) - e) as [| q | q]; cbn [fst];
    rewrite ?iter_pos_shr_m by (rewrite shr_record_of_loc_m; lia);
    rewrite shr_record_of_loc_m; try lia.
  apply Z.div_pos; [lia | apply Z.pow_pos_nonneg; lia].
Qed.

Lemma binary_round_aux_not_nan (s : bool) (m e : Z) (l : location) :
  0 <= m -> binary_round_aux prec emax s m e l <> S754_nan.
Proof.
  intro Hm. unfold binary_round_aux.
  assert (H1 := shr_fexp_nonneg m e l Hm).
  destruct (shr_fexp prec emax m e l) as [mrs' e']. cbn [fst] in H1.
  assert (H2 : 0 <= round_nearest_even (shr_m mrs') (loc_of_shr_record mrs')).
  { unfold round_nearest_even.
    destruct (loc_of_shr_record mrs') as [| []]; try lia.
    destruct (Z.even (shr_m mrs')); lia. }
  assert (H3 := shr_fexp_nonneg _ e' loc_Exact H2).
  destruct (shr_fexp prec emax _ e' loc_Exact) as [mrs'' e'']. cbn [fst] in H3.
  destruct (shr_m mrs'') as [| p | p]; try lia; try discriminate.
  destruct (e'' <=? emax - prec); discriminate.
Qed.

(** ** Square roots, products and quotients that are not NaN *)

Lemma binary_round_aux_false_nonneg (m e : Z) (l : location) :
  nonneg_sf (binary_round_aux prec emax false m e l).
Proof.
  unfold binary_round_aux.
  destruct (shr_fexp prec emax m e l) as [mrs' e'].
  destruct (shr_fexp prec emax _ e' loc_Exact) as [mrs'' e''].
  destruct (shr_m mrs''); try exact I.
  destruct (e'' <=? emax - prec); exact I.
Qed.

Lemma SFmul_self_nonneg (a : spec_float) : nonneg_sf (SFmul prec emax a a).
Proof.
  destruct a as [s | s | | s m e]; cbn [SFmul]; try exact I.
  - destruct s; exact I.
  - replace (xorb s s) with false by (destruct s; reflexivity).
    apply binary_round_aux_false_nonneg.
Qed.

Lemma SFadd_nonneg (a b : spec_float) :
  nonneg_sf a -> nonneg_sf b -> nonneg_sf (SFadd prec emax a b).
Proof.
  destruct a as [sa | sa | | sa ma ea]; destruct b as [sb | sb | | sb mb eb];
    cbn [SFadd nonneg_sf]; try (destruct sa); try (destruct sb);
    try contradiction; try (intros; exact I).
  intros _ _. cbn [cond_Zopp]. unfold binary_normalize, binary_round.
  match goal with
  | |- context [Z.pos ?a + Z.pos ?b] => change (Z.pos a + Z.pos b) with (Z.pos (a + b))
  end.
  cbv beta iota.
  destruct (shl_align _ _ _) as [mz ez].
  apply binary_round_aux_false_nonneg.
Qed.

Lemma sqrtrem_pos (n : Z) : 0 < n -> 0 < fst (Z.sqrtrem n).
Proof.
  intro Hn. assert (H := Z.sqrtrem_spec n ltac:(lia)).
  destruct (Z.sqrtrem n) as [s r]. cbn [fst]. nia.
Qed.

Lemma SFsqrt_positive (m : positive) (e : Z) :
  valid_binary (S754_finite false m e) = true ->
  (exists mr er,
      SFsqrt prec emax (S754_finite false m e) = S754_finite false mr er
      /\ -589 <= er)
  \/ SFsqrt prec emax (S754_finite false m e) = S754_infinity false.
Proof.
  intro Hv. destruct (valid_finite _ _ _ Hv) as [Hc He].
  cbn [SFsqrt]. unfold SFsqrt_core_binary. cbn [Zdigits2].
  assert (Hd : 1 <= Z.pos (digits2_pos m)) by lia.
  set (d := Z.pos (digits2_pos m)) in *.
  set (e' := Z.min (fexp prec emax (Z.div2 (d + e + 1))) (Z.div2 e)).
  assert (He' : -589 <= e' /\ 2 * e' <= e).
  { subst e'. unfold fexp, SpecFloat.emin, prec, emax.
    rewrite !Z.div2_div.
    assert (H1 := Z.div_mod e 2 ltac:(lia)).
    assert (H2 := Z.mod_pos_bound e 2 ltac:(lia)).
    assert (H3 := Z.div_mod (d + e + 1) 2 ltac:(lia)).
    assert (H4 := Z.mod_pos_bound (d + e + 1) 2 ltac:(lia)).
    lia. }
  set (s := e - 2 * e').
  assert (Hs : 0 <= s) by (subst s; lia).
  set (m' := match s with
             | 0 => Z.pos m
             | Z.pos _ => Z.shiftl (Z.pos m) s
             | Z.neg _ => 0
             end).
  assert (Hm' : 0 < m').
  { subst m'. destruct s as [| p | p] eqn:Es; try lia.
    rewrite Z.shiftl_mul_pow2 by lia.
    apply Z.mul_pos_pos; [lia | apply Z.pow_pos_nonneg; lia]. }
  assert (Hq := sqrtrem_pos m' Hm').
  destruct (Z.sqrtrem m') as [q r]. cbn [fst] in Hq.
  set (l := if r =? 0 then loc_Exact
            else loc_Inexact (if r <=? q then Lt else Gt)).
  destruct (binary_round_aux_pos_gen q e' l Hq) as [(mr & er & Hr & Her) | Hr].
  - destruct q as [| pq | pq]; try lia. cbn [Zdigits2].
    unfold SpecFloat.emin, prec, emax. lia.
  - left. exists mr, er. split; [exact Hr | lia].
  - right. exact Hr.
Qed.

Lemma digits2_pos_ge (m : positive) (k : Z) :
  2 ^ k <= Z.pos m -> 0 <= k -> k < Z.pos (digits2_pos m).
Proof.
  intros Hm Hk. assert (H := digits2_pos_bounds m).
  destruct (Z.lt_ge_cases k (Z.pos (digits2_pos m))) as [? | Hge];
    [assumption | exfalso].
  assert (2 ^ Z.pos (digits2_pos m) <= 2 ^ k) by (apply Z.pow_le_mono_r; lia).
  lia.
Qed.

(** The product of two square roots of positive numbers (finite or
    infinite) is positive: it neither underflows to zero nor is NaN. *)
Lemma sqrt_mul_sqrt_positive (x y : float) :
  positive_result (Prim2SF x) -> positive_result (Prim2SF y) ->
  positive_result (Prim2SF (sqrt x * sqrt y)).
Proof.
  intros Hx Hy.
  assert (Vx := Prim2SF_valid x). assert (Vy := Prim2SF_valid y).
  assert (Vsx := Prim2SF_valid (sqrt x)). assert (Vsy := Prim2SF_valid (sqrt y)).
  rewrite mul_spec.
  rewrite (sqrt_spec x) in *. rewrite (sqrt_spec y) in *.
  unfold SF64sqrt in *.
  assert (Sx : (exists m e, SFsqrt prec emax (Prim2SF x) = S754_finite false m e
                            /\ -589 <= e)
               \/ SFsqrt prec emax (Prim2SF x) = S754_infinity false).
  { destruct Hx as [[mx [ex Hx]] | Hx]; rewrite Hx in *;
      [apply SFsqrt_positive; exact Vx | right; reflexivity]. }
  assert (Sy : (exists m e, SFsqrt prec emax (Prim2SF y) = S754_finite false m e
                            /\ -589 <= e)
               \/ SFsqrt prec emax (Prim2SF y) = S754_infinity false).
  { destruct Hy as [[my [ey Hy]] | Hy]; rewrite Hy in *;
      [apply SFsqrt_positive; exact Vy | right; reflexivity]. }
  destruct Sx as [(m1 & e1 & H1 & He1) | H1];
    destruct Sy as [(m2 & e2 & H2 & He2) | H2];
    rewrite H1 in *; rewrite H2 in *; try (right; reflexivity).
  destruct (valid_finite _ _ _ Vsx) as [Hc1 _].
  destruct (valid_finite _ _ _ Vsy) as [Hc2 _].
  assert (D1 := digits2_pos_bounds m1). assert (D2 := digits2_pos_bounds m2).
  assert (Hd1 : Z.pos (digits2_pos m1) = 53) by lia.
  assert (Hd2 : Z.pos (digits2_pos m2) = 53) by lia.
  rewrite Hd1 in D1. rewrite Hd2 in D2.
  change (2 ^ (53 - 1)) with 4503599627370496 in D1, D2.
  unfold SF64mul. cbn [SFmul xorb].
  destruct (binary_round_aux_pos_gen (Z.pos (m1 * m2)) (e1 + e2) loc_Exact)
    as [(mr & er & Hr & _) | Hr]; try lia.
  - cbn [Zdigits2].
    assert (Hk := digits2_pos_ge (m1 * m2) 104).
    change (2 ^ 104) with (4503599627370496 * 4503599627370496) in Hk.
    rewrite Pos2Z.inj_mul in Hk.
    unfold SpecFloat.emin, prec, emax.
    assert (104 < Z.pos (digits2_pos (m1 * m2))) by (apply Hk; nia).
    lia.
  - left. eauto.
  - right. exact Hr.
Qed.

Lemma SFdiv_not_nan (a b : spec_float) :
  (exists s, a = S754_zero s) \/ (exists s m e, a = S754_finite s m e) ->
  positive_result b ->
  SF64div a b <> S754_nan.
Proof.
  intros Ha Hb. unfold SF64div.
  destruct Ha as [[s ->] | [s [m [e ->]]]];
    destruct Hb as [[mb [eb ->]] | ->]; cbn [SFdiv]; try discriminate.
  unfold SFdiv_core_binary.
  set (e' := Z.min _ _). set (sh := e - eb - e').
  set (m' := match sh with
             | 0 => Z.pos m
             | Z.pos _ => Z.shiftl (Z.pos m) sh
             | Z.neg _ => 0
             end).
  assert (Hm' : 0 <= m').
  { subst m'. destruct sh as [| p | p]; try lia.
    rewrite Z.shiftl_mul_pow2 by lia.
    apply Z.mul_nonneg_nonneg; [lia | apply Z.pow_nonneg; lia]. }
  assert (Hq : 0 <= fst (Z.div_eucl m' (Z.pos mb))).
  { change (fst (Z.div_eucl m' (Z.pos mb))) with (m' / Z.pos mb).
    apply Z.div_pos; lia. }
  destruct (Z.div_eucl m' (Z.pos mb)) as [q r]. cbn [fst] in Hq.
  apply binary_round_aux_not_nan. exact Hq.
Qed.

Lemma Prim2SF_infinity : Prim2SF infinity = S754_infinity false.
Proof. reflexivity. Qed.

Lemma is_finite_Prim2SF (x : float) :
  is_finite x = true ->
  (exists s, Prim2SF x = S754_zero s)
  \/ (exists s m e, Prim2SF x = S754_finite s m e).
Proof.
  unfold is_finite, is_nan, is_infinity.
  rewrite !eqb_spec, abs_spec, Prim2SF_infinity.
  destruct (Prim2SF x) as [s | s | | s m e]; eauto.
  - destruct s; discriminate.
  - discriminate.
Qed.

(* ================================================================== *)
(** * Rounding error of binary64 operations *)

(** ** Rounding error *)

Lemma F_pos (e : Z) : (0 < F e)%R.
Proof. apply powerRZ_lt. lra. Qed.

Lemma F_add (a b : Z) : F (a + b) = (F a * F b)%R.
Proof. apply powerRZ_add. lra. Qed.

Lemma F_succ (e : Z) : F (e + 1) = (2 * F e)%R.
Proof. rewrite F_add. unfold F at 2. simpl. lra. Qed.

Lemma F_le (a b : Z) : a <= b -> (F a <= F b)%R.
Proof.
  intro H. replace b with (a + (b - a)) by lia. rewrite F_add.
  assert (Ha := F_pos a).
  assert (1 <= F (b - a))%R.
  { unfold F. destruct (b - a) as [| p | p] eqn:E; try lia; simpl; [lra |].
    apply pow_R1_Rle. lra. }
  nra.
Qed.

Lemma shr_1_represents (rec : shr_record) (e : Z) (X : R) :
  0 <= shr_m rec -> represents rec e X -> represents (shr_1 rec) (e + 1) X.
Proof.
  intros Hm [delta [HX Hl]]. destruct rec as [m r s]. cbn [shr_m shr_r shr_s] in *.
  unfold represents. rewrite F_succ.
  destruct m as [| [p | p |] | p]; try lia; cbn [shr_1].
  - exists (delta / 2)%R. cbn [shr_m shr_r shr_s].
    rewrite HX. split; [lra |]. destruct r, s; cbn [orb loc_ok] in *; lra.
  - exists ((1 + delta) / 2)%R. cbn [shr_m shr_r shr_s].
    rewrite HX. rewrite (Pos2Z.inj_xI p), plus_IZR, mult_IZR.
    split; [lra |]. destruct r, s; cbn [orb loc_ok] in *; lra.
  - exists (delta / 2)%R. cbn [shr_m shr_r shr_s].
    rewrite HX. rewrite (Pos2Z.inj_xO p), mult_IZR.
    split; [lra |]. destruct r, s; cbn [orb loc_ok] in *; lra.
  - exists ((1 + delta) / 2)%R. cbn [shr_m shr_r shr_s].
    rewrite HX. split; [lra |]. destruct r, s; cbn [orb loc_ok] in *; lra.
Qed.

Lemma shr_1_nonneg (rec : shr_record) : 0 <= shr_m rec -> 0 <= shr_m (shr_1 rec).
Proof. intro H. rewrite shr_1_m by exact H. apply Z.div_pos; lia. Qed.

Lemma iter_pos_represents (p : positive) :
  forall (rec : shr_record) (e : Z) (X : R),
    0 <= shr_m rec -> represents rec e X ->
    represents (SpecFloat.iter_pos shr_1 p rec) (e + Z.pos p) X
    /\ 0 <= shr_m (SpecFloat.iter_pos shr_1 p rec).
Proof.
  induction p as [p IH | p IH |]; intros rec e X Hm HX; cbn [SpecFloat.iter_pos].
  - destruct (IH _ _ _ (shr_1_nonneg _ Hm) (shr_1_represents _ _ _ Hm HX))
      as [H1 H1m].
    destruct (IH _ _ _ H1m H1) as [H2 H2m].
    split; [| exact H2m].
    replace (e + Z.pos p~1) with (e + 1 + Z.pos p + Z.pos p) by lia. exact H2.
  - destruct (IH _ _ _ Hm HX) as [H1 H1m].
    destruct (IH _ _ _ H1m H1) as [H2 H2m].
    split; [| exact H2m].
    replace (e + Z.pos p~0) with (e + Z.pos p + Z.pos p) by lia. exact H2.
  - split; [apply shr_1_represents; assumption | apply shr_1_nonneg; assumption].
Qed.

Lemma digits2_pos_le (m : positive) (k : Z) :
  Z.pos m < 2 ^ k -> 0 <= k -> Z.pos (digits2_pos m) <= k.
Proof.
  intros Hm Hk. assert (H := digits2_pos_bounds m).
  destruct (Z.le_gt_cases (Z.pos (digits2_pos m)) k) as [? | Hgt];
    [assumption | exfalso].
  assert (2 ^ k <= 2 ^ (Z.pos (digits2_pos m) - 1))
    by (apply Z.pow_le_mono_r; lia).
  lia.
Qed.

Lemma shr_record_of_loc_represents_exact (m e : Z) :
  represents (shr_record_of_loc m loc_Exact) e (IZR m * F e)%R.
Proof. exists 0%R. cbn. split; [lra | reflexivity]. Qed.

(** The first step of [binary_round_aux]: the mantissa brought to its
    canonical exponent still stands for the same value, and has at most
    53 bits. *)
Lemma shr_fexp_represents (m e : Z) (l : location) (X : R) :
  0 < m -> SpecFloat.emin prec emax <= e ->
  represents (shr_record_of_loc m l) e X ->
  let rec1 := fst (shr_fexp prec emax m e l) in
  let e1 := snd (shr_fexp prec emax m e l) in
  represents rec1 e1 X
  /\ 0 < shr_m rec1 < 2 ^ 53
  /\ e1 = Z.max e (Zdigits2 m + e - 53).
Proof.
  intros Hm He HX. unfold shr_fexp, shr.
  destruct m as [| p | p]; try lia. cbn [Zdigits2].
  assert (Hd := digits2_pos_bounds p).
  set (d := Z.pos (digits2_pos p)) in *.
  assert (Hd1 : 1 <= d) by (subst d; lia).
  destruct (fexp prec emax (d + e) - e) as [| q | q] eqn:Hn; cbn [fst snd];
    unfold fexp, SpecFloat.emin, prec, emax in *.
  - rewrite shr_record_of_loc_m. split; [exact HX |].
    assert (d <= 53) by lia.
    split; [| lia]. split; [lia |].
    apply Z.lt_le_trans with (2 ^ d); [lia | apply Z.pow_le_mono_r; lia].
  - assert (Hq : Z.pos q = d - 53) by lia.
    destruct (iter_pos_represents q (shr_record_of_loc (Z.pos p) l) e X)
      as [HR HRm]; [rewrite shr_record_of_loc_m; lia | exact HX |].
    split; [exact HR |].
    rewrite iter_pos_shr_m by (rewrite shr_record_of_loc_m; lia).
    rewrite shr_record_of_loc_m.
    split; [| lia]. split.
    + apply Z.div_str_pos. split; [apply Z.pow_pos_nonneg; lia |].
      apply Z.le_trans with (2 ^ (d - 1)); [| lia].
      apply Z.pow_le_mono_r; lia.
    + apply Z.div_lt_upper_bound; [apply Z.pow_pos_nonneg; lia |].
      rewrite <- Z.pow_add_r by lia.
      replace (Z.pos q + 53) with d by lia. lia.
  - rewrite shr_record_of_loc_m. split; [exact HX |].
    assert (d <= 53) by lia.
    split; [| lia]. split; [lia |].
    apply Z.lt_le_trans with (2 ^ d); [lia | apply Z.pow_le_mono_r; lia].
Qed.

Lemma round_nearest_even_error (rec : shr_record) (e : Z) (X : R) :
  represents rec e X ->
  let m2 := round_nearest_even (shr_m rec) (loc_of_shr_record rec) in
  (Rabs (IZR m2 * F e - X) <= F e / 2)%R
  /\ shr_m rec <= m2 <= shr_m rec + 1.
Proof.
  intros [delta [HX Hl]]. destruct rec as [m r s]. cbn [shr_m shr_r shr_s] in *.
  assert (HF := F_pos e).
  unfold round_nearest_even, loc_of_shr_record.
  destruct r, s; cbn [loc_ok] in Hl.
  - split; [| lia]. rewrite plus_IZR, HX.
    replace ((IZR m + 1) * F e - (IZR m + delta) * F e)%R
      with ((1 - delta) * F e)%R by ring.
    rewrite Rabs_right by nra. nra.
  - destruct (Z.even m).
    + split; [| lia]. rewrite HX.
      replace (IZR m * F e - (IZR m + delta) * F e)%R
        with (- (delta * F e))%R by ring.
      rewrite Rabs_Ropp, Rabs_right by nra. nra.
    + split; [| lia]. rewrite plus_IZR, HX.
      replace ((IZR m + 1) * F e - (IZR m + delta) * F e)%R
        with ((1 - delta) * F e)%R by ring.
      rewrite Rabs_right by nra. nra.
  - split; [| lia]. rewrite HX.
    replace (IZR m * F e - (IZR m + delta) * F e)%R
      with (- (delta * F e))%R by ring.
    rewrite Rabs_Ropp, Rabs_right by nra. nra.
  - split; [| lia]. rewrite HX, Hl.
    replace (IZR m * F e - (IZR m + 0) * F e)%R with 0%R by ring.
    rewrite Rabs_R0. lra.
Qed.

(** The second step: a rounded mantissa of at most 53 bits, or [2^53],
    keeps its value when brought to its canonical exponent. *)
Lemma shr_fexp_exact (m e : Z) :
  0 < m <= 2 ^ 53 -> SpecFloat.emin prec emax <= e ->
  exists M E,
    shr_m (fst (shr_fexp prec emax m e loc_Exact)) = Z.pos M
    /\ snd (shr_fexp prec emax m e loc_Exact) = E
    /\ e <= E <= e + 1
    /\ (IZR (Z.pos M) * F E = IZR m * F e)%R.
Proof.
  intros Hm He.
  destruct (Z.eq_dec m (2 ^ 53)) as [-> | Hne].
  - unfold shr_fexp, shr.
    assert (Hd : Zdigits2 (2 ^ 53) = 54) by reflexivity. rewrite Hd.
    replace (fexp prec emax (54 + e) - e) with 1
      by (unfold fexp, SpecFloat.emin, prec, emax in *; lia).
    cbn [SpecFloat.iter_pos fst snd].
    exists (Z.to_pos (2 ^ 52)), (e + 1).
    split; [reflexivity |]. split; [reflexivity |]. split; [lia |].
    rewrite F_succ. change (Z.pos (Z.to_pos (2 ^ 52))) with (2 ^ 52).
    replace (2 ^ 53) with (2 * 2 ^ 52) by reflexivity.
    rewrite mult_IZR. ring.
  - destruct m as [| p | p]; try lia.
    assert (Hd := digits2_pos_le p 53 ltac:(lia) ltac:(lia)).
    unfold shr_fexp, shr. cbn [Zdigits2].
    destruct (fexp prec emax (Z.pos (digits2_pos p) + e) - e) as [| q | q] eqn:Hn;
      unfold fexp, SpecFloat.emin, prec, emax in *; try lia;
      cbn [fst snd shr_record_of_loc shr_m];
      exists p, e; repeat split; lia.
Qed.

Lemma binary_round_aux_error (m e : Z) (l : location) (X : R) :
  0 < m -> SpecFloat.emin prec emax <= e -> e <= 900 -> Zdigits2 m + e <= 900 ->
  represents (shr_record_of_loc m l) e X ->
  exists M E,
    binary_round_aux prec emax false m e l = S754_finite false M E
    /\ (Rabs (IZR (Z.pos M) * F E - X)
        <= F (Z.max e (Zdigits2 m + e - 53)) / 2)%R
    /\ e <= E.
Proof.
  intros Hm He Hub Hdub HX. unfold binary_round_aux.
  destruct (shr_fexp_represents m e l X Hm He HX) as (H1 & H1m & H1e).
  destruct (shr_fexp prec emax m e l) as [rec1 e1]. cbn [fst snd] in *.
  destruct (round_nearest_even_error rec1 e1 X H1) as [Herr Hm2].
  set (m2 := round_nearest_even (shr_m rec1) (loc_of_shr_record rec1)) in *.
  destruct (shr_fexp_exact m2 e1) as (M & E & HM & HE & HEr & Hval);
    [lia | lia |].
  destruct (shr_fexp prec emax m2 e1 loc_Exact) as [rec2 e2]. cbn [fst snd] in *.
  rewrite HM. subst e2.
  destruct (Z.leb_spec E (emax - prec)) as [_ | Hbad];
    [| unfold emax, prec in Hbad; lia].
  exists M, E. split; [reflexivity |].
  split; [| lia].
  rewrite Hval, <- H1e. exact Herr.
Qed.

(** ** Integers as numbers *)

Lemma digits2_pos_unique (m : positive) (k : Z) :
  2 ^ (k - 1) <= Z.pos m < 2 ^ k -> 1 <= k -> Z.pos (digits2_pos m) = k.
Proof.
  intros [H1 H2] Hk.
  assert (Hle := digits2_pos_le m k H2 ltac:(lia)).
  assert (Hge := digits2_pos_ge m (k - 1) H1 ltac:(lia)).
  lia.
Qed.

Lemma shr_fexp_small (m e : Z) :
  0 < m < 2 ^ 53 -> SpecFloat.emin prec emax <= e ->
  shr_fexp prec emax m e loc_Exact = (shr_record_of_loc m loc_Exact, e).
Proof.
  intros Hm He. destruct m as [| p | p]; try lia.
  assert (Hd := digits2_pos_le p 53 ltac:(lia) ltac:(lia)).
  unfold shr_fexp, shr. cbn [Zdigits2].
  destruct (fexp prec emax (Z.pos (digits2_pos p) + e) - e) as [| q | q] eqn:Hn;
    unfold fexp, SpecFloat.emin, prec, emax in *; try lia; reflexivity.
Qed.

Lemma binary_round_aux_exact (m : positive) (e : Z) :
  Z.pos m < 2 ^ 53 -> SpecFloat.emin prec emax <= e -> e <= 900 ->
  binary_round_aux prec emax false (Z.pos m) e loc_Exact = S754_finite false m e.
Proof.
  intros Hm He Hub. unfold binary_round_aux.
  rewrite shr_fexp_small by (try lia; assumption).
  cbn [shr_record_of_loc shr_m loc_of_shr_record round_nearest_even].
  rewrite shr_fexp_small by (try lia; assumption).
  cbn [shr_record_of_loc shr_m].
  destruct (Z.leb_spec e (emax - prec)) as [_ | Hbad];
    [reflexivity | unfold emax, prec in Hbad; lia].
Qed.

(** A positive integer below [2^53] is a number, exactly. *)
Lemma of_Z_exact (n : positive) :
  Z.pos n < 2 ^ 53 ->
  exists M E,
    Prim2SF (JSNumber.of_Z (Z.pos n)) = S754_finite false M E
    /\ Z.pos (digits2_pos M) = 53
    /\ E = Z.pos (digits2_pos n) - 53
    /\ (IZR (Z.pos M) * F E = IZR (Z.pos n))%R.
Proof.
  intro Hn. unfold JSNumber.of_Z. cbn [binary_normalize]. unfold binary_round.
  assert (Hd := digits2_pos_bounds n).
  assert (Hd53 := digits2_pos_le n 53 Hn ltac:(lia)).
  set (d := Z.pos (digits2_pos n)) in *.
  assert (Hd1 : 1 <= d) by (subst d; lia).
  replace (fexp prec emax (d + 0)) with (d - 53)
    by (unfold fexp, SpecFloat.emin, prec, emax; lia).
  destruct (shl_align_le n 0 (d - 53) ltac:(lia)) as [Heq Hval].
  rewrite Heq.
  set (mz := fst (shl_align n 0 (d - 53))) in *.
  replace (0 - (d - 53)) with (53 - d) in Hval by lia.
  assert (Hmz : 2 ^ 52 <= Z.pos mz < 2 ^ 53).
  { rewrite Hval. split.
    - replace 52 with ((d - 1) + (53 - d)) by lia.
      rewrite Z.pow_add_r by lia.
      apply Z.mul_le_mono_nonneg_r; [apply Z.pow_nonneg; lia | lia].
    - replace 53 with (d + (53 - d)) at 2 by lia.
      rewrite Z.pow_add_r by lia.
      apply Z.mul_lt_mono_pos_r; [apply Z.pow_pos_nonneg; lia | lia]. }
  rewrite binary_round_aux_exact
    by (unfold SpecFloat.emin, prec, emax; lia).
  assert (Hdz : Z.pos (digits2_pos mz) = 53)
    by (apply digits2_pos_unique; [exact Hmz | lia]).
  exists mz, (d - 53).
  split.
  - apply Prim2SF_SF2Prim. cbn [SpecFloat.valid_binary].
    unfold SpecFloat.bounded, SpecFloat.canonical_mantissa. rewrite Hdz.
    unfold fexp, SpecFloat.emin, prec, emax.
    apply andb_true_iff. split; [apply Z.eqb_eq | apply Z.leb_le]; lia.
  - split; [exact Hdz |]. split; [reflexivity |].
    rewrite Hval, mult_IZR.
    assert (HF : (IZR (2 ^ (53 - d)) * F (d - 53) = 1)%R).
    { replace 1%R with (F ((53 - d) + (d - 53))) by (replace (53 - d + (d - 53)) with 0 by lia; reflexivity).
      rewrite F_add. f_equal.
      destruct (53 - d) as [| q | q] eqn:Eq; try lia; [reflexivity |].
      unfold F. change (2 ^ Z.pos q) with (Z.pow_pos 2 q).
      apply Zpower_pos_powerRZ. }
    rewrite Rmult_assoc, HF. ring.
Qed.

(** ** Quotients and products *)

Lemma new_location_represents (q my r e : Z) :
  0 < my -> 0 <= r < my ->
  represents (shr_record_of_loc q (new_location my r)) e
             ((IZR q + IZR r / IZR my) * F e)%R.
Proof.
  intros Hmy Hr. exists (IZR r / IZR my)%R.
  split; [rewrite shr_record_of_loc_m; reflexivity |].
  assert (HRmy : (0 < IZR my)%R) by (apply IZR_lt; exact Hmy).
  assert (Hdiv : forall a b : R, (0 < b)%R -> (a / b * b = a)%R)
    by (intros; field; lra).
  assert (Hr0 : r = 0 -> (IZR r / IZR my = 0)%R)
    by (intros ->; unfold Rdiv; lra).
  assert (Hlt : 2 * r < my -> 0 < r -> (0 < IZR r / IZR my < 1 / 2)%R).
  { intros H1 H2. apply IZR_lt in H1, H2. rewrite mult_IZR in H1.
    split.
    - apply Rdiv_lt_0_compat; lra.
    - apply Rmult_lt_reg_r with (IZR my); [lra |]. rewrite Hdiv by lra. lra. }
  assert (Heq : 2 * r = my -> (IZR r / IZR my = 1 / 2)%R).
  { intros H1. rewrite <- H1, mult_IZR. field.
    intro H0. apply eq_IZR in H0. lia. }
  assert (Hgt : my < 2 * r -> (1 / 2 < IZR r / IZR my < 1)%R).
  { intros H1. apply IZR_lt in H1. rewrite mult_IZR in H1.
    assert (H2 : (IZR r < IZR my)%R) by (apply IZR_lt; lia).
    split; apply Rmult_lt_reg_r with (IZR my); try lra; rewrite Hdiv by lra; lra. }
  unfold new_location, new_location_even, new_location_odd.
  destruct (Z.even my) eqn:Hev; destruct (Z.eqb_spec r 0) as [H0 | H0];
    try (cbn; apply Hr0; exact H0).
  - destruct (Z.compare_spec (2 * r) my); cbn;
      [apply Heq | apply Hlt | apply Hgt]; lia.
  - assert (Hodd : 2 * r <> my).
    { intro Hc. rewrite <- Hc, Z.even_mul in Hev. discriminate. }
    destruct (Z.compare_spec (2 * r + 1) my); cbn;
      [apply Hlt | apply Hlt | apply Hgt]; lia.
Qed.

Lemma div_error (x y : float) (mx my : positive) (ex ey : Z) :
  Prim2SF x = S754_finite false mx ex ->
  Prim2SF y = S754_finite false my ey ->
  Z.pos (digits2_pos mx) = 53 -> Z.pos (digits2_pos my) = 53 ->
  -100 <= ex <= 100 -> -100 <= ey <= 100 ->
  exists M E,
    Prim2SF (x / y) = S754_finite false M E
    /\ (Rabs (IZR (Z.pos M) * F E
              - (IZR (Z.pos mx) * F ex) / (IZR (Z.pos my) * F ey))
        <= F (ex - ey - 53))%R
    /\ ex - ey - 53 <= E.
Proof.
  intros Hx Hy Dx Dy Bx By.
  rewrite div_spec, Hx, Hy. unfold SF64div. cbn [SFdiv xorb].
  unfold SFdiv_core_binary. cbn [Zdigits2]. rewrite Dx, Dy.
  replace (Z.min (fexp prec emax (53 + ex - (53 + ey))) (ex - ey))
    with (ex - ey - 53)
    by (unfold fexp, SpecFloat.emin, prec, emax; lia).
  replace (ex - ey - (ex - ey - 53)) with 53 by lia.
  rewrite Z.shiftl_mul_pow2 by lia.
  assert (Bmx := digits2_pos_bounds mx). assert (Bmy := digits2_pos_bounds my).
  rewrite Dx in Bmx. rewrite Dy in Bmy.
  change (2 ^ (53 - 1)) with 4503599627370496 in *.
  change (2 ^ 53) with 9007199254740992 in *.
  assert (Hdm := Z_div_mod (Z.pos mx * 9007199254740992) (Z.pos my) ltac:(lia)).
  destruct (Z.div_eucl (Z.pos mx * 9007199254740992) (Z.pos my)) as [q r].
  destruct Hdm as [Hdm Hr].
  assert (Hq : 0 < q < 2 ^ 54).
  { change (2 ^ 54) with 18014398509481984. nia. }
  set (e' := ex - ey - 53).
  set (X := (IZR (Z.pos mx) * F ex / (IZR (Z.pos my) * F ey))%R).
  assert (HX : X = ((IZR q + IZR r / IZR (Z.pos my)) * F e')%R).
  { subst X e'. 
    replace (ex - ey - 53) with (ex + (- ey) + (- 53)) by lia.
    rewrite !F_add.
    assert (HFey : (F ey * F (- ey) = 1)%R).
    { rewrite <- F_add. replace (ey + - ey) with 0 by lia. reflexivity. }
    assert (HF53 : (F (- 53) * 9007199254740992 = 1)%R).
    { unfold F. simpl. lra. }
    assert (Hmy0 : (0 < IZR (Z.pos my))%R) by (apply IZR_lt; lia).
    assert (Hey0 := F_pos ey). assert (Hney0 := F_pos (- ey)).
    assert (HqR : (IZR (Z.pos mx) * 9007199254740992
                   = IZR (Z.pos my) * IZR q + IZR r)%R).
    { assert (Hi : IZR (Z.pos mx * 9007199254740992) = IZR (Z.pos my * q + r))
        by (f_equal; exact Hdm).
      rewrite plus_IZR, !mult_IZR in Hi. exact Hi. }
    assert (Hr' : (IZR r = IZR (Z.pos mx) * 9007199254740992
                          - IZR (Z.pos my) * IZR q)%R) by lra.
    assert (Hb' : (F (- ey) = / F ey)%R)
      by (apply Rmult_eq_reg_l with (F ey); [rewrite HFey; field; lra | lra]).
    assert (Hc' : (F (- 53) = / 9007199254740992)%R)
      by (apply Rmult_eq_reg_r with 9007199254740992%R;
          [rewrite HF53; field | lra]).
    rewrite Hr', Hb', Hc'. field. lra. }
  destruct (binary_round_aux_error q e' (new_location (Z.pos my) r) X)
    as (M & E & HM & Herr & HE).
  - lia.
  - subst e'. unfold SpecFloat.emin, prec, emax. lia.
  - subst e'. lia.
  - destruct q as [| pq | pq]; try lia. cbn [Zdigits2].
    assert (Hdq := digits2_pos_le pq 54 ltac:(lia) ltac:(lia)). subst e'. lia.
  - rewrite HX. apply new_location_represents; lia.
  - exists M, E. split; [exact HM |]. split; [| exact HE].
    eapply Rle_trans; [exact Herr |].
    destruct q as [| pq | pq]; try lia. cbn [Zdigits2].
    assert (Hdq := digits2_pos_le pq 54 ltac:(lia) ltac:(lia)).
    apply Rle_trans with (F (e' + 1) / 2)%R.
    + apply Rmult_le_compat_r; [lra |]. apply F_le. lia.
    + rewrite F_succ. lra.
Qed.

Lemma mul_error (x y : float) (mx my : positive) (ex ey : Z) :
  Prim2SF x = S754_finite false mx ex ->
  Prim2SF y = S754_finite false my ey ->
  Z.pos (digits2_pos mx) = 53 -> Z.pos (digits2_pos my) = 53 ->
  -200 <= ex <= 200 -> -200 <= ey <= 200 ->
  exists M E,
    Prim2SF (x * y) = S754_finite false M E
    /\ (Rabs (IZR (Z.pos M) * F E
              - (IZR (Z.pos mx) * F ex) * (IZR (Z.pos my) * F ey))
        <= F (ex + ey + 52))%R
    /\ ex + ey <= E.
Proof.
  intros Hx Hy Dx Dy Bx By.
  rewrite mul_spec, Hx, Hy. unfold SF64mul. cbn [SFmul xorb].
  assert (Bmx := digits2_pos_bounds mx). assert (Bmy := digits2_pos_bounds my).
  rewrite Dx in Bmx. rewrite Dy in Bmy.
  change (2 ^ (53 - 1)) with 4503599627370496 in *.
  change (2 ^ 53) with 9007199254740992 in *.
  assert (Hd : Z.pos (digits2_pos (mx * my)) <= 106).
  { apply digits2_pos_le; [| lia]. rewrite Pos2Z.inj_mul.
    change (2 ^ 106) with (9007199254740992 * 9007199254740992). nia. }
  set (X := (IZR (Z.pos mx) * F ex * (IZR (Z.pos my) * F ey))%R).
  destruct (binary_round_aux_error (Z.pos (mx * my)) (ex + ey) loc_Exact X)
    as (M & E & HM & Herr & HE).
  - lia.
  - unfold SpecFloat.emin, prec, emax. lia.
  - lia.
  - cbn [Zdigits2]. lia.
  - subst X. rewrite Pos2Z.inj_mul.
    exists 0%R. cbn [shr_record_of_loc shr_m shr_r shr_s loc_ok].
    split; [| reflexivity]. rewrite mult_IZR, F_add. ring.
  - exists M, E. split; [exact HM |]. split; [| exact HE].
    eapply Rle_trans; [exact Herr |]. cbn [Zdigits2].
    apply Rle_trans with (F (ex + ey + 52 + 1) / 2)%R.
    + apply Rmult_le_compat_r; [lra |]. apply F_le. lia.
    + rewrite F_succ. lra.
Qed.

Lemma IZR_pow2 (k : Z) : 0 <= k -> IZR (2 ^ k) = F k.
Proof.
  intro Hk. destruct k as [| p | p]; try lia; [reflexivity |].
  unfold F. change (2 ^ Z.pos p) with (Z.pow_pos 2 p).
  apply Zpower_pos_powerRZ.
Qed.

Lemma F_opp (e : Z) : (F (- e) * F e = 1)%R.
Proof. rewrite <- F_add. replace (- e + e) with 0 by lia. reflexivity. Qed.

(** [JSNumber.round_Z] is [floor (v + 1/2)]. *)
Lemma round_Z_floor (m : positive) (e : Z) :
  e < 0 ->
  (IZR (JSNumber.round_Z false m e) <= IZR (Z.pos m) * F e + 1 / 2
   < IZR (JSNumber.round_Z false m e) + 1)%R.
Proof.
  intro He. unfold JSNumber.round_Z.
  destruct (Z.leb_spec 0 e) as [? | _]; [lia |].
  set (k := - e). assert (Hk : 0 < k) by (subst k; lia).
  set (a := 2 * Z.pos m + 2 ^ k). set (b := 2 ^ (k + 1)).
  assert (Hb : 0 < b) by (subst b; apply Z.pow_pos_nonneg; lia).
  assert (Hdm := Z.div_mod a b ltac:(lia)).
  assert (Hmod := Z.mod_pos_bound a b Hb).
  set (z := a / b) in *.
  assert (HbR : IZR b = (2 * F k)%R).
  { subst b. rewrite IZR_pow2 by lia. apply F_succ. }
  assert (HaR : IZR a = (2 * IZR (Z.pos m) + F k)%R).
  { subst a. rewrite plus_IZR, mult_IZR, IZR_pow2 by lia. reflexivity. }
  assert (HFk := F_pos k). assert (HFe := F_pos e).
  assert (Hke : (F k * F e = 1)%R) by (subst k; apply F_opp).
  assert (H1 : (IZR b * IZR z <= IZR a)%R).
  { rewrite <- mult_IZR. apply IZR_le. lia. }
  assert (H2 : (IZR a < IZR b * IZR z + IZR b)%R).
  { rewrite <- mult_IZR, <- plus_IZR. apply IZR_lt. lia. }
  rewrite HbR, HaR in H1, H2.
  assert (Hv : (IZR (Z.pos m) * F e + 1 / 2
                = (2 * IZR (Z.pos m) + F k) / (2 * F k))%R).
  { apply Rmult_eq_reg_r with (2 * F k)%R; [| lra].
    replace ((2 * IZR (Z.pos m) + F k) / (2 * F k) * (2 * F k))%R
      with (2 * IZR (Z.pos m) + F k)%R by (field; lra).
    replace ((IZR (Z.pos m) * F e + 1 / 2) * (2 * F k))%R
      with (2 * IZR (Z.pos m) * (F k * F e) + F k)%R by field.
    rewrite Hke. ring. }
  rewrite Hv. split.
  - apply Rmult_le_reg_r with (2 * F k)%R; [lra |].
    replace ((2 * IZR (Z.pos m) + F k) / (2 * F k) * (2 * F k))%R
      with (2 * IZR (Z.pos m) + F k)%R by (field; lra).
    lra.
  - apply Rmult_lt_reg_r with (2 * F k)%R; [lra |].
    replace ((2 * IZR (Z.pos m) + F k) / (2 * F k) * (2 * F k))%R
      with (2 * IZR (Z.pos m) + F k)%R by (field; lra).
    lra.
Qed.

(** ** The percentage of a progress report *)

Lemma Rabs_le_inv (a b : R) : (Rabs a <= b)%R -> (- b <= a <= b)%R.
Proof. unfold Rabs. destruct (Rcase_abs a); lra. Qed.

Lemma F_m53 : F (-53) = (/ 9007199254740992)%R.
Proof. unfold F. simpl. lra. Qed.

Lemma F_m46 : F (-46) = (128 / 9007199254740992)%R.
Proof. unfold F. simpl. lra. Qed.

Lemma F_lt_inv (a b : Z) : (F a < F b)%R -> a < b.
Proof.
  intro H. destruct (Z.lt_ge_cases a b) as [? | Hge]; [assumption |].
  apply F_le in Hge. lra.
Qed.

(** A normal number below [2^k] has an exponent below [k - 52]. *)
Lemma exponent_bound (M : positive) (E k : Z) :
  Z.pos (digits2_pos M) = 53 ->
  (IZR (Z.pos M) * F E < F k)%R -> E < k - 52.
Proof.
  intros HD HV. assert (HB := digits2_pos_bounds M). rewrite HD in HB.
  destruct HB as [HB _]. apply IZR_le in HB.
  rewrite IZR_pow2 in HB by lia.
  assert (HF := F_pos E).
  assert (H : (F (52 + E) < F k)%R).
  { rewrite F_add. change (53 - 1) with 52 in HB. nra. }
  apply F_lt_inv in H. lia.
Qed.

Lemma valid_normal (x : float) (M : positive) (E : Z) :
  Prim2SF x = S754_finite false M E -> -1074 < E ->
  Z.pos (digits2_pos M) = 53.
Proof.
  intros Hx HE. assert (Hv := Prim2SF_valid x). rewrite Hx in Hv.
  destruct (valid_finite _ _ _ Hv) as [Hc _]. lia.
Qed.

Lemma Prim2SF_100 :
  Prim2SF 100%float = S754_finite false 7036874417766400 (-46).
Proof. reflexivity. Qed.

Lemma percentage_of_spec (p N : nat) :
  (1 <= p <= N)%nat -> Z.of_nat N < 2 ^ 32 ->
  exists (z : Z) (V : R),
    percentage_of p N = rounded z
    /\ (IZR z <= V + 1 / 2 < IZR z + 1)%R
    /\ (Rabs (V - 100 * IZR (Z.of_nat p) / IZR (Z.of_nat N))
        <= 228 / 9007199254740992)%R.
Proof.
  intros Hp HN.
  destruct (Z.of_nat p) as [| pp | pp] eqn:Ep; try lia.
  destruct (Z.of_nat N) as [| pN | pN] eqn:EN; try lia.
  assert (Hle : (pp <= pN)%positive) by lia.
  assert (HNb : Z.pos pN < 2 ^ 53) by (change (2 ^ 32) with 4294967296 in HN; change (2 ^ 53) with 9007199254740992; lia).
  assert (Hpb : Z.pos pp < 2 ^ 53) by lia.
  destruct (of_Z_exact pp Hpb) as (mx & ex & Hx & Dx & Eex & Vx).
  destruct (of_Z_exact pN HNb) as (my & ey & Hy & Dy & Eey & Vy).
  assert (Hdp := digits2_pos_le pp 53 Hpb ltac:(lia)).
  assert (HdN := digits2_pos_le pN 53 HNb ltac:(lia)).
  assert (Hmono := digits2_pos_mono pp pN Hle).
  assert (Hex : -52 <= ex <= 0) by lia.
  assert (Hey : -52 <= ey <= 0) by lia.
  assert (Hexy : ex <= ey) by lia.
  unfold percentage_of, progress_of, JSNumber.of_nat. cbn [percentage]. rewrite Ep, EN.
  set (x := JSNumber.of_Z (Z.pos pp)) in *. set (y := JSNumber.of_Z (Z.pos pN)) in *.
  (* the quotient *)
  destruct (div_error x y mx my ex ey Hx Hy Dx Dy ltac:(lia) ltac:(lia))
    as (MQ & EQ & HQ & ErrQ & HEQ).
  rewrite Vx, Vy in ErrQ.
  assert (DQ := valid_normal _ _ _ HQ ltac:(lia)).
  set (X := (IZR (Z.pos pp) / IZR (Z.pos pN))%R) in *.
  assert (HpR : (0 < IZR (Z.pos pp))%R) by (apply IZR_lt; lia).
  assert (HNR : (0 < IZR (Z.pos pN))%R) by (apply IZR_lt; lia).
  assert (HX : (0 < X <= 1)%R).
  { subst X. split; [apply Rdiv_lt_0_compat; assumption |].
    apply Rmult_le_reg_r with (IZR (Z.pos pN)); [assumption |].
    replace (IZR (Z.pos pp) / IZR (Z.pos pN) * IZR (Z.pos pN))%R
      with (IZR (Z.pos pp)) by (field; lra).
    rewrite Rmult_1_l. apply IZR_le. lia. }
  assert (ErrQ' : (Rabs (IZR (Z.pos MQ) * F EQ - X) <= / 9007199254740992)%R).
  { eapply Rle_trans; [exact ErrQ |]. rewrite <- F_m53. apply F_le. lia. }
  set (VQ := (IZR (Z.pos MQ) * F EQ)%R) in *.
  apply Rabs_le_inv in ErrQ'.
  assert (HEQ' : EQ < 1 - 52).
  { apply (exponent_bound MQ EQ 1 DQ). fold VQ.
    replace (F 1) with 2%R by (unfold F; simpl; lra). lra. }
  (* the product *)
  destruct (mul_error (x / y) 100%float MQ 7036874417766400 EQ (-46)
              HQ Prim2SF_100 DQ ltac:(reflexivity) ltac:(lia) ltac:(lia))
    as (MR & ER & HR & ErrR & HER).
  assert (H100 : (IZR 7036874417766400 * F (-46) = 100)%R)
    by (rewrite F_m46; lra).
  rewrite H100 in ErrR. fold VQ in ErrR.
  assert (DR := valid_normal _ _ _ HR ltac:(lia)).
  assert (ErrR' : (Rabs (IZR (Z.pos MR) * F ER - VQ * 100)
                   <= 128 / 9007199254740992)%R).
  { eapply Rle_trans; [exact ErrR |]. rewrite <- F_m46. apply F_le. lia. }
  set (VR := (IZR (Z.pos MR) * F ER)%R) in *.
  apply Rabs_le_inv in ErrR'.
  assert (HER' : ER < 7 - 52).
  { apply (exponent_bound MR ER 7 DR). fold VR.
    replace (F 7) with 128%R by (unfold F; simpl; lra). lra. }
  (* Math.round *)
  exists (JSNumber.round_Z false MR ER), VR.
  split.
  - unfold JSNumber.Math_round, rounded. rewrite HR.
    destruct (Z.leb_spec 0 ER) as [? | _]; [lia | reflexivity].
  - split; [apply round_Z_floor; lia |].
    apply Rabs_le.
    replace (100 * IZR (Z.pos pp) / IZR (Z.pos pN))%R with (100 * X)%R
      by (subst X; field; lra).
    lra.
Qed.

Lemma rounded_monotone (z z' : Z) :
  0 <= z <= z' -> z' <= 100 ->
  (rounded z <=? rounded z')%float = true.
Proof.
  intros Hz Hz'.
  assert (Htab : rounded_table_ok = true) by (vm_compute; reflexivity).
  unfold rounded_table_ok in Htab. rewrite forallb_forall in Htab.
  specialize (Htab (Z.to_nat z)). rewrite forallb_forall in Htab.
  specialize (Htab ltac:(apply in_seq; lia) (Z.to_nat z') ltac:(apply in_seq; lia)).
  rewrite !Z2Nat.id in Htab by lia.
  destruct (Nat.leb_spec (Z.to_nat z) (Z.to_nat z')) as [_ | Hbad];
    [exact Htab | lia].
Qed.

(** The integer a percentage was rounded to lies between 0 and 100. *)
Lemma percentage_of_range (p N : nat) :
  (1 <= p <= N)%nat -> Z.of_nat N < 2 ^ 32 ->
  exists (z : Z) (V : R),
    percentage_of p N = rounded z
    /\ 0 <= z <= 100
    /\ (IZR z <= V + 1 / 2 < IZR z + 1)%R
    /\ (Rabs (V - 100 * (IZR (Z.of_nat p) * / IZR (Z.of_nat N)))
        <= 228 / 9007199254740992)%R.
Proof.
  intros Hp HN.
  destruct (percentage_of_spec p N Hp HN) as (z & V & Hz & Hfl & Herr).
  exists z, V.
  replace (100 * IZR (Z.of_nat p) / IZR (Z.of_nat N))%R
    with (100 * (IZR (Z.of_nat p) * / IZR (Z.of_nat N)))%R in Herr
    by (unfold Rdiv; ring).
  split; [exact Hz |]. split; [| split; assumption].
  apply Rabs_le_inv in Herr.
  assert (HNR : (0 < IZR (Z.of_nat N))%R) by (apply IZR_lt; lia).
  assert (HpR : (0 < IZR (Z.of_nat p))%R) by (apply IZR_lt; lia).
  assert (HpN : (IZR (Z.of_nat p) <= IZR (Z.of_nat N))%R) by (apply IZR_le; lia).
  assert (Hinv0 : (0 < / IZR (Z.of_nat N))%R) by (apply Rinv_0_lt_compat; lra).
  assert (HA0 : (0 < IZR (Z.of_nat p) * / IZR (Z.of_nat N))%R)
    by (apply Rmult_lt_0_compat; lra).
  assert (HA1 : (IZR (Z.of_nat p) * / IZR (Z.of_nat N) <= 1)%R).
  { apply Rmult_le_reg_r with (IZR (Z.of_nat N)); [lra |].
    rewrite Rmult_assoc, Rinv_l by lra. lra. }
  set (A := (IZR (Z.of_nat p) * / IZR (Z.of_nat N))%R) in *. clearbody A.
  destruct Hfl as [Hfl1 Hfl2]. destruct Herr as [Herr1 Herr2].
  split.
  - assert (H : (IZR (-1) < IZR z)%R); [lra |]. apply lt_IZR in H. lia.
  - assert (H : (IZR z < IZR 101)%R); [lra |]. apply lt_IZR in H. lia.
Qed.

Lemma percentage_of_monotone (p p' N : nat) :
  (1 <= p <= p')%nat -> (p' <= N)%nat -> Z.of_nat N < 2 ^ 32 ->
  (percentage_of p N <=? percentage_of p' N)%float = true.
Proof.
  intros Hp Hp' HN.
  destruct (percentage_of_range p N ltac:(lia) HN) as (z & V & Hz & Hr & Hfl & Herr).
  destruct (Nat.eq_dec p p') as [<- | Hne].
  { rewrite Hz. apply rounded_monotone; lia. }
  destruct (percentage_of_range p' N ltac:(lia) HN) as (z' & V' & Hz' & Hr' & Hfl' & Herr').
  rewrite Hz, Hz'.
  apply Rabs_le_inv in Herr, Herr'.
  assert (HNR : (0 < IZR (Z.of_nat N) < 4294967296)%R).
  { split; [apply IZR_lt; lia |]. apply IZR_lt. exact HN. }
  assert (Hinv : (/ 4294967296 < / IZR (Z.of_nat N))%R)
    by (apply Rinv_lt_contravar; [nra | lra]).
  assert (Hab : (IZR (Z.of_nat p) * / IZR (Z.of_nat N) + / IZR (Z.of_nat N)
                 <= IZR (Z.of_nat p') * / IZR (Z.of_nat N))%R).
  { assert (Hab : (IZR (Z.of_nat p) + 1 <= IZR (Z.of_nat p'))%R).
    { rewrite <- plus_IZR. apply IZR_le. lia. }
    replace (IZR (Z.of_nat p) * / IZR (Z.of_nat N) + / IZR (Z.of_nat N))%R
      with ((IZR (Z.of_nat p) + 1) * / IZR (Z.of_nat N))%R by ring.
    apply Rmult_le_compat_r; [| lra].
    apply Rlt_le. apply Rinv_0_lt_compat. lra. }
  set (A := (IZR (Z.of_nat p) * / IZR (Z.of_nat N))%R) in *.
  set (B := (IZR (Z.of_nat p') * / IZR (Z.of_nat N))%R) in *.
  set (i := (/ IZR (Z.of_nat N))%R) in *.
  clearbody A B i.
  destruct Hfl as [Hfl1 Hfl2], Hfl' as [Hfl1' Hfl2'].
  destruct Herr as [Herr1 Herr2], Herr' as [Herr1' Herr2'].
  assert (Hzz : z <= z').
  { assert (H : (IZR z < IZR z' + 1)%R); [lra |].
    rewrite <- plus_IZR in H. apply lt_IZR in H. lia. }
  apply rounded_monotone; lia.
Qed.

Lemma percentage_of_complete (N : nat) :
  (1 <= N)%nat -> Z.of_nat N < 2 ^ 32 -> percentage_of N N = 100%float.
Proof.
  intros H1 HN.
  destruct (percentage_of_range N N ltac:(lia) HN) as (z & V & Hz & Hr & Hfl & Herr).
  rewrite Hz. apply Rabs_le_inv in Herr.
  assert (HNR : (0 < IZR (Z.of_nat N))%R) by (apply IZR_lt; lia).
  rewrite Rinv_r in Herr by lra.
  destruct Hfl as [Hfl1 Hfl2], Herr as [Herr1 Herr2].
  assert (Hlo : 99 < z).
  { assert (H : (IZR 99 < IZR z)%R); [lra |]. apply lt_IZR in H. lia. }
  assert (z = 100) by lia. subst z. reflexivity.
Qed.

(* ================================================================== *)
(** * The program *)

(** ** Search: the short-circuit and the single query embedding *)

Section SearchBasics.
Context {World : Type}.
Implicit Types (c : Config World) (embeddingFn : EmbeddingFunction World).

Lemma events_since_app c (s : list VectorStoreEntry) (w : World) evs :
  events_since c (mkConfig s w (trace c ++ evs)) = evs.
Proof.
  unfold events_since; simpl.
  rewrite skipn_app, skipn_all, Nat.sub_diag. reflexivity.
Qed.

Lemma events_since_refl c : events_since c c = [].
Proof. unfold events_since. apply skipn_all. Qed.

Lemma call_spec embeddingFn text c :
  call embeddingFn text c =
    (fst (embeddingFn text (world c)),
     mkConfig (store c) (snd (embeddingFn text (world c)))
              (trace c ++ [EmbedCall text (fst (embeddingFn text (world c)))])).
Proof. unfold call. destruct (embeddingFn text (world c)); reflexivity. Qed.

Lemma array_slice_0_0 {A} (a : list A) : JS.array_slice a 0 0 = [].
Proof. unfold JS.array_slice. simpl. reflexivity. Qed.

Lemma rank_top0 q entries : rank q entries 0 = [].
Proof. unfold rank. rewrite array_slice_0_0. reflexivity. Qed.

End SearchBasics.


(** C9. With [topK = 0] on a non-empty store, [search] invokes the
    embedding function exactly once, on the query, and leaves the store
    as it is; when that call is fulfilled the result is the empty list
    (a rejection of the call is the rejection of the search). *)
Theorem search_top0_one_call :
  forall (World : Type) (c : Config World) (query : string)
         (embeddingFn : EmbeddingFunction World),
    store c <> [] ->
    let r := fst (embeddingFn query (world c)) in
    let res := search query embeddingFn 0 c in
    events_since c (snd res) = [EmbedCall query r]
    /\ embed_calls (events_since c (snd res)) = [query]
    /\ store (snd res) = store c
    /\ fst res = match r with
                 | Fulfilled _ => Fulfilled []
                 | Rejected reason => Rejected reason
                 | Pending => Pending
                 end.
Proof.
  intros World c query embeddingFn Hne r res.
  subst res. unfold search.
  destruct (store c) as [| e es] eqn:Hs; [congruence |].
  cbn [List.length Nat.eqb].
  rewrite call_spec. fold r.
  destruct r as [q | reason |]; cbn [fst snd store];
    rewrite ?events_since_app, ?rank_top0; cbn; repeat split; congruence.
Qed.

(** ** Cosine similarity reads only the indices of its first argument *)

Lemma fold_left_ext_in {A B} (f g : A -> B -> A) (l : list B) (a : A) :
  (forall acc x, In x l -> f acc x = g acc x) ->
  fold_left f l a = fold_left g l a.
Proof.
  revert a. induction l as [| x l IH]; intros a H; simpl; [reflexivity |].
  rewrite H by (left; reflexivity).
  apply IH. intros acc y Hy. apply H. right; exact Hy.
Qed.

Lemma number_at_firstn (b : list float) (n i : nat) :
  (i < n)%nat -> JS.number_at (firstn n b) i = JS.number_at b i.
Proof.
  unfold JS.number_at. revert n i.
  induction b as [| x b IH]; intros n i Hi.
  - rewrite firstn_nil. reflexivity.
  - destruct n as [| n]; [lia |].
    destruct i as [| i]; simpl; [reflexivity |].
    apply IH. lia.
Qed.

Lemma cosine_sums_firstn (a b : list float) :
  cosine_sums a (firstn (List.length a) b) = cosine_sums a b.
Proof.
  unfold cosine_sums. apply fold_left_ext_in.
  intros [[d na] nb] i Hi. apply in_seq in Hi.
  unfold cosine_step. rewrite number_at_firstn by lia. reflexivity.
Qed.

Lemma cosineSimilarity_firstn (a b : list float) :
  cosineSimilarity a (firstn (List.length a) b) = cosineSimilarity a b.
Proof. unfold cosineSimilarity. rewrite cosine_sums_firstn. reflexivity. Qed.

Lemma score_truncate (q : list float) (entry : VectorStoreEntry) :
  score q (truncate_entry (List.length q) entry) = score q entry.
Proof.
  unfold score, truncate_entry; simpl.
  rewrite cosineSimilarity_firstn. reflexivity.
Qed.

Lemma rank_truncate (q : list float) (entries : list VectorStoreEntry) (topK : Z) :
  rank q (map (truncate_entry (List.length q)) entries) topK = rank q entries topK.
Proof.
  unfold rank. rewrite map_map.
  rewrite (map_ext _ (score q)) by (intro; apply score_truncate).
  reflexivity.
Qed.

(** C10. [cosineSimilarity a b] is [cosineSimilarity a b'] for [b'] the
    first [length a] components of [b] (the condition
    [length a <= length b] of the claim is not needed: a shorter [b] is
    its own prefix).  Hence the scores and the ranking of [search],
    which passes the query embedding first, are those of the store
    whose embeddings are cut down to the length of the query
    embedding. *)
Theorem cosine_ignores_trailing_components :
  (forall a b : list float,
      cosineSimilarity a b = cosineSimilarity a (firstn (List.length a) b))
  /\ (forall (q : list float) (entries : list VectorStoreEntry),
         map (score q) entries
           = map (score q) (map (truncate_entry (List.length q)) entries))
  /\ (forall (World : Type) (c : Config World) (query : string)
             (embeddingFn : EmbeddingFunction World) (topK : Z)
             (q : list float),
         fst (embeddingFn query (world c)) = Fulfilled q ->
         fst (search query embeddingFn topK c)
           = fst (search query embeddingFn topK
                    (mkConfig (map (truncate_entry (List.length q)) (store c))
                              (world c) (trace c)))).
Proof.
  split; [| split].
  - intros a b. symmetry. apply cosineSimilarity_firstn.
  - intros q entries. rewrite map_map. apply map_ext.
    intro e. symmetry. apply score_truncate.
  - intros World c query embeddingFn topK q Hq.
    unfold search. cbn [store]. rewrite length_map.
    destruct (List.length (store c) =? 0)%nat; [reflexivity |].
    rewrite !call_spec. cbn [world store]. rewrite Hq. cbn [fst store].
    rewrite rank_truncate. reflexivity.
Qed.

(** ** The chunker against the window sequence of the specification *)

Lemma first_index_some (p : nat -> bool) (n k j : nat) :
  first_index p n k = Some j ->
  (k <= j < k + n)%nat /\ p j = true /\
  forall i, (k <= i < j)%nat -> p i = false.
Proof.
  revert k. induction n as [| n IH]; intros k H; simpl in H; [discriminate |].
  destruct (p k) eqn:Hk.
  - inversion H; subst. repeat split; try lia. exact Hk.
  - destruct (IH _ H) as (H1 & H2 & H3).
    repeat split; try lia; [exact H2 |].
    intros i Hi. destruct (Nat.eq_dec i k) as [-> | Hne]; [exact Hk |].
    apply H3. lia.
Qed.

Lemma first_index_exists (p : nat -> bool) (n k j : nat) :
  (k <= j < k + n)%nat -> p j = true -> exists j', first_index p n k = Some j'.
Proof.
  revert k. induction n as [| n IH]; intros k Hj Hp; [lia |].
  simpl. destruct (p k) eqn:Hk; [eauto |].
  apply IH; [| exact Hp].
  destruct (Nat.eq_dec j k) as [-> | Hne]; [congruence | lia].
Qed.

Lemma length_substring (s : string) (n m : nat) :
  (n + m <= String.length s)%nat -> String.length (substring n m s) = m.
Proof.
  revert n m. induction s as [| a s IH]; intros n m H; simpl in H.
  - assert (n = 0%nat) by lia. assert (m = 0%nat) by lia. subst. reflexivity.
  - destruct n as [| n]; destruct m as [| m]; simpl; try reflexivity.
    + rewrite IH by lia. reflexivity.
    + apply IH. lia.
    + apply IH. lia.
Qed.

Lemma substring_whole (s : string) : substring 0 (String.length s) s = s.
Proof. induction s as [| a s IH]; simpl; [reflexivity | rewrite IH; reflexivity]. Qed.

Section Chunker.
Variable text : string.
Variables chunkSize overlap : Z.
Hypothesis overlap_nonneg : 0 <= overlap.
Hypothesis overlap_small : overlap < chunkSize.

Let len := Z.of_nat (String.length text).

Lemma string_slice_window (k : nat) :
  window_start chunkSize overlap k < len ->
  JS.string_slice text (window_start chunkSize overlap k)
    (Z.min (window_start chunkSize overlap k + chunkSize) len)
  = window text chunkSize overlap k.
Proof.
  intro Hlt. unfold JS.string_slice, JS.relative_index, window.
  fold len. set (st := window_start chunkSize overlap k) in *.
  assert (0 <= st) by (subst st; unfold window_start; nia).
  destruct (Z.ltb_spec st 0) as [? | _]; [lia |].
  destruct (Z.ltb_spec (Z.min (st + chunkSize) len) 0) as [? | _]; [lia |].
  subst len.
  rewrite !Nat.min_l by lia.
  f_equal. lia.
Qed.

(** The loop, started at window [k] with [n] more windows to go before
    the one that reaches the end. *)
Lemma chunkText_loop_windows (n : nat) :
  forall (k fuel : nat) (chunks : list string),
    (n < fuel)%nat ->
    window_start chunkSize overlap k < len ->
    (forall j, (k <= j < k + n)%nat ->
               reaches_end text chunkSize overlap j = false) ->
    reaches_end text chunkSize overlap (k + n) = true ->
    chunkText_loop fuel text chunkSize overlap
                   (window_start chunkSize overlap k) chunks
    = Some (chunks ++ map (window text chunkSize overlap) (seq k (S n))).
Proof.
  induction n as [| n IH]; intros k fuel chunks Hfuel Hstart Hbefore Hlast;
    (destruct fuel as [| fuel]; [exfalso; lia |]); cbn [chunkText_loop]; fold len;
    (destruct (Z.ltb_spec (window_start chunkSize overlap k) len) as [_ | ?];
     [| exfalso; lia]);
    rewrite string_slice_window by exact Hstart.
  - rewrite Nat.add_0_r in Hlast. unfold reaches_end in Hlast. fold len in Hlast.
    apply Z.leb_le in Hlast.
    rewrite Z.min_r by lia. rewrite Z.eqb_refl. reflexivity.
  - assert (Hk : reaches_end text chunkSize overlap k = false)
      by (apply Hbefore; lia).
    unfold reaches_end in Hk. fold len in Hk. apply Z.leb_gt in Hk.
    rewrite Z.min_l by lia.
    destruct (Z.eqb_spec (window_start chunkSize overlap k + chunkSize) len)
      as [? | _]; [lia |].
    replace (window_start chunkSize overlap k + (chunkSize - overlap))
      with (window_start chunkSize overlap (S k))
      by (unfold window_start; lia).
    rewrite IH.
    + rewrite <- app_assoc. reflexivity.
    + lia.
    + unfold window_start in *. lia.
    + intros j Hj. apply Hbefore. lia.
    + replace (S k + n)%nat with (k + S n)%nat by lia. exact Hlast.
Qed.

Lemma reaches_end_at_length :
  reaches_end text chunkSize overlap (String.length text) = true.
Proof.
  unfold reaches_end, window_start. fold len. apply Z.leb_le.
  assert (0 <= len) by (subst len; lia). nia.
Qed.

(** The shape of the window sequence of a text with characters. *)
Lemma spec_windows_shape :
  String.length text <> 0%nat ->
  exists last : nat,
    (last <= String.length text)%nat
    /\ spec_windows text chunkSize overlap
       = map (window text chunkSize overlap) (seq 0 (S last))
    /\ reaches_end text chunkSize overlap last = true
    /\ (forall j, (j < last)%nat ->
                  reaches_end text chunkSize overlap j = false)
    /\ (forall k, (k <= last)%nat -> window_start chunkSize overlap k < len).
Proof.
  intro Hne. unfold spec_windows.
  destruct (Nat.eqb_spec (String.length text) 0) as [? | _]; [contradiction |].
  destruct (first_index_exists (reaches_end text chunkSize overlap)
              (S (String.length text)) 0 (String.length text))
    as [last Hlast]; [lia | apply reaches_end_at_length |].
  rewrite Hlast. apply first_index_some in Hlast.
  destruct Hlast as (Hr & Hp & Hmin).
  exists last. repeat split; try assumption; try lia.
  - intros j Hj. apply Hmin. lia.
  - intros k Hk. destruct k as [| k].
    + unfold window_start. subst len. lia.
    + assert (Hf := Hmin k ltac:(lia)).
      unfold reaches_end in Hf. fold len in Hf. apply Z.leb_gt in Hf.
      unfold window_start in *. lia.
Qed.

(** Any fuel beyond the length of the text lets the loop finish, with
    the window sequence. *)
Lemma chunkText_loop_spec_windows (fuel : nat) :
  (String.length text < fuel)%nat ->
  chunkText_loop fuel text chunkSize overlap 0 []
  = Some (spec_windows text chunkSize overlap).
Proof.
  intro Hfuel.
  destruct (Nat.eq_dec (String.length text) 0) as [H0 | Hne].
  - unfold spec_windows. rewrite H0.
    destruct fuel as [| fuel]; [lia |].
    cbn [chunkText_loop]. rewrite H0. reflexivity.
  - destruct (spec_windows_shape Hne) as (last & Hle & Heq & Hp & Hmin & Hst).
    rewrite Heq.
    change 0 with (window_start chunkSize overlap 0) at 1.
    rewrite (chunkText_loop_windows last 0).
    + reflexivity.
    + lia.
    + apply Hst. lia.
    + intros j Hj. apply Hmin. lia.
    + exact Hp.
Qed.

Lemma chunkText_spec_windows :
  chunkText text chunkSize overlap = Some (spec_windows text chunkSize overlap).
Proof. unfold chunkText. apply chunkText_loop_spec_windows. lia. Qed.

Lemma window_length (k : nat) :
  window_start chunkSize overlap k < len ->
  Z.of_nat (String.length (window text chunkSize overlap k))
  = Z.min chunkSize (len - window_start chunkSize overlap k).
Proof.
  intro Hlt. unfold window. fold len.
  assert (0 <= window_start chunkSize overlap k)
    by (unfold window_start; nia).
  rewrite length_substring; subst len; lia.
Qed.

Lemma spec_windows_nonempty :
  Forall (fun w => w <> EmptyString) (spec_windows text chunkSize overlap).
Proof.
  destruct (Nat.eq_dec (String.length text) 0) as [H0 | Hne].
  - unfold spec_windows. rewrite H0. constructor.
  - destruct (spec_windows_shape Hne) as (last & Hle & Heq & Hp & Hmin & Hst).
    rewrite Heq. apply Forall_forall. intros w Hw.
    apply in_map_iff in Hw. destruct Hw as [k [<- Hk]].
    apply in_seq in Hk.
    assert (Hl := window_length k (Hst k ltac:(lia))).
    specialize (Hst k ltac:(lia)).
    intro Hw. rewrite Hw in Hl. simpl in Hl. lia.
Qed.

Lemma spec_windows_short :
  String.length text <> 0%nat -> len <= chunkSize ->
  spec_windows text chunkSize overlap = [text].
Proof.
  intros Hne Hshort. unfold spec_windows.
  destruct (Nat.eqb_spec (String.length text) 0) as [? | _]; [contradiction |].
  cbn [first_index].
  assert (Hr : reaches_end text chunkSize overlap 0 = true).
  { unfold reaches_end, window_start. fold len. apply Z.leb_le. lia. }
  rewrite Hr. cbn [seq map]. f_equal.
  unfold window, window_start. fold len.
  rewrite Z.mul_0_l, Z.sub_0_r, Z.min_r by lia.
  subst len. rewrite Nat2Z.id. apply substring_whole.
Qed.

Lemma spec_windows_count :
  String.length text <> 0%nat ->
  Z.of_nat (List.length (spec_windows text chunkSize overlap))
  = Z.max 1 (ceil_div (len - overlap) (chunkSize - overlap)).
Proof.
  intro Hne. unfold spec_windows.
  destruct (Nat.eqb_spec (String.length text) 0) as [? | _]; [contradiction |].
  destruct (first_index_exists (reaches_end text chunkSize overlap)
              (S (String.length text)) 0 (String.length text))
    as [last Hlast]; [lia | apply reaches_end_at_length |].
  rewrite Hlast. apply first_index_some in Hlast.
  destruct Hlast as (Hr & Hp & Hmin).
  rewrite length_map, length_seq.
  unfold reaches_end, window_start in Hp. fold len in Hp. apply Z.leb_le in Hp.
  assert (Hprev : (0 < last)%nat ->
                  Z.of_nat (last - 1) * (chunkSize - overlap) + chunkSize < len).
  { intro Hpos. assert (Hf := Hmin (last - 1)%nat ltac:(lia)).
    unfold reaches_end, window_start in Hf. fold len in Hf.
    apply Z.leb_gt in Hf. exact Hf. }
  unfold ceil_div.
  set (s := chunkSize - overlap) in *.
  assert (Hs : 0 < s) by (subst s; lia).
  set (a := len - overlap + s - 1).
  assert (Hdm := Z.div_mod a s ltac:(lia)).
  assert (Hmod := Z.mod_pos_bound a s Hs).
  set (q := a / s) in *.
  destruct last as [| last].
  - rewrite Z.max_l; [reflexivity |]. subst a. simpl in Hp. nia.
  - specialize (Hprev ltac:(lia)).
    replace (S last - 1)%nat with last in Hprev by lia.
    assert (q = Z.of_nat (S (S last))); [| lia].
    subst a. nia.
Qed.

End Chunker.

(** C2. For [chunkSize > overlap >= 0], [chunkText] returns (with any
    fuel beyond the length of the text) the window sequence of the
    specification: window [k] is the substring at offset
    [k * (chunkSize - overlap)] of [min chunkSize (remaining length)]
    characters, the last window is the first one that reaches the end of
    the text, and no window is empty.  A text with characters yields
    [max 1 (ceil ((L - overlap) / (chunkSize - overlap)))] chunks, hence
    at least one, and exactly the whole text when [L <= chunkSize]. *)
Theorem chunkText_is_window_sequence :
  forall (text : string) (chunkSize overlap : Z),
    0 <= overlap -> overlap < chunkSize ->
    let L := Z.of_nat (String.length text) in
    let ws := spec_windows text chunkSize overlap in
    chunkText text chunkSize overlap = Some ws
    /\ (forall fuel, (String.length text < fuel)%nat ->
          chunkText_loop fuel text chunkSize overlap 0 [] = Some ws)
    /\ (forall k, (k < List.length ws)%nat ->
          nth k ws EmptyString
            = substring (Z.to_nat (Z.of_nat k * (chunkSize - overlap)))
                (Z.to_nat (Z.min chunkSize
                             (L - Z.of_nat k * (chunkSize - overlap))))
                text
          /\ Z.of_nat k * (chunkSize - overlap) < L
          /\ (L <= Z.of_nat k * (chunkSize - overlap) + chunkSize
              <-> S k = List.length ws))
    /\ Forall (fun w => w <> EmptyString) ws
    /\ (text <> EmptyString ->
        Z.of_nat (List.length ws)
          = Z.max 1 (ceil_div (L - overlap) (chunkSize - overlap))
        /\ (1 <= List.length ws)%nat
        /\ (L <= chunkSize -> ws = [text])).
Proof.
  intros text chunkSize overlap Ho Hc L ws.
  assert (Hlen0 : text <> EmptyString -> String.length text <> 0%nat).
  { destruct text; simpl; [congruence | lia]. }
  split; [apply chunkText_spec_windows; assumption |].
  split; [intros fuel Hf; apply chunkText_loop_spec_windows; assumption |].
  split; [| split; [apply spec_windows_nonempty; assumption |]].
  - intros k Hk.
    destruct (Nat.eq_dec (String.length text) 0) as [H0 | Hne].
    { subst ws. unfold spec_windows in Hk. rewrite H0 in Hk. simpl in Hk. lia. }
    destruct (spec_windows_shape text chunkSize overlap Ho Hc Hne)
      as (last & Hle & Heq & Hp & Hmin & Hst).
    subst ws. rewrite Heq in *. rewrite length_map, length_seq in *.
    rewrite (nth_indep _ EmptyString (window text chunkSize overlap 0))
      by (rewrite length_map, length_seq; exact Hk).
    rewrite map_nth, seq_nth by exact Hk.
    split; [reflexivity |].
    split; [apply (Hst k); lia |].
    split.
    + intro Hreach.
      destruct (Nat.eq_dec k last) as [-> | Hneq]; [reflexivity |].
      assert (Hf := Hmin k ltac:(lia)).
      unfold reaches_end, window_start in Hf. apply Z.leb_gt in Hf.
      fold L in Hf. lia.
    + intro Hk'. assert (k = last) by lia. subst k.
      unfold reaches_end, window_start in Hp. apply Z.leb_le in Hp. exact Hp.
  - intro Hne. specialize (Hlen0 Hne).
    assert (Hcount := spec_windows_count text chunkSize overlap Ho Hc Hlen0).
    fold ws in Hcount.
    split; [exact Hcount |].
    split; [lia |].
    intro Hshort. apply spec_windows_short; assumption.
Qed.

(** ** Runs of [create] *)

Lemma array_slice_nat {A} (a : list A) (i j : nat) :
  (i <= j)%nat ->
  JS.array_slice a (Z.of_nat i) (Z.of_nat j) = firstn (j - i) (skipn i a).
Proof.
  intro Hij. unfold JS.array_slice, JS.relative_index.
  destruct (Z.ltb_spec (Z.of_nat i) 0) as [Hi | _]; [lia |].
  destruct (Z.ltb_spec (Z.of_nat j) 0) as [Hj | _]; [lia |].
  rewrite !Nat2Z.id.
  destruct (Nat.le_gt_cases i (List.length a)) as [Hle | Hgt].
  - rewrite (Nat.min_l i) by exact Hle.
    destruct (Nat.le_gt_cases j (List.length a)) as [Hjl | Hjl].
    + rewrite Nat.min_l by exact Hjl. reflexivity.
    + rewrite Nat.min_r by lia.
      rewrite !firstn_all2 by (rewrite length_skipn; lia). reflexivity.
  - rewrite (Nat.min_r i) by lia.
    rewrite skipn_all, (skipn_all2 a) by lia.
    rewrite !firstn_nil. reflexivity.
Qed.

Lemma progress_calls_app (e1 e2 : list Event) :
  progress_calls (e1 ++ e2) = progress_calls e1 ++ progress_calls e2.
Proof.
  induction e1 as [| [t r | p] e1 IH]; simpl; [reflexivity | exact IH |].
  rewrite IH. reflexivity.
Qed.

Lemma embed_calls_app (e1 e2 : list Event) :
  embed_calls (e1 ++ e2) = embed_calls e1 ++ embed_calls e2.
Proof.
  induction e1 as [| [t r | p] e1 IH]; simpl; [reflexivity | | exact IH].
  rewrite IH. reflexivity.
Qed.

Lemma progress_calls_embed_events batch rs :
  progress_calls (embed_events batch rs) = [].
Proof.
  unfold embed_events. revert rs.
  induction batch as [| t batch IH]; intros [| r rs]; simpl; auto.
Qed.

Lemma embed_calls_embed_events batch rs :
  List.length rs = List.length batch ->
  embed_calls (embed_events batch rs) = batch.
Proof.
  unfold embed_events. revert rs.
  induction batch as [| t batch IH]; intros [| r rs]; simpl; intro H;
    try discriminate; [reflexivity |].
  f_equal. apply IH. lia.
Qed.

Lemma in_embed_events batch rs t r :
  In (EmbedCall t r) (embed_events batch rs) -> In t batch /\ In r rs.
Proof.
  unfold embed_events. intro H. apply in_map_iff in H.
  destruct H as [[t' r'] [Heq Hin]]. simpl in Heq. inversion Heq; subst.
  split; [eapply in_combine_l | eapply in_combine_r]; exact Hin.
Qed.

Lemma in_embed_events_r batch rs r :
  List.length rs = List.length batch ->
  In r rs -> exists t, In t batch /\ In (EmbedCall t r) (embed_events batch rs).
Proof.
  unfold embed_events. revert rs.
  induction batch as [| t batch IH]; intros [| r' rs] Hlen Hin; simpl in *;
    try discriminate; try contradiction.
  destruct Hin as [-> | Hin].
  - exists t. auto.
  - destruct (IH rs) as [t' [H1 H2]]; [lia | exact Hin |].
    exists t'. auto.
Qed.

Section CallAll.
Context {World : Type} (embeddingFn : EmbeddingFunction World).

Lemma call_all_spec (batch : list string) (c : Config World) :
  exists rs w,
    call_all embeddingFn batch c
      = (rs, mkConfig (store c) w (trace c ++ embed_events batch rs))
    /\ List.length rs = List.length batch.
Proof.
  revert c. induction batch as [| t batch IH]; intro c.
  - exists [], (world c). simpl. rewrite app_nil_r.
    destruct c; split; reflexivity.
  - simpl. rewrite call_spec.
    destruct (IH (mkConfig (store c) (snd (embeddingFn t (world c)))
                   (trace c ++ [EmbedCall t (fst (embeddingFn t (world c)))])))
      as [rs [w [Heq Hlen]]].
    rewrite Heq. cbn [store trace].
    exists (fst (embeddingFn t (world c)) :: rs), w.
    split; [| simpl; lia].
    unfold embed_events. simpl. rewrite <- app_assoc. reflexivity.
Qed.
End CallAll.

Lemma Promise_all_fulfilled {A} (ps : list (Outcome A)) (vs : list A) :
  Promise_all ps = Fulfilled vs -> ps = map Fulfilled vs.
Proof.
  revert vs. induction ps as [| p ps IH]; intros vs H; simpl in H.
  - inversion H. reflexivity.
  - destruct p as [v | r |]; destruct (Promise_all ps) as [vs' | r' |];
      try discriminate.
    inversion H; subst. simpl. f_equal. apply IH. reflexivity.
Qed.

Lemma Promise_all_rejected {A} (ps : list (Outcome A)) (reason : string) :
  Promise_all ps = Rejected reason -> In (Rejected reason) ps.
Proof.
  induction ps as [| p ps IH]; intro H; simpl in H; [discriminate |].
  destruct p as [v | r |]; destruct (Promise_all ps) as [vs' | r' |];
    try discriminate; inversion H; subst; simpl; auto.
Qed.

Lemma Promise_all_pending {A} (ps : list (Outcome A)) :
  Promise_all ps = Pending ->
  In Pending ps /\ forall reason, ~ In (Rejected reason) ps.
Proof.
  induction ps as [| p ps IH]; intro H; simpl in H; [discriminate |].
  destruct p as [v | r |]; destruct (Promise_all ps) as [vs' | r' |] eqn:E;
    try discriminate.
  - destruct IH as [H1 H2]; [reflexivity |].
    split; [right; exact H1 |].
    intros reason [Hd | Hin]; [discriminate | exact (H2 _ Hin)].
  - apply Promise_all_fulfilled in E. subst ps.
    split; [left; reflexivity |].
    intros reason [Hd | Hin]; [discriminate |].
    apply in_map_iff in Hin. destruct Hin as [? [? _]]. discriminate.
  - destruct IH as [H1 H2]; [reflexivity |].
    split; [left; reflexivity |].
    intros reason [Hd | Hin]; [discriminate | exact (H2 _ Hin)].
Qed.

Lemma make_entries_chunks (batch : list string) (embeddings : list (list float)) :
  List.length embeddings = List.length batch ->
  map chunk (make_entries batch embeddings) = batch.
Proof.
  unfold make_entries. rewrite map_map. simpl.
  revert embeddings. induction batch as [| t batch IH]; intros [| e es] H;
    simpl in *; try discriminate; [reflexivity |].
  f_equal. apply IH. lia.
Qed.

Lemma firstn_plus {A} (a b : nat) (l : list A) :
  firstn (a + b) l = firstn a l ++ firstn b (skipn a l).
Proof.
  revert l. induction a as [| a IH]; intro l; simpl; [reflexivity |].
  destruct l as [| x l]; simpl.
  - rewrite firstn_nil. reflexivity.
  - rewrite IH. reflexivity.
Qed.

Section CreateLoop.
Context {World : Type} (embeddingFn : EmbeddingFunction World).
Variable onProgress : bool.
Variable chunks : list string.

Let N := List.length chunks.

Lemma reports_S (i k : nat) :
  reports chunks i (S k)
    = progress_of (Nat.min (i + batchSize) N) N :: reports chunks (i + batchSize) k.
Proof.
  unfold reports. cbn [seq map].
  replace (i + batchSize * 1)%nat with (i + batchSize)%nat by lia.
  f_equal. rewrite <- seq_shift, map_map.
  apply map_ext. intro j.
  replace (i + batchSize * S j)%nat with (i + batchSize + batchSize * j)%nat by lia.
  reflexivity.
Qed.

Lemma create_loop_run (fuel : nat) :
  forall (i : nat) (c : Config World) out c',
    create_loop fuel embeddingFn onProgress chunks i c = (out, c') ->
    exists k evs, loop_post onProgress chunks fuel i c out c' k evs.
Proof.
  induction fuel as [| fuel IH]; intros i c out c' Hrun.
  - simpl in Hrun. inversion Hrun; subst.
    exists 0%nat, []. unfold loop_post.
    rewrite Nat.mul_0_r, !app_nil_r. cbn [firstn progress_calls].
    repeat split; try (destruct onProgress; reflexivity).
    + intros t reason [].
    + left. lia.
  - cbn [create_loop] in Hrun. fold N in Hrun.
    destruct (Nat.ltb_spec i N) as [Hlt | Hge].
    2:{ inversion Hrun; subst.
        exists 0%nat, []. unfold loop_post.
        rewrite Nat.mul_0_r, !app_nil_r. cbn [firstn progress_calls embed_calls].
        repeat split; try (destruct onProgress; reflexivity); try lia.
        - intros t reason [].
        - rewrite skipn_all2 by (fold N; lia). reflexivity.
        - intros t r []. }
    rewrite array_slice_nat in Hrun by lia.
    replace (i + batchSize - i)%nat with batchSize in Hrun by lia.
    set (batch := firstn batchSize (skipn i chunks)) in *.
    destruct (call_all_spec embeddingFn batch c) as [rs [w [Hcall Hlen]]].
    rewrite Hcall in Hrun.
    destruct (Promise_all rs) as [vs | reason |] eqn:HP.
    + (* the batch completes *)
      apply Promise_all_fulfilled in HP.
      assert (Hvs : List.length vs = List.length batch)
        by (rewrite <- Hlen, HP, length_map; reflexivity).
      cbn [store world trace] in Hrun.
      match type of Hrun with
      | create_loop _ _ _ _ _ ?x = _ => set (c3 := x) in *
      end.
      destruct (IH _ _ _ _ Hrun) as [k [evs Hpost]].
      set (mine := embed_events batch rs ++
                   (if onProgress
                    then [ProgressCall (progress_of (Nat.min (i + batchSize) N) N)]
                    else [])).
      exists (S k), (mine ++ evs).
      destruct Hpost as (Hst & Htr & Hpr & Hrej & Hout).
      assert (Hst3 : map chunk (store c3) = map chunk (store c) ++ batch).
      { subst c3. destruct onProgress; cbn [store];
          rewrite map_app, make_entries_chunks by exact Hvs; reflexivity. }
      assert (Htr3 : trace c3 = trace c ++ mine).
      { subst c3 mine. destruct onProgress; cbn [trace];
          rewrite ?app_nil_r, ?app_assoc; reflexivity. }
      assert (Hmine_pr : progress_calls mine
                = if onProgress
                  then [progress_of (Nat.min (i + batchSize) N) N] else []).
      { subst mine. rewrite progress_calls_app, progress_calls_embed_events.
        destruct onProgress; reflexivity. }
      assert (Hmine_in : forall t r, In (EmbedCall t r) mine ->
                                     exists v, r = Fulfilled v).
      { intros t r Hin. subst mine. apply in_app_or in Hin.
        destruct Hin as [Hin | Hin].
        - apply in_embed_events in Hin. destruct Hin as [_ Hin].
          rewrite HP in Hin. apply in_map_iff in Hin.
          destruct Hin as [v [Hv _]]. exists v. congruence.
        - destruct onProgress; simpl in Hin;
            [destruct Hin as [Hd | []]; discriminate | contradiction]. }
      assert (Hmine_calls : embed_calls mine = batch).
      { subst mine. rewrite embed_calls_app, embed_calls_embed_events by exact Hlen.
        destruct onProgress; simpl; rewrite app_nil_r; reflexivity. }
      unfold loop_post. repeat split.
      * rewrite Hst, Hst3, <- app_assoc. f_equal.
        replace (batchSize * S k)%nat with (batchSize + batchSize * k)%nat by lia.
        rewrite firstn_plus, skipn_skipn.
        replace (batchSize + i)%nat with (i + batchSize)%nat by lia.
        reflexivity.
      * rewrite Htr, Htr3, app_assoc. reflexivity.
      * rewrite progress_calls_app, Hmine_pr, Hpr, reports_S.
        destruct onProgress; reflexivity.
      * intros t reason Hin. apply in_app_or in Hin.
        destruct Hin as [Hin | Hin]; [| exact (Hrej _ _ Hin)].
        destruct (Hmine_in _ _ Hin) as [v Hv]. discriminate.
      * destruct out as [[] | reason |].
        -- destruct Hout as (H1 & H2 & H3 & H4).
           repeat split.
           ++ unfold batchSize in *. lia.
           ++ right. unfold batchSize in *. lia.
           ++ rewrite embed_calls_app, Hmine_calls, H3.
              subst batch.
              replace (i + batchSize)%nat with (batchSize + i)%nat by lia.
              rewrite <- skipn_skipn. apply firstn_skipn.
           ++ intros t r Hin. apply in_app_or in Hin.
              destruct Hin as [Hin | Hin]; [exact (Hmine_in _ _ Hin) | exact (H4 _ _ Hin)].
        -- destruct Hout as (H1 & t & H2 & H3).
           replace (i + batchSize * S k)%nat
             with (i + batchSize + batchSize * k)%nat by lia.
           split; [exact H1 |].
           exists t. split; [exact H2 | apply in_or_app; right; exact H3].
        -- destruct Hout as [Hf | [t Ht]].
           ++ left. unfold batchSize in *. lia.
           ++ right. exists t. apply in_or_app; right; exact Ht.
    + (* a call of the batch is rejected *)
      inversion Hrun; subst out c'.
      exists 0%nat, (embed_events batch rs). unfold loop_post.
      rewrite Nat.mul_0_r, Nat.add_0_r. cbn [firstn store trace].
      rewrite app_nil_r, progress_calls_embed_events.
      repeat split; try (destruct onProgress; reflexivity).
      * intros t r _. exists reason. reflexivity.
      * exact Hlt.
      * apply Promise_all_rejected in HP.
        destruct (in_embed_events_r batch rs _ Hlen HP) as [t [H1 H2]].
        exists t. split; assumption.
    + (* a call of the batch never settles *)
      inversion Hrun; subst out c'.
      exists 0%nat, (embed_events batch rs). unfold loop_post.
      rewrite Nat.mul_0_r. cbn [firstn store trace].
      rewrite app_nil_r, progress_calls_embed_events.
      apply Promise_all_pending in HP. destruct HP as [HP1 HP2].
      repeat split; try (destruct onProgress; reflexivity).
      * intros t r Hin. apply in_embed_events in Hin.
        destruct Hin as [_ Hin]. exfalso. exact (HP2 _ Hin).
      * right.
        destruct (in_embed_events_r batch rs _ Hlen HP1) as [t [H1 H2]].
        exists t. exact H2.
Qed.

End CreateLoop.

(** ** [create]: what the store holds afterwards *)

Lemma chunkText_defaults (text : string) :
  chunkText text 1000 200 = Some (spec_windows text 1000 200).
Proof. apply chunkText_spec_windows; lia. Qed.

Section Create.
Context {World : Type} (embeddingFn : EmbeddingFunction World).
Variable onProgress : bool.
Variable text : string.

Let chunks := spec_windows text 1000 200.

(** A run of [create] is a run of the batch loop from chunk 0 on the
    emptied store. *)
Lemma create_run (c : Config World) out c' :
  create text embeddingFn onProgress c = (out, c') ->
  exists k evs,
    loop_post onProgress chunks (S (List.length chunks)) 0
              (mkConfig [] (world c) (trace c)) out c' k evs.
Proof.
  unfold create. rewrite chunkText_defaults. fold chunks.
  apply create_loop_run.
Qed.

Lemma create_events (c : Config World) out c' :
  create text embeddingFn onProgress c = (out, c') ->
  trace c' = trace c ++ events_since c c'.
Proof.
  intro Hrun. destruct (create_run c out c' Hrun) as (k & evs & Hpost).
  destruct Hpost as (_ & Htr & _). cbn [trace] in Htr.
  unfold events_since. rewrite Htr, skipn_app, skipn_all, Nat.sub_diag.
  reflexivity.
Qed.

End Create.

(** C6. After a successful [create] the store has one entry per chunk
    of the chunker's output, in the order of the chunks, whatever the
    store held before; and [create] is successful as soon as every
    embedding call it issues is fulfilled (the loop always comes to its
    end). *)
Theorem create_store_matches_chunks :
  forall (World : Type) (text : string) (embeddingFn : EmbeddingFunction World)
         (onProgress : bool) (c c' : Config World),
    (create text embeddingFn onProgress c = (Fulfilled tt, c') ->
     exists chunks,
       chunkText text 1000 200 = Some chunks
       /\ List.length (store c') = List.length chunks
       /\ map chunk (store c') = chunks
       /\ (forall i d, (i < List.length chunks)%nat ->
             chunk (nth i (store c') d) = nth i chunks EmptyString)
       /\ embed_calls (events_since c c') = chunks)
    /\ (forall out,
          create text embeddingFn onProgress c = (out, c') ->
          (forall t r, In (EmbedCall t r) (events_since c c') ->
                       exists v, r = Fulfilled v) ->
          out = Fulfilled tt).
Proof.
  intros World text embeddingFn onProgress c c'. split.
  - intro Hrun. exists (spec_windows text 1000 200).
    assert (Hev := create_events _ _ _ _ _ _ Hrun).
    destruct (create_run _ _ _ _ _ _ Hrun) as (k & evs & Hpost).
    destruct Hpost as (Hst & Htr & _ & _ & Hle & _ & Hcalls & _).
    cbn [store trace map app skipn] in *.
    rewrite Nat.add_0_l in Hle.
    rewrite firstn_all2 in Hst by exact Hle.
    assert (Hevs : events_since c c' = evs).
    { rewrite Htr in Hev. apply app_inv_head in Hev. congruence. }
    split; [apply chunkText_defaults |].
    split; [rewrite <- Hst, length_map; reflexivity |].
    split; [exact Hst |].
    split; [| rewrite Hevs; exact Hcalls].
    intros i d Hi. rewrite <- Hst.
    rewrite (nth_indep _ EmptyString (chunk d))
      by (rewrite Hst; exact Hi).
    rewrite map_nth. reflexivity.
  - intros out Hrun Hall.
    assert (Hev := create_events _ _ _ _ _ _ Hrun).
    destruct (create_run _ _ _ _ _ _ Hrun) as (k & evs & Hpost).
    destruct Hpost as (_ & Htr & _ & _ & Hout).
    cbn [trace] in Htr.
    assert (Hevs : events_since c c' = evs).
    { rewrite Htr in Hev. apply app_inv_head in Hev. congruence. }
    rewrite Hevs in Hall.
    destruct out as [[] | reason |]; [reflexivity | |].
    + destruct Hout as (_ & t & _ & Hin).
      destruct (Hall _ _ Hin) as [v Hv]. discriminate.
    + destruct Hout as [Hf | [t Hin]]; [simpl in Hf; lia |].
      destruct (Hall _ _ Hin) as [v Hv]. discriminate.
Qed.

(** C1 (amended). When an embedding call issued by [create] is
    rejected, [create] is rejected as a whole, and the store is left
    holding exactly the entries of the batches of five completed before
    the failing batch, in chunk order, and nothing of what it held
    before the call.  It is empty, so that a following [search] is
    fulfilled with the empty list without invoking the embedding
    function, when the rejection falls in the first batch; after a
    rejection in a later batch it is not empty. *)
Theorem create_rejected_leaves_completed_batches :
  forall (World : Type) (text : string) (embeddingFn : EmbeddingFunction World)
         (onProgress : bool) (c c' : Config World) (out : Outcome unit)
         (t : string) (reason : string),
    create text embeddingFn onProgress c = (out, c') ->
    In (EmbedCall t (Rejected reason)) (events_since c c') ->
    exists reason' chunks k,
      out = Rejected reason'
      /\ chunkText text 1000 200 = Some chunks
      /\ (batchSize * k < List.length chunks)%nat
      /\ map chunk (store c') = firstn (batchSize * k) chunks
      /\ List.length (store c') = (batchSize * k)%nat
      /\ (exists t',
            In t' (firstn batchSize (skipn (batchSize * k) chunks))
            /\ In (EmbedCall t' (Rejected reason')) (events_since c c'))
      /\ (k = 0%nat ->
          forall query (embeddingFn' : EmbeddingFunction World) topK,
            search query embeddingFn' topK c' = (Fulfilled [], c'))
      /\ (k <> 0%nat -> store c' <> []).
Proof.
  intros World text embeddingFn onProgress c c' out t reason Hrun Hin.
  assert (Hev := create_events _ _ _ _ _ _ Hrun).
  destruct (create_run _ _ _ _ _ _ Hrun) as (k & evs & Hpost).
  destruct Hpost as (Hst & Htr & _ & Hrej & Hout).
  cbn [store trace map app skipn] in *.
  assert (Hevs : events_since c c' = evs).
  { rewrite Htr in Hev. apply app_inv_head in Hev. congruence. }
  rewrite Hevs in *.
  destruct (Hrej _ _ Hin) as [reason' ->].
  destruct Hout as (Hlt & t' & Ht' & Hin').
  rewrite Nat.add_0_l in *.
  assert (Hlen : List.length (store c') = (batchSize * k)%nat).
  { rewrite <- (length_map chunk), Hst, length_firstn. lia. }
  exists reason', (spec_windows text 1000 200), k.
  split; [reflexivity |].
  split; [apply chunkText_defaults |].
  split; [exact Hlt |].
  split; [exact Hst |].
  split; [exact Hlen |].
  split; [exists t'; split; assumption |].
  split.
  - intros -> query embeddingFn' topK.
    unfold search. rewrite Hlen. reflexivity.
  - intros Hk Hnil. rewrite Hnil in Hlen. simpl in Hlen.
    unfold batchSize in Hlen. lia.
Qed.

(** ** [create]: the progress reports *)

Lemma embeds_before_reports_embed_events (seen : nat) (batch : list string)
    (rs : list (Outcome (list float))) (rest : list Event) :
  List.length rs = List.length batch ->
  embeds_before_reports seen (embed_events batch rs ++ rest)
  = embeds_before_reports (seen + List.length batch) rest.
Proof.
  unfold embed_events. revert seen rs.
  induction batch as [| t batch IH]; intros seen [| r rs] Hlen;
    simpl in Hlen; try discriminate.
  - simpl. rewrite Nat.add_0_r. reflexivity.
  - cbn [combine map app embeds_before_reports List.length].
    rewrite IH by lia. f_equal. lia.
Qed.

Lemma embeds_before_reports_length (seen : nat) (evs : list Event) :
  List.length (embeds_before_reports seen evs)
  = List.length (progress_calls evs).
Proof.
  revert seen. induction evs as [| [t r | p] evs IH]; intro seen; simpl;
    [reflexivity | apply IH | f_equal; apply IH].
Qed.

Section ProgressOrder.
Context {World : Type} (embeddingFn : EmbeddingFunction World).
Variable chunks : list string.

Let N := List.length chunks.

(** Every report of the loop comes right after the calls of its batch:
    when it is made, the embedding function has been invoked on
    [processedCount] chunks. *)
Lemma create_loop_order (fuel : nat) :
  forall (i seen : nat) (c : Config World) out c',
    create_loop fuel embeddingFn true chunks i c = (out, c') ->
    exists evs,
      trace c' = trace c ++ evs
      /\ embeds_before_reports seen evs
         = map (fun j => (seen + (Nat.min (i + batchSize * j) N - i))%nat)
               (seq 1 (List.length (progress_calls evs))).
Proof.
  induction fuel as [| fuel IH]; intros i seen c out c' Hrun.
  - simpl in Hrun. inversion Hrun; subst.
    exists []. rewrite app_nil_r. split; reflexivity.
  - cbn [create_loop] in Hrun. fold N in Hrun.
    destruct (Nat.ltb_spec i N) as [Hlt | Hge].
    2:{ inversion Hrun; subst. exists []. rewrite app_nil_r.
        split; reflexivity. }
    rewrite array_slice_nat in Hrun by lia.
    replace (i + batchSize - i)%nat with batchSize in Hrun by lia.
    set (batch := firstn batchSize (skipn i chunks)) in *.
    assert (Hbatch : List.length batch = (Nat.min (i + batchSize) N - i)%nat).
    { subst batch. rewrite length_firstn, length_skipn. fold N. lia. }
    destruct (call_all_spec embeddingFn batch c) as [rs [w [Hcall Hlen]]].
    rewrite Hcall in Hrun.
    destruct (Promise_all rs) as [vs | reason |] eqn:HP.
    + cbn [store world trace] in Hrun.
      destruct (IH _ (seen + List.length batch)%nat _ _ _ Hrun)
        as [evs [Htr Hord]].
      cbn [trace] in Htr.
      exists (embed_events batch rs
              ++ ProgressCall (progress_of (Nat.min (i + batchSize) N) N)
                 :: evs).
      split.
      * rewrite Htr, <- !app_assoc. reflexivity.
      * rewrite embeds_before_reports_embed_events by exact Hlen.
        rewrite progress_calls_app, progress_calls_embed_events.
        cbn [embeds_before_reports progress_calls app List.length seq map].
        f_equal; [unfold batchSize in *; lia |].
        rewrite Hord, <- (seq_shift _ 1), map_map.
        apply map_ext. intro j. unfold batchSize in *. lia.
    + inversion Hrun; subst out c'. cbn [trace].
      exists (embed_events batch rs). split; [reflexivity |].
      rewrite <- (app_nil_r (embed_events batch rs)) at 1.
      rewrite embeds_before_reports_embed_events by exact Hlen.
      rewrite progress_calls_embed_events. reflexivity.
    + inversion Hrun; subst out c'. cbn [trace].
      exists (embed_events batch rs). split; [reflexivity |].
      rewrite <- (app_nil_r (embed_events batch rs)) at 1.
      rewrite embeds_before_reports_embed_events by exact Hlen.
      rewrite progress_calls_embed_events. reflexivity.
Qed.

End ProgressOrder.

Lemma create_order {World : Type} (embeddingFn : EmbeddingFunction World)
    (text : string) (c : Config World) out c' :
  create text embeddingFn true c = (out, c') ->
  embeds_before_reports 0 (events_since c c')
  = map (fun j => Nat.min (batchSize * j)
                          (List.length (spec_windows text 1000 200)))
        (seq 1 (List.length (progress_calls (events_since c c')))).
Proof.
  intro Hrun. assert (Hev := create_events _ _ _ _ _ _ Hrun).
  unfold create in Hrun. rewrite chunkText_defaults in Hrun.
  destruct (create_loop_order embeddingFn _ _ 0 0 _ _ _ Hrun)
    as [evs [Htr Hord]].
  cbn [trace] in Htr. rewrite Htr in Hev. apply app_inv_head in Hev.
  rewrite <- Hev, Hord. apply map_ext. intro j. lia.
Qed.

Lemma nth_error_reports (chunks : list string) (k i : nat) (r : Progress) :
  nth_error (reports chunks 0 k) i = Some r ->
  (i < k)%nat
  /\ r = progress_of (Nat.min (batchSize * S i) (List.length chunks))
                     (List.length chunks).
Proof.
  intro H.
  assert (Hi : (i < k)%nat).
  { assert (Hs : nth_error (reports chunks 0 k) i <> None) by congruence.
    apply nth_error_Some in Hs. unfold reports in Hs.
    rewrite length_map, length_seq in Hs. exact Hs. }
  split; [exact Hi |].
  unfold reports in H. rewrite nth_error_map in H.
  rewrite (nth_error_nth' (seq 1 k) 0%nat) in H by (rewrite length_seq; exact Hi).
  rewrite seq_nth in H by exact Hi. cbn [option_map] in H.
  inversion H. reflexivity.
Qed.

Lemma reports_nth_error (chunks : list string) (k j : nat) :
  (1 <= j <= k)%nat ->
  nth_error (reports chunks 0 k) (j - 1)
  = Some (progress_of (Nat.min (batchSize * j) (List.length chunks))
                      (List.length chunks)).
Proof.
  intro Hj. unfold reports. rewrite nth_error_map.
  rewrite (nth_error_nth' (seq 1 k) 0%nat) by (rewrite length_seq; lia).
  rewrite seq_nth by lia. cbn [option_map].
  replace (1 + (j - 1))%nat with j by lia. reflexivity.
Qed.

Lemma batches_ceil_div (N k : nat) :
  (1 <= N)%nat -> (N <= batchSize * k)%nat ->
  (k = 0 \/ batchSize * (k - 1) < N)%nat ->
  k = Z.to_nat (ceil_div (Z.of_nat N) 5).
Proof.
  unfold batchSize, ceil_div. intros H1 H2 H3.
  assert (Hk : (Z.of_nat N + 5 - 1) / 5 = Z.of_nat k).
  { symmetry. apply Z.div_unique with (r := Z.of_nat N + 4 - 5 * Z.of_nat k); lia. }
  rewrite Hk. lia.
Qed.


(* ================================================================== *)
(** * The sort of [search] *)

Section ArraySort.
Context {A : Type} (comparefn : A -> A -> float).

Lemma insert_permutation (x : A) (l : list A) :
  Permutation (JS.insert comparefn x l) (x :: l).
Proof.
  induction l as [| y l IH]; simpl; [apply Permutation_refl |].
  destruct (JS.goes_after comparefn x y); [| apply Permutation_refl].
  apply Permutation_trans with (y :: x :: l);
    [apply perm_skip; exact IH | apply perm_swap].
Qed.

Lemma array_sort_permutation (l : list A) :
  Permutation (JS.array_sort comparefn l) l.
Proof.
  induction l as [| x l IH]; simpl; [apply perm_nil |].
  apply Permutation_trans with (x :: JS.array_sort comparefn l);
    [apply insert_permutation | apply perm_skip; exact IH].
Qed.

(** Stability.  [ok] singles out the elements on which the comparison
    function is consistent, [T] is the order of the elements in the
    array before the sort. *)
Variable ok : A -> Prop.
Variable T : A -> A -> Prop.

Hypothesis goes_after_trans :
  forall x y z, ok x -> ok y -> ok z ->
    JS.goes_after comparefn x y = true ->
    JS.goes_after comparefn y z = true ->
    JS.goes_after comparefn x z = true.

Hypothesis goes_after_neg_trans :
  forall x y z, ok x -> ok y -> ok z ->
    JS.goes_after comparefn x y = false ->
    JS.goes_after comparefn y z = false ->
    JS.goes_after comparefn x z = false.

Lemma insert_sorted (x : A) (s : list A) :
  ok x -> Forall ok s -> Forall (T x) s ->
  StronglySorted (placed_before comparefn T) s ->
  StronglySorted (placed_before comparefn T) (JS.insert comparefn x s).
Proof.
  intros Hx. induction s as [| y s IH]; intros Hok HT Hs; simpl.
  - constructor; constructor.
  - inversion Hok as [| ? ? Hy Hok']; subst.
    inversion HT as [| ? ? HTy HT']; subst.
    inversion Hs as [| ? ? Hs' Hys]; subst.
    destruct (JS.goes_after comparefn x y) eqn:Hxy.
    + constructor; [apply IH; assumption |].
      apply (Permutation_Forall (Permutation_sym (insert_permutation x s))).
      constructor; [left; exact Hxy | exact Hys].
    + constructor; [exact Hs |].
      constructor; [right; split; assumption |].
      rewrite Forall_forall in *. intros z Hz.
      right. split; [| apply HT'; exact Hz].
      destruct (Hys z Hz) as [Hzy | [Hyz _]].
      * destruct (JS.goes_after comparefn x z) eqn:Hxz; [| reflexivity].
        rewrite (goes_after_trans x z y) in Hxy; auto.
      * apply (goes_after_neg_trans x y z); auto.
Qed.

Lemma array_sort_stable (l : list A) :
  Forall ok l -> StronglySorted T l ->
  StronglySorted (placed_before comparefn T) (JS.array_sort comparefn l).
Proof.
  induction l as [| x l IH]; intros Hok Hs; simpl; [constructor |].
  inversion Hok; subst. inversion Hs; subst.
  apply insert_sorted; try assumption.
  - apply (Permutation_Forall (Permutation_sym (array_sort_permutation l))).
    assumption.
  - apply (Permutation_Forall (Permutation_sym (array_sort_permutation l))).
    assumption.
  - apply IH; assumption.
Qed.

End ArraySort.

Lemma insert_map {A B} (comparefn : A -> A -> float) (f : B -> A)
    (x : B) (l : list B) :
  JS.insert comparefn (f x) (map f l)
  = map f (JS.insert (fun a b => comparefn (f a) (f b)) x l).
Proof.
  induction l as [| y l IH]; simpl; [reflexivity |].
  unfold JS.goes_after.
  destruct (zero <? JSNumber.SortCompare (comparefn (f x) (f y)))%float;
    simpl; [rewrite IH |]; reflexivity.
Qed.

Lemma array_sort_map {A B} (comparefn : A -> A -> float) (f : B -> A)
    (l : list B) :
  JS.array_sort comparefn (map f l)
  = map f (JS.array_sort (fun a b => comparefn (f a) (f b)) l).
Proof.
  induction l as [| x l IH]; simpl; [reflexivity |].
  rewrite IH. apply insert_map.
Qed.

Lemma StronglySorted_weaken_in {A} (R R' : A -> A -> Prop) (l : list A) :
  (forall x y, In x l -> In y l -> R x y -> R' x y) ->
  StronglySorted R l -> StronglySorted R' l.
Proof.
  induction l as [| a l IH]; intros Himp Hs; [constructor |].
  inversion Hs as [| ? ? Hs' Ha]; subst.
  constructor.
  - apply IH; [| exact Hs'].
    intros x y Hx Hy. apply Himp; right; assumption.
  - rewrite Forall_forall in *. intros y Hy.
    apply Himp; [left; reflexivity | right; exact Hy | apply Ha; exact Hy].
Qed.

Lemma StronglySorted_map {A B} (R : B -> B -> Prop) (f : A -> B) (l : list A) :
  StronglySorted (fun x y => R (f x) (f y)) l -> StronglySorted R (map f l).
Proof.
  induction 1 as [| a l Hs IH Ha]; simpl; constructor; [exact IH |].
  rewrite Forall_forall in *. intros y Hy.
  apply in_map_iff in Hy. destruct Hy as [x [<- Hx]]. apply Ha. exact Hx.
Qed.

Lemma StronglySorted_seq (a n : nat) : StronglySorted lt (seq a n).
Proof.
  revert a. induction n as [| n IH]; intro a; simpl; constructor; [apply IH |].
  apply Forall_forall. intros y Hy. apply in_seq in Hy. lia.
Qed.

Lemma map_nth_seq {A B} (f : A -> B) (l : list A) (d : A) :
  map (fun i => f (nth i l d)) (seq 0 (List.length l)) = map f l.
Proof.
  induction l as [| x l IH]; simpl; [reflexivity |].
  f_equal. rewrite <- seq_shift, map_map. exact IH.
Qed.

Lemma in_firstn {A} (k : nat) (l : list A) (x : A) :
  In x (firstn k l) -> In x l.
Proof.
  intro H. rewrite <- (firstn_skipn k l). apply in_or_app. left. exact H.
Qed.

Lemma array_slice_from_0 {A} (a : list A) (k : Z) :
  JS.array_slice a 0 k = firstn (JS.relative_index (List.length a) k) a.
Proof.
  unfold JS.array_slice.
  change (JS.relative_index (List.length a) 0) with (Nat.min 0 (List.length a)).
  rewrite Nat.min_0_l, Nat.sub_0_r. reflexivity.
Qed.

(** ** The ranking computed by [search] *)

Section Ranking.
Variable q : list float.
Variable entries : list VectorStoreEntry.
Hypothesis numbers : scores_are_numbers q entries.

Let n := List.length entries.

Let tag_ok (p : nat * Scored) : Prop :=
  (fst p < n)%nat /\ snd p = score q (entry_at entries (fst p)).

Lemma tagged_ok : Forall tag_ok (indexed_scores q entries).
Proof.
  apply Forall_forall. intros p Hp. unfold indexed_scores in *.
  apply in_map_iff in Hp. destruct Hp as [i [<- Hi]].
  apply in_seq in Hi. split; simpl; [lia | reflexivity].
Qed.

Lemma tagged_scores : map snd (indexed_scores q entries) = map (score q) entries.
Proof.
  unfold indexed_scores in *. rewrite map_map. cbn [snd].
  apply (map_nth_seq (score q) entries).
Qed.

Lemma tagged_indices : map fst (indexed_scores q entries) = seq 0 n.
Proof.
  unfold indexed_scores in *. rewrite map_map. cbn [fst]. apply map_id.
Qed.

Lemma goes_after_tagged (a b : nat * Scored) :
  tag_ok a -> tag_ok b ->
  JS.goes_after by_indexed_similarity a b
  = (score_at q entries (fst a) <? score_at q entries (fst b))%float.
Proof.
  intros [Ha Ea] [Hb Eb]. unfold JS.goes_after, by_indexed_similarity, by_similarity.
  rewrite SortCompare_pos, Ea, Eb. cbn [score similarity].
  apply sub_pos_ltb; apply numbers; assumption.
Qed.

Lemma sorted_tagged_ok : Forall tag_ok (JS.array_sort by_indexed_similarity (indexed_scores q entries)).
Proof.
  apply (Permutation_Forall
           (Permutation_sym (array_sort_permutation by_indexed_similarity (indexed_scores q entries)))).
  apply tagged_ok.
Qed.

Lemma ranking_permutation : Permutation (ranking q entries) (seq 0 n).
Proof.
  unfold ranking. rewrite <- tagged_indices.
  apply Permutation_map. apply array_sort_permutation.
Qed.

Lemma ranking_sorted : StronglySorted (ranks_before q entries) (ranking q entries).
Proof.
  unfold ranking. apply StronglySorted_map.
  apply StronglySorted_weaken_in
    with (R := placed_before by_indexed_similarity (fun a b => (fst a < fst b)%nat)).
  - intros a b Ha Hb Hab.
    assert (Oa : tag_ok a)
      by (exact (proj1 (Forall_forall _ _) sorted_tagged_ok a Ha)).
    assert (Ob : tag_ok b)
      by (exact (proj1 (Forall_forall _ _) sorted_tagged_ok b Hb)).
    unfold placed_before in Hab.
    rewrite (goes_after_tagged b a Ob Oa), (goes_after_tagged a b Oa Ob) in Hab.
    unfold ranks_before.
    destruct Hab as [Hlt | [Hnlt Hidx]]; [left; exact Hlt |].
    destruct (score_at q entries (fst b) <? score_at q entries (fst a))%float
      eqn:Hba; [left; reflexivity | right].
    split; [| exact Hidx].
    apply eqb_of_not_ltb; try assumption; apply numbers;
      [apply Oa | apply Ob].
  - apply array_sort_stable with (ok := tag_ok).
    + intros x y z Ox Oy Oz.
      rewrite (goes_after_tagged x y Ox Oy), (goes_after_tagged y z Oy Oz),
        (goes_after_tagged x z Ox Oz).
      apply ltb_trans.
    + intros x y z Ox Oy Oz.
      rewrite (goes_after_tagged x y Ox Oy), (goes_after_tagged y z Oy Oz),
        (goes_after_tagged x z Ox Oz).
      apply ltb_neg_trans; apply numbers; [apply Ox | apply Oy | apply Oz].
    + apply tagged_ok.
    + unfold indexed_scores in *. apply StronglySorted_map. cbn [fst].
      apply StronglySorted_seq.
Qed.

Lemma rank_ranking (topK : Z) :
  rank q entries topK
  = map (fun i => chunk (entry_at entries i))
        (firstn (JS.relative_index n topK) (ranking q entries)).
Proof.
  unfold rank, ranking.
  rewrite <- tagged_scores.
  rewrite (array_sort_map by_similarity snd (indexed_scores q entries)).
  fold by_indexed_similarity.
  rewrite array_slice_from_0, length_map.
  rewrite (Permutation_length (array_sort_permutation by_indexed_similarity (indexed_scores q entries))).
  replace (List.length (indexed_scores q entries)) with n
    by (unfold indexed_scores; rewrite length_map, length_seq; reflexivity).
  rewrite !firstn_map, !map_map.
  apply map_ext_in. intros p Hp.
  apply in_firstn in Hp.
  destruct (proj1 (Forall_forall _ _) sorted_tagged_ok p Hp) as [_ ->].
  reflexivity.
Qed.

End Ranking.

Lemma firstn_min_length {A} (k : nat) (l : list A) :
  firstn (Nat.min k (List.length l)) l = firstn k l.
Proof.
  destruct (Nat.le_gt_cases k (List.length l)) as [H | H].
  - rewrite Nat.min_l by exact H. reflexivity.
  - rewrite Nat.min_r by lia. rewrite firstn_all, firstn_all2 by lia. reflexivity.
Qed.

Lemma StronglySorted_firstn_skipn {A} (R : A -> A -> Prop) (k : nat)
    (l : list A) (x y : A) :
  StronglySorted R l -> In x (firstn k l) -> In y (skipn k l) -> R x y.
Proof.
  intro Hs. revert k. induction Hs as [| a l Hs IH Ha]; intros k Hx Hy.
  - rewrite firstn_nil in Hx. contradiction.
  - destruct k as [| k]; [simpl in Hx; contradiction |].
    simpl in Hx, Hy. destruct Hx as [<- | Hx].
    + rewrite Forall_forall in Ha. apply Ha.
      rewrite <- (firstn_skipn k l). apply in_or_app. right. exact Hy.
    + exact (IH k Hx Hy).
Qed.

Lemma search_fulfilled {World : Type} (c : Config World) (query : string)
    (embeddingFn : EmbeddingFunction World) (topK : Z) (q : list float) :
  store c <> [] ->
  fst (embeddingFn query (world c)) = Fulfilled q ->
  fst (search query embeddingFn topK c) = Fulfilled (rank q (store c) topK).
Proof.
  intros Hne Hq. unfold search.
  destruct (store c) as [| e es] eqn:Hs; [congruence |].
  cbn [List.length Nat.eqb]. rewrite call_spec, Hq. cbn [fst store].
  rewrite Hs. reflexivity.
Qed.

(** C3 (amended). On a non-empty store, with [topK >= 1] and no score
    that is NaN, [search] returns the chunk texts of the first [topK]
    indices of the ranking, which lists every index of the store once,
    by descending score and, among numerically equal scores, in
    insertion order: every returned entry ranks before every entry left
    out, and with [topK] at least the size of the store all entries are
    returned.  (That the embeddings have one dimension is not needed.) *)
Theorem search_returns_top_ranked :
  forall (World : Type) (c : Config World) (query : string)
         (embeddingFn : EmbeddingFunction World) (topK : Z) (q : list float),
    store c <> [] ->
    1 <= topK ->
    fst (embeddingFn query (world c)) = Fulfilled q ->
    scores_are_numbers q (store c) ->
    let order := ranking q (store c) in
    let chunk_of := fun i => chunk (entry_at (store c) i) in
    Permutation order (seq 0 (List.length (store c)))
    /\ StronglySorted (ranks_before q (store c)) order
    /\ fst (search query embeddingFn topK c)
       = Fulfilled (map chunk_of (firstn (Z.to_nat topK) order))
    /\ (forall i j, In i (firstn (Z.to_nat topK) order) ->
                    In j (skipn (Z.to_nat topK) order) ->
                    ranks_before q (store c) i j)
    /\ (Z.of_nat (List.length (store c)) <= topK ->
        fst (search query embeddingFn topK c) = Fulfilled (map chunk_of order)).
Proof.
  intros World c query embeddingFn topK q Hne HK Hq Hnum order chunk_of.
  assert (Hperm := ranking_permutation q (store c)).
  assert (Hsorted := ranking_sorted q (store c) Hnum).
  assert (Hlen : List.length order = List.length (store c)).
  { subst order. rewrite (Permutation_length Hperm), length_seq. reflexivity. }
  assert (Hres : fst (search query embeddingFn topK c)
                 = Fulfilled (map chunk_of (firstn (Z.to_nat topK) order))).
  { rewrite (search_fulfilled c query embeddingFn topK q Hne Hq).
    rewrite (rank_ranking q (store c)). fold order. f_equal. f_equal.
    unfold JS.relative_index.
    destruct (Z.ltb_spec topK 0) as [? | _]; [lia |].
    rewrite <- Hlen. apply firstn_min_length. }
  split; [exact Hperm |].
  split; [exact Hsorted |].
  split; [exact Hres |].
  split.
  - intros i j Hi Hj.
    exact (StronglySorted_firstn_skipn _ _ _ _ _ Hsorted Hi Hj).
  - intro Hall. rewrite Hres. rewrite firstn_all2 by lia. reflexivity.
Qed.

(** C8 (amended). On a store with at least three entries, and for any
    query embedding (so in particular one identical to the embedding of
    entry 2), [search] with [topK = 1] returns exactly the chunk of
    entry 2 when no score is NaN, the score of entry 2 is strictly above
    the scores of entries 0 and 1 and no later entry scores strictly
    higher. *)
Theorem search_top1_is_entry_2 :
  forall (World : Type) (c : Config World) (query : string)
         (embeddingFn : EmbeddingFunction World) (q : list float),
    (2 < List.length (store c))%nat ->
    fst (embeddingFn query (world c)) = Fulfilled q ->
    scores_are_numbers q (store c) ->
    (forall i, (i < 2)%nat ->
       (score_at q (store c) i <? score_at q (store c) 2)%float = true) ->
    (forall i, (2 < i < List.length (store c))%nat ->
       (score_at q (store c) 2 <? score_at q (store c) i)%float = false) ->
    fst (search query embeddingFn 1 c)
    = Fulfilled [chunk (entry_at (store c) 2)].
Proof.
  intros World c query embeddingFn q Hlen Hq Hnum Hbefore Hafter.
  assert (Hne : store c <> []) by (destruct (store c); simpl in *; [lia | discriminate]).
  rewrite (search_fulfilled c query embeddingFn 1 q Hne Hq).
  rewrite (rank_ranking q (store c)).
  assert (Hperm := ranking_permutation q (store c)).
  assert (Hsorted := ranking_sorted q (store c) Hnum).
  change (JS.relative_index (List.length (store c)) 1)
    with (Nat.min 1 (List.length (store c))).
  rewrite Nat.min_l by lia.
  destruct (ranking q (store c)) as [| h rest] eqn:Horder.
  { apply Permutation_length in Hperm. rewrite length_seq in Hperm.
    simpl in Hperm. lia. }
  cbn [firstn map]. assert (H2' : h = 2%nat); [| rewrite H2'; reflexivity].
  assert (Hh : In h (seq 0 (List.length (store c))))
    by (apply (Permutation_in _ Hperm); left; reflexivity).
  apply in_seq in Hh.
  assert (H2 : In 2%nat (h :: rest)).
  { apply (Permutation_in _ (Permutation_sym Hperm)). apply in_seq. lia. }
  destruct H2 as [H2 | H2]; [exact H2 | exfalso].
  inversion Hsorted as [| ? ? _ Hall]; subst.
  rewrite Forall_forall in Hall. specialize (Hall _ H2).
  destruct Hall as [Hlt | [Heq Hidx]].
  - destruct (Nat.lt_trichotomy h 2) as [Hh2 | [Hh2 | Hh2]].
    + rewrite (ltb_asym _ _ (Hbefore h Hh2)) in Hlt. discriminate.
    + subst h. rewrite ltb_irrefl in Hlt. discriminate.
    + rewrite (Hafter h ltac:(lia)) in Hlt. discriminate.
  - apply eqb_not_ltb in Heq. destruct Heq as [Heq _].
    rewrite (Hbefore h Hidx) in Heq. discriminate.
Qed.

(* ================================================================== *)
(** * Cosine similarity *)

Lemma cosineSimilarity_unfold (a b : list float) :
  cosineSimilarity a b
  = if ((norm_sq_first a b =? zero) || (norm_sq_second a b =? zero))%float
    then zero
    else (dot_product a b
          / (sqrt (norm_sq_first a b) * sqrt (norm_sq_second a b)))%float.
Proof.
  unfold cosineSimilarity, dot_product, norm_sq_first, norm_sq_second.
  destruct (cosine_sums a b) as [[d na] nb]. reflexivity.
Qed.

Lemma cosine_fold_nonneg (a b : list float) (idx : list nat) :
  forall acc,
    nonneg_sf (Prim2SF (snd (fst acc))) -> nonneg_sf (Prim2SF (snd acc)) ->
    nonneg_sf (Prim2SF (snd (fst (fold_left (cosine_step a b) idx acc))))
    /\ nonneg_sf (Prim2SF (snd (fold_left (cosine_step a b) idx acc))).
Proof.
  induction idx as [| i idx IH]; intros [[d na] nb] Ha Hb; cbn [fold_left];
    [split; assumption |].
  apply IH; cbn [cosine_step fst snd] in *;
    rewrite add_spec, mul_spec; apply SFadd_nonneg; try assumption;
    apply SFmul_self_nonneg.
Qed.

Lemma norms_nonneg (a b : list float) :
  nonneg_sf (Prim2SF (norm_sq_first a b))
  /\ nonneg_sf (Prim2SF (norm_sq_second a b)).
Proof.
  unfold norm_sq_first, norm_sq_second, cosine_sums.
  apply cosine_fold_nonneg; exact I.
Qed.

Lemma cosine_fold_zero_first (a b : list float) (idx : list nat) :
  (forall i, In i idx -> is_zero (JS.number_at a i) = true) ->
  forall d nb,
    snd (fst (fold_left (cosine_step a b) idx (d, zero, nb))) = zero.
Proof.
  induction idx as [| i idx IH]; intros Hz d nb; cbn [fold_left];
    [reflexivity |].
  cbn [cosine_step].
  rewrite (square_zero (JS.number_at a i)) by (apply Hz; left; reflexivity).
  rewrite add_zero_zero. apply IH. intros j Hj. apply Hz. right. exact Hj.
Qed.

Lemma cosine_fold_zero_second (a b : list float) (idx : list nat) :
  (forall i, In i idx -> is_zero (JS.number_at b i) = true) ->
  forall d na,
    snd (fold_left (cosine_step a b) idx (d, na, zero)) = zero.
Proof.
  induction idx as [| i idx IH]; intros Hz d na; cbn [fold_left];
    [reflexivity |].
  cbn [cosine_step].
  rewrite (square_zero (JS.number_at b i)) by (apply Hz; left; reflexivity).
  rewrite add_zero_zero. apply IH. intros j Hj. apply Hz. right. exact Hj.
Qed.

Lemma number_at_in (v : list float) (i : nat) :
  (i < List.length v)%nat -> In (JS.number_at v i) v.
Proof. intro H. unfold JS.number_at. apply nth_In. exact H. Qed.

Lemma norm_sq_first_zero (a b : list float) :
  all_zero a -> norm_sq_first a b = zero.
Proof.
  intro Hz. unfold norm_sq_first, cosine_sums.
  apply cosine_fold_zero_first. intros i Hi. apply in_seq in Hi.
  unfold all_zero in Hz. rewrite Forall_forall in Hz.
  apply Hz. apply number_at_in. lia.
Qed.

Lemma norm_sq_second_zero (a b : list float) :
  (List.length a <= List.length b)%nat -> all_zero b ->
  norm_sq_second a b = zero.
Proof.
  intros Hlen Hz. unfold norm_sq_second, cosine_sums.
  apply cosine_fold_zero_second. intros i Hi. apply in_seq in Hi.
  unfold all_zero in Hz. rewrite Forall_forall in Hz.
  apply Hz. apply number_at_in. lia.
Qed.

Lemma nonzero_nonneg_positive (x : float) :
  (x =? zero)%float = false -> nonneg_sf (Prim2SF x) ->
  positive_result (Prim2SF x) \/ Prim2SF x = S754_nan.
Proof.
  rewrite eqb_spec, Prim2SF_zero.
  destruct (Prim2SF x) as [s | s | | s m e]; intros Hz Hn.
  - discriminate.
  - destruct s; [contradiction | left; right; reflexivity].
  - right; reflexivity.
  - destruct s; [contradiction | left; left; eauto].
Qed.

Lemma is_zero_nan_false (x : float) :
  Prim2SF x = S754_nan -> is_zero x = false.
Proof. intro H. unfold is_zero. rewrite eqb_spec, H. reflexivity. Qed.

Lemma is_zero_positive_false (x : float) :
  positive_result (Prim2SF x) -> is_zero x = false.
Proof.
  unfold is_zero. rewrite eqb_spec, Prim2SF_zero.
  intros [[m [e ->]] | ->]; reflexivity.
Qed.

(** Past the guard the divisor is never a zero. *)
Lemma divisor_not_zero (a b : list float) :
  (norm_sq_first a b =? zero)%float = false ->
  (norm_sq_second a b =? zero)%float = false ->
  is_zero (sqrt (norm_sq_first a b) * sqrt (norm_sq_second a b)) = false.
Proof.
  intros Ha Hb. destruct (norms_nonneg a b) as [Na Nb].
  destruct (nonzero_nonneg_positive _ Ha Na) as [Pa | Ea];
    destruct (nonzero_nonneg_positive _ Hb Nb) as [Pb | Eb].
  - apply is_zero_positive_false. apply sqrt_mul_sqrt_positive; assumption.
  - apply is_zero_nan_false. rewrite mul_spec, (sqrt_spec (norm_sq_second a b)), Eb.
    unfold SF64mul, SF64sqrt. cbn [SFsqrt].
    destruct (Prim2SF (sqrt (norm_sq_first a b))); reflexivity.
  - apply is_zero_nan_false. rewrite mul_spec, (sqrt_spec (norm_sq_first a b)), Ea.
    reflexivity.
  - apply is_zero_nan_false. rewrite mul_spec, (sqrt_spec (norm_sq_first a b)), Ea.
    reflexivity.
Qed.

(** With finite sums the result is a number. *)
Lemma cosineSimilarity_finite_sums (a b : list float) :
  is_finite (dot_product a b) = true ->
  is_finite (norm_sq_first a b) = true ->
  is_finite (norm_sq_second a b) = true ->
  is_nan (cosineSimilarity a b) = false.
Proof.
  intros Fd Fa Fb. rewrite cosineSimilarity_unfold.
  destruct (norm_sq_first a b =? zero)%float eqn:Za; [reflexivity |].
  destruct (norm_sq_second a b =? zero)%float eqn:Zb; [reflexivity |].
  cbn [orb]. destruct (norms_nonneg a b) as [Na Nb].
  destruct (nonzero_nonneg_positive _ Za Na) as [Pa | Ea].
  2:{ apply is_finite_Prim2SF in Fa. rewrite Ea in Fa.
      destruct Fa as [[s Fa] | [s [m [e Fa]]]]; discriminate. }
  destruct (nonzero_nonneg_positive _ Zb Nb) as [Pb | Eb].
  2:{ apply is_finite_Prim2SF in Fb. rewrite Eb in Fb.
      destruct Fb as [[s Fb] | [s [m [e Fb]]]]; discriminate. }
  assert (Hp := sqrt_mul_sqrt_positive _ _ Pa Pb).
  assert (Hd := SFdiv_not_nan _ _ (is_finite_Prim2SF _ Fd) Hp).
  rewrite <- div_spec in Hd.
  destruct (is_nan (dot_product a b
                    / (sqrt (norm_sq_first a b) * sqrt (norm_sq_second a b))))
    eqn:E; [| reflexivity].
  apply is_nan_true in E. contradiction.
Qed.




(* ================================================================== *)
(** * Concrete runs *)

(** C1, counterexample.  The sixth call (the first of the second
    batch) is rejected: [create] is rejected, yet the store holds the
    five entries of the first batch, and a following [search] invokes
    the embedding function and returns three of their chunks. *)
Lemma create_rejected_partial_store :
  fst (create long_text (counting_stub 5) false (fresh 0%nat))
    = Rejected "quota exceeded"
  /\ List.length
       (store (snd (create long_text (counting_stub 5) false (fresh 0%nat))))
     = 5%nat
  /\ (let c' := snd (create long_text (counting_stub 5) false (fresh 0%nat)) in
      let res := search "query" (counting_stub 5) 3 c' in
      embed_calls (events_since c' (snd res)) = ["query"%string]
      /\ exists l, fst res = Fulfilled l /\ List.length l = 3%nat).
Proof.
  split; [vm_compute; reflexivity |].
  split; [vm_compute; reflexivity |].
  split; [vm_compute; reflexivity |].
  eexists. split; [vm_compute; reflexivity | reflexivity].
Qed.

Lemma create_rejected_leaves_completed_batches_witness :
  exists reason' chunks k,
    fst (create long_text (counting_stub 5) false (fresh 0%nat))
      = Rejected reason'
    /\ chunkText long_text 1000 200 = Some chunks
    /\ (batchSize * k < List.length chunks)%nat
    /\ List.length
         (store (snd (create long_text (counting_stub 5) false (fresh 0%nat))))
       = (batchSize * k)%nat.
Proof.
  destruct (create_rejected_leaves_completed_batches nat long_text
              (counting_stub 5) false (fresh 0%nat)
              (snd (create long_text (counting_stub 5) false (fresh 0%nat)))
              (fst (create long_text (counting_stub 5) false (fresh 0%nat)))
              (substring 4000 1000 long_text) "quota exceeded")
    as (reason' & chunks & k & H1 & H2 & H3 & _ & H5 & _).
  - vm_compute. reflexivity.
  - vm_compute. do 5 right. left. reflexivity.
  - exists reason', chunks, k. repeat split; assumption.
Defined.

(** C2, a run: ten characters in windows of four with stride three. *)
Lemma chunkText_is_window_sequence_witness :
  chunkText "abcdefghij" 4 1 = Some ["abcd"; "defg"; "ghij"]%string.
Proof.
  destruct (chunkText_is_window_sequence "abcdefghij" 4 1) as [H _];
    [lia | lia |].
  rewrite H. vm_compute. reflexivity.
Defined.

(** C3, counterexample.  The three embeddings and the query embedding
    have dimension 2; the score of "b" overflows to NaN, the comparison
    function then answers NaN against it, nothing moves, and [search]
    with [topK = 1] returns "a" although "c" scores strictly higher. *)
Lemma search_nan_score_misranks :
  Forall (fun e => List.length (embedding e) = List.length big_query)
         overflowing
  /\ fst (search "query" (constant_stub big_query) 1
                 (mkConfig overflowing tt []))
     = Fulfilled ["a"%string]
  /\ is_nan (score_at big_query overflowing 1) = true
  /\ (score_at big_query overflowing 0 <? score_at big_query overflowing 2)%float
     = true.
Proof.
  split; [repeat constructor |].
  repeat split; vm_compute; reflexivity.
Qed.

Lemma search_returns_top_ranked_witness :
  fst (search "query" (constant_stub [0%float; 0%float; 1%float]) 3
              (mkConfig one_hot tt []))
  = Fulfilled ["c"; "d"; "a"]%string.
Proof.
  destruct (search_returns_top_ranked unit (mkConfig one_hot tt []) "query"
              (constant_stub [0%float; 0%float; 1%float]) 3
              [0%float; 0%float; 1%float])
    as (_ & _ & H & _).
  - discriminate.
  - lia.
  - reflexivity.
  - intros i Hi. do 4 (destruct i as [| i]; [vm_compute; reflexivity |]).
    simpl in Hi. lia.
  - rewrite H. vm_compute. reflexivity.
Defined.

(** C8, counterexample.  Three entries with one and the same embedding:
    the query embedding is that of entry 2, all three scores are 1, and
    [search] with [topK = 1] returns the chunk of entry 0. *)
Lemma search_identical_embedding_returns_first :
  embedding (entry_at three_equal 2) = [1%float; 0%float]
  /\ fst (search "query" (constant_stub [1%float; 0%float]) 1
                 (mkConfig three_equal tt []))
     = Fulfilled [chunk (entry_at three_equal 0)]
  /\ chunk (entry_at three_equal 0) <> chunk (entry_at three_equal 2).
Proof.
  split; [reflexivity |].
  split; [vm_compute; reflexivity | discriminate].
Qed.

Lemma search_top1_is_entry_2_witness :
  fst (search "query" (constant_stub [0%float; 0%float; 1%float]) 1
              (mkConfig one_hot tt []))
  = Fulfilled ["c"%string].
Proof.
  apply (search_top1_is_entry_2 unit (mkConfig one_hot tt []) "query"
           (constant_stub [0%float; 0%float; 1%float])
           [0%float; 0%float; 1%float]).
  - simpl. lia.
  - reflexivity.
  - intros i Hi. do 4 (destruct i as [| i]; [vm_compute; reflexivity |]).
    simpl in Hi. lia.
  - intros i Hi. do 2 (destruct i as [| i]; [vm_compute; reflexivity |]). lia.
  - intros i Hi. cbn [store List.length one_hot] in Hi.
    do 3 (destruct i as [| i]; [lia |]).
    destruct i as [| i]; [vm_compute; reflexivity | lia].
Defined.

Lemma create_store_matches_chunks_witness :
  exists chunks,
    chunkText long_text 1000 200 = Some chunks
    /\ List.length chunks = 6%nat
    /\ map chunk
         (store (snd (create long_text (counting_stub 100) true
                        (mkConfig [stale_entry] 0%nat []))))
       = chunks.
Proof.
  destruct (create_store_matches_chunks nat long_text (counting_stub 100) true
              (mkConfig [stale_entry] 0%nat [])
              (snd (create long_text (counting_stub 100) true
                      (mkConfig [stale_entry] 0%nat []))))
    as [H _].
  destruct H as (chunks & H1 & H2 & H3 & _).
  - vm_compute. reflexivity.
  - exists chunks. split; [exact H1 |]. split; [| exact H3].
    rewrite <- H2. vm_compute. reflexivity.
Defined.

Lemma search_top0_one_call_witness :
  embed_calls
    (events_since (mkConfig one_hot 0%nat [])
       (snd (search "query" (counting_stub 100) 0 (mkConfig one_hot 0%nat []))))
  = ["query"%string]
  /\ fst (search "query" (counting_stub 100) 0 (mkConfig one_hot 0%nat []))
     = Fulfilled [].
Proof.
  destruct (search_top0_one_call nat (mkConfig one_hot 0%nat []) "query"
              (counting_stub 100))
    as (_ & H1 & _ & H2).
  - discriminate.
  - split; [exact H1 | exact H2].
Defined.

Lemma cosine_ignores_trailing_components_witness :
  fst (search "query" (constant_stub [0%float; 1%float]) 2
              (mkConfig one_hot tt []))
  = fst (search "query" (constant_stub [0%float; 1%float]) 2
                (mkConfig (map (truncate_entry 2) one_hot) tt [])).
Proof.
  destruct cosine_ignores_trailing_components as (_ & _ & H).
  apply (H unit (mkConfig one_hot tt []) "query"
           (constant_stub [0%float; 1%float]) 2 [0%float; 1%float]).
  reflexivity.
Defined.


(** The percentage is computed on binary64 numbers: after 115 of 200
    chunks the quotient is just below 0.575, its product by 100 just
    below 57.5, and the report is 57. *)
Lemma percentage_of_115_200 : percentage_of 115 200 = 57%float.
Proof. vm_compute. reflexivity. Qed.

(* ================================================================== *)
(** * Further properties of the chunker *)

Lemma substring_past_end (n m : nat) (s : string) :
  (String.length s <= n)%nat -> substring n m s = EmptyString.
Proof.
  revert n m. induction s as [| a s IH]; intros n m H.
  - destruct n, m; reflexivity.
  - destruct n as [| n]; simpl in H; [lia |]. simpl. apply IH. lia.
Qed.

Lemma substring_adjacent (n a b : nat) (s : string) :
  (substring n a s ++ substring (n + a) b s)%string = substring n (a + b) s.
Proof.
  revert n a. induction s as [| c s IH]; intros n a.
  - destruct n, a, b; reflexivity.
  - destruct n as [| n].
    + destruct a as [| a]; [reflexivity |].
      cbn [substring Nat.add append]. f_equal. apply (IH 0%nat a).
    + cbn [substring Nat.add]. apply IH.
Qed.

Lemma substring_adjacent_eq (p a q b p' c : nat) (s : string) :
  q = (p + a)%nat -> p' = p -> c = (a + b)%nat ->
  (substring p a s ++ substring q b s)%string = substring p' c s.
Proof. intros -> -> ->. apply substring_adjacent. Qed.

Lemma substring_substring (n m a b : nat) (s : string) :
  (a + b <= m)%nat ->
  substring a b (substring n m s) = substring (n + a) b s.
Proof.
  revert n m a b. induction s as [| c s IH]; intros n m a b H.
  - destruct n, m; simpl; destruct a, b; reflexivity.
  - destruct n as [| n].
    + destruct m as [| m].
      * assert (a = 0%nat) by lia. assert (b = 0%nat) by lia. subst.
        reflexivity.
      * cbn [substring Nat.add].
        destruct a as [| a].
        -- destruct b as [| b]; [reflexivity |].
           cbn [substring]. f_equal.
           apply (IH 0%nat m 0%nat b). lia.
        -- cbn [substring]. apply (IH 0%nat m a b). lia.
    + cbn [substring Nat.add]. apply IH. exact H.
Qed.

Lemma length_substring_le (n m : nat) (s : string) :
  String.length (substring n m s) = Nat.min m (String.length s - n).
Proof.
  revert n m. induction s as [| c s IH]; intros n m.
  - destruct n, m; reflexivity.
  - destruct n as [| n].
    + destruct m as [| m]; [reflexivity |]. simpl. rewrite IH.
      rewrite Nat.sub_0_r. reflexivity.
    + simpl. apply IH.
Qed.

Lemma window_start_S (chunkSize overlap : Z) (k : nat) :
  window_start chunkSize overlap (S k)
  = window_start chunkSize overlap k + (chunkSize - overlap).
Proof. unfold window_start. lia. Qed.

Lemma window_start_nonneg (chunkSize overlap : Z) (k : nat) :
  overlap < chunkSize -> 0 <= window_start chunkSize overlap k.
Proof. unfold window_start. nia. Qed.

Section ChunkOverlap.
Variable text : string.
Variables chunkSize overlap : Z.
Hypothesis overlap_nonneg : 0 <= overlap.
Hypothesis overlap_small : overlap < chunkSize.

Let len := Z.of_nat (String.length text).

(** A window that does not reach the end of the text is full. *)
Lemma window_full (k : nat) :
  reaches_end text chunkSize overlap k = false ->
  window text chunkSize overlap k
  = substring (Z.to_nat (window_start chunkSize overlap k))
              (Z.to_nat chunkSize) text.
Proof.
  unfold reaches_end, window. intro H. apply Z.leb_gt in H.
  cbv zeta. f_equal. lia.
Qed.

Lemma window_overlap (k : nat) :
  reaches_end text chunkSize overlap k = false ->
  substring (Z.to_nat (chunkSize - overlap)) (Z.to_nat overlap)
            (window text chunkSize overlap k)
  = substring 0 (Z.to_nat overlap) (window text chunkSize overlap (S k))
  /\ String.length (window text chunkSize overlap k) = Z.to_nat chunkSize
  /\ (Z.to_nat overlap < String.length (window text chunkSize overlap (S k)))%nat.
Proof.
  intro H. rewrite (window_full k H).
  unfold reaches_end in H. apply Z.leb_gt in H.
  assert (H0 := window_start_nonneg chunkSize overlap k overlap_small).
  assert (HS := window_start_S chunkSize overlap k).
  unfold window at 1 2. cbv zeta. rewrite HS.
  set (ws := window_start chunkSize overlap k) in *.
  split; [| split].
  - rewrite !substring_substring by lia.
    f_equal. lia.
  - rewrite length_substring_le. lia.
  - rewrite length_substring_le. lia.
Qed.

(** What is left of the text after window [j], put together from the
    windows that follow it. *)
Lemma stitch_rest_windows (n : nat) :
  forall j : nat,
    (forall i, (j <= i < j + n)%nat ->
               reaches_end text chunkSize overlap i = false) ->
    reaches_end text chunkSize overlap (j + n) = true ->
    stitch_rest (Z.to_nat overlap)
      (map (window text chunkSize overlap) (seq (S j) n))
    = substring
        (Z.to_nat (Z.min (window_start chunkSize overlap j + chunkSize) len))
        (String.length text
         - Z.to_nat (Z.min (window_start chunkSize overlap j + chunkSize) len))
        text.
Proof.
  induction n as [| n IH]; intros j Hbefore Hlast.
  - rewrite Nat.add_0_r in Hlast. unfold reaches_end in Hlast.
    apply Z.leb_le in Hlast. fold len in Hlast.
    cbn [seq map stitch_rest]. symmetry. apply substring_past_end. lia.
  - cbn [seq map stitch_rest].
    rewrite (IH (S j)).
    2:{ intros i Hi. apply Hbefore. lia. }
    2:{ replace (S j + n)%nat with (j + S n)%nat by lia. exact Hlast. }
    assert (Hj : reaches_end text chunkSize overlap j = false)
      by (apply Hbefore; lia).
    unfold reaches_end in Hj. apply Z.leb_gt in Hj. fold len in Hj.
    assert (H0 := window_start_nonneg chunkSize overlap j overlap_small).
    assert (HS := window_start_S chunkSize overlap j).
    unfold drop_prefix, window. cbv zeta. fold len.
    rewrite length_substring_le, HS.
    set (ws := window_start chunkSize overlap j) in *.
    rewrite substring_substring by lia.
    apply substring_adjacent_eq; lia.
Qed.

End ChunkOverlap.

Lemma nth_map_seq {A} (f : nat -> A) (a n k : nat) (d : A) :
  (k < n)%nat -> nth k (map f (seq a n)) d = f (a + k)%nat.
Proof.
  intro H.
  rewrite (nth_indep _ d (f 0%nat))
    by (rewrite length_map, length_seq; exact H).
  rewrite map_nth, seq_nth by exact H. reflexivity.
Qed.

Lemma length_zero_empty (s : string) :
  String.length s = 0%nat -> s = EmptyString.
Proof. destruct s; [reflexivity | discriminate]. Qed.

(** X1.  Consecutive chunks overlap: every chunk but the last has exactly
    [chunkSize] characters, and its last [overlap] characters are the
    first [overlap] characters of the next chunk, which is longer than
    [overlap]; no chunk is empty or longer than [chunkSize]. *)
Theorem chunkText_consecutive_chunks_overlap :
  forall (text : string) (chunkSize overlap : Z) (chunks : list string),
    0 <= overlap -> overlap < chunkSize ->
    chunkText text chunkSize overlap = Some chunks ->
    (forall k, (S k < List.length chunks)%nat ->
       String.length (nth k chunks EmptyString) = Z.to_nat chunkSize
       /\ (Z.to_nat overlap < String.length (nth (S k) chunks EmptyString))%nat
       /\ substring (Z.to_nat (chunkSize - overlap)) (Z.to_nat overlap)
                    (nth k chunks EmptyString)
          = substring 0 (Z.to_nat overlap) (nth (S k) chunks EmptyString))
    /\ Forall (fun c => (1 <= String.length c <= Z.to_nat chunkSize)%nat)
              chunks.
Proof.
  intros text chunkSize overlap chunks H0 H1 Hc.
  rewrite chunkText_spec_windows in Hc by assumption.
  injection Hc as <-.
  destruct (Nat.eq_dec (String.length text) 0) as [He | Hne].
  { unfold spec_windows. rewrite He. cbn [Nat.eqb List.length].
    split; [intros k Hk; simpl in Hk; lia | constructor]. }
  destruct (spec_windows_shape text chunkSize overlap H0 H1 Hne)
    as (last & Hlast & Hws & Hend & Hbefore & Hstart).
  rewrite Hws. rewrite length_map, length_seq. split.
  - intros k Hk.
    rewrite !nth_map_seq by lia. cbn [Nat.add].
    destruct (window_overlap text chunkSize overlap H0 H1 k) as (Ha & Hb & Hc);
      [apply Hbefore; lia |].
    repeat split; assumption.
  - apply Forall_forall. intros c Hin.
    apply in_map_iff in Hin. destruct Hin as (k & <- & Hk).
    apply in_seq in Hk.
    assert (Hs := Hstart k ltac:(lia)).
    assert (Hl := window_length text chunkSize overlap H0 H1 k Hs).
    assert (Hp := window_start_nonneg chunkSize overlap k H1).
    lia.
Qed.

(** X2.  The chunks cover the text: the first chunk followed by every later
    chunk without its first [overlap] characters is the text. *)
Theorem chunkText_stitch_is_text :
  forall (text : string) (chunkSize overlap : Z) (chunks : list string),
    0 <= overlap -> overlap < chunkSize ->
    chunkText text chunkSize overlap = Some chunks ->
    stitch (Z.to_nat overlap) chunks = text.
Proof.
  intros text chunkSize overlap chunks H0 H1 Hc.
  rewrite chunkText_spec_windows in Hc by assumption.
  injection Hc as <-.
  destruct (Nat.eq_dec (String.length text) 0) as [He | Hne].
  { unfold spec_windows. rewrite He. cbn [Nat.eqb stitch].
    symmetry. apply length_zero_empty. exact He. }
  destruct (spec_windows_shape text chunkSize overlap H0 H1 Hne)
    as (last & Hlast & Hws & Hend & Hbefore & Hstart).
  rewrite Hws. cbn [seq map stitch].
  rewrite (stitch_rest_windows text chunkSize overlap H0 H1 last 0%nat).
  2:{ intros i Hi. apply Hbefore. lia. }
  2:{ exact Hend. }
  unfold window. cbv zeta.
  change (window_start chunkSize overlap 0) with 0.
  rewrite Z.sub_0_r, Z.add_0_l. change (Z.to_nat 0) with 0%nat.
  transitivity (substring 0 (String.length text) text);
    [| apply substring_whole].
  apply substring_adjacent_eq; lia.
Qed.

Lemma string_slice_whole (s : string) :
  JS.string_slice s 0 (Z.of_nat (String.length s)) = s.
Proof.
  unfold JS.string_slice, JS.relative_index.
  destruct (Z.ltb_spec (Z.of_nat (String.length s)) 0) as [H | H]; [lia |].
  cbn [Z.ltb Z.compare Z.to_nat Nat.min].
  rewrite Nat2Z.id, Nat.min_id, Nat.sub_0_r. apply substring_whole.
Qed.

Lemma chunkText_loop_stuck (text : string) (chunkSize overlap : Z) :
  chunkSize <= overlap ->
  chunkSize < Z.of_nat (String.length text) ->
  text <> EmptyString ->
  forall (fuel : nat) (i : Z) (chunks : list string),
    i <= 0 -> chunkText_loop fuel text chunkSize overlap i chunks = None.
Proof.
  intros Hov Hlen Hne.
  assert (Hpos : 0 < Z.of_nat (String.length text))
    by (destruct text; [congruence | simpl; lia]).
  induction fuel as [| fuel IH]; intros i chunks Hi; [reflexivity |].
  cbn [chunkText_loop]. cbv zeta.
  destruct (Z.ltb_spec i (Z.of_nat (String.length text))) as [_ | H]; [| lia].
  destruct (Z.eqb_spec (Z.min (i + chunkSize) (Z.of_nat (String.length text)))
                       (Z.of_nat (String.length text))) as [H | _]; [lia |].
  apply IH. lia.
Qed.

(** X3.  The stride [chunkSize - overlap] must be positive.  With
    [overlap >= chunkSize] the index never advances: a text longer than
    [chunkSize] keeps the loop running for ever (its condition holds
    and its [break] is not reached, at every iteration).  Whatever the
    overlap, the empty text gives no chunk and a non-empty text of at
    most [chunkSize] characters gives one chunk, the text itself. *)
Theorem chunkText_without_positive_stride :
  forall (text : string) (chunkSize overlap : Z),
    (text = EmptyString -> chunkText text chunkSize overlap = Some [])
    /\ (text <> EmptyString ->
        Z.of_nat (String.length text) <= chunkSize ->
        chunkText text chunkSize overlap = Some [text])
    /\ (text <> EmptyString ->
        chunkSize < Z.of_nat (String.length text) ->
        chunkSize <= overlap ->
        chunkText text chunkSize overlap = None
        /\ forall fuel,
             chunkText_loop fuel text chunkSize overlap 0 [] = None).
Proof.
  intros text chunkSize overlap. split; [| split].
  - intros ->. reflexivity.
  - intros Hne Hlen. unfold chunkText. cbn [chunkText_loop]. cbv zeta.
    assert (Hpos : 0 < Z.of_nat (String.length text))
      by (destruct text; [congruence | simpl; lia]).
    destruct (Z.ltb_spec 0 (Z.of_nat (String.length text))) as [_ | H]; [| lia].
    rewrite Z.add_0_l, Z.min_r by exact Hlen.
    rewrite Z.eqb_refl. cbn [app]. rewrite string_slice_whole. reflexivity.
  - intros Hne Hlen Hov.
    split; [| intro fuel];
      apply (chunkText_loop_stuck text chunkSize overlap Hov Hlen Hne); lia.
Qed.

(* ================================================================== *)
(** * Further properties of the cosine similarity *)

Lemma float_mul_comm (x y : float) : (x * y = y * x)%float.
Proof.
  apply Prim2SF_inj. rewrite !mul_spec. unfold SF64mul, SFmul.
  destruct (Prim2SF x) as [sx | sx | | sx mx ex],
           (Prim2SF y) as [sy | sy | | sy my ey];
    try reflexivity; try (rewrite xorb_comm; reflexivity).
  rewrite xorb_comm, Pos.mul_comm, Z.add_comm. reflexivity.
Qed.

Lemma cosine_sums_swap (a b : list float) (l : list nat) :
  forall d x y,
    fold_left (cosine_step b a) l (d, y, x)
    = let '(d', x', y') := fold_left (cosine_step a b) l (d, x, y) in
      (d', y', x').
Proof.
  induction l as [| i l IH]; intros d x y; [reflexivity |].
  cbn [fold_left cosine_step].
  rewrite (float_mul_comm (JS.number_at b i) (JS.number_at a i)).
  apply IH.
Qed.

(** X4.  [cosineSimilarity] is symmetric on vectors of the same length: the
    two calls return the very same number. *)
Theorem cosineSimilarity_symmetric :
  forall a b : list float,
    List.length a = List.length b ->
    cosineSimilarity a b = cosineSimilarity b a.
Proof.
  intros a b Hlen. unfold cosineSimilarity, cosine_sums.
  rewrite <- Hlen.
  rewrite (cosine_sums_swap a b (seq 0 (List.length a)) zero zero zero).
  destruct (fold_left (cosine_step a b) (seq 0 (List.length a))
                      (zero, zero, zero)) as [[d x] y].
  rewrite orb_comm, (float_mul_comm (sqrt y) (sqrt x)). reflexivity.
Qed.

Lemma Prim2SF_nan : Prim2SF nan = S754_nan.
Proof. reflexivity. Qed.

Lemma float_of_nan (z : float) : Prim2SF z = S754_nan -> z = nan.
Proof. intro H. apply Prim2SF_inj. rewrite H. reflexivity. Qed.

Lemma float_add_nan_r (x : float) : (x + nan = nan)%float.
Proof.
  apply float_of_nan. rewrite add_spec, Prim2SF_nan. unfold SF64add, SFadd.
  destruct (Prim2SF x) as [| [|] | |]; reflexivity.
Qed.

Lemma float_add_nan_l (x : float) : (nan + x = nan)%float.
Proof.
  apply float_of_nan. rewrite add_spec, Prim2SF_nan. reflexivity.
Qed.

Lemma float_mul_nan_r (x : float) : (x * nan = nan)%float.
Proof.
  apply float_of_nan. rewrite mul_spec, Prim2SF_nan. unfold SF64mul, SFmul.
  destruct (Prim2SF x); reflexivity.
Qed.

Lemma float_div_nan_l (x : float) : (nan / x = nan)%float.
Proof.
  apply float_of_nan. rewrite div_spec, Prim2SF_nan. reflexivity.
Qed.

Lemma cosine_fold_nan (a b : list float) (l : list nat) :
  forall x : float,
    exists x', fold_left (cosine_step a b) l (nan, x, nan) = (nan, x', nan).
Proof.
  induction l as [| i l IH]; intro x; [exists x; reflexivity |].
  cbn [fold_left cosine_step]. rewrite !float_add_nan_l. apply IH.
Qed.

Lemma cosine_sums_short (a b : list float) :
  (List.length b < List.length a)%nat ->
  dot_product a b = nan /\ norm_sq_second a b = nan.
Proof.
  intro Hlen. unfold dot_product, norm_sq_second, cosine_sums.
  replace (List.length a)
    with (List.length b + S (List.length a - S (List.length b)))%nat by lia.
  rewrite seq_app, fold_left_app. cbn [seq fold_left Nat.add].
  destruct (fold_left (cosine_step a b) (seq 0 (List.length b))
                      (zero, zero, zero)) as [[d x] y].
  cbn [cosine_step].
  assert (Hb : JS.number_at b (List.length b) = nan)
    by (unfold JS.number_at; apply nth_overflow; lia).
  rewrite Hb, !float_mul_nan_r, !float_add_nan_r.
  destruct (cosine_fold_nan a b
              (seq (S (List.length b)) (List.length a - S (List.length b)))
              (x + JS.number_at a (List.length b)
                   * JS.number_at a (List.length b))%float) as [x' ->].
  split; reflexivity.
Qed.

(** X5.  A second vector shorter than the first is read past its end, where
    JavaScript gives [undefined]: the result is NaN, unless the squares
    of the first vector sum to zero, in which case it is 0.  Nothing is
    thrown. *)
Theorem cosineSimilarity_second_vector_too_short :
  forall a b : list float,
    (List.length b < List.length a)%nat ->
    cosineSimilarity a b
    = if (norm_sq_first a b =? zero)%float then zero else nan.
Proof.
  intros a b Hlen. rewrite cosineSimilarity_unfold.
  destruct (cosine_sums_short a b Hlen) as [-> ->].
  change (nan =? zero)%float with false. rewrite orb_false_r.
  rewrite float_div_nan_l. reflexivity.
Qed.

(* ================================================================== *)
(** * Further properties of [search] and [create] *)

Lemma NoDup_firstn_of {A} (k : nat) (l : list A) :
  NoDup l -> NoDup (firstn k l).
Proof.
  intro H. revert k. induction H as [| x l Hx H IH]; intro k.
  - rewrite firstn_nil. constructor.
  - destruct k as [| k]; [constructor |]. cbn [firstn]. constructor.
    + intro Hin. apply Hx. exact (in_firstn _ _ _ Hin).
    + apply IH.
Qed.

Lemma relative_index_le (n : nat) (k : Z) : (JS.relative_index n k <= n)%nat.
Proof. unfold JS.relative_index. destruct (Z.ltb_spec k 0); lia. Qed.

Section SearchRun.
Context {World : Type} (embeddingFn : EmbeddingFunction World).
Variable query : string.
Variable topK : Z.
Variable c : Config World.

(** One run of [search], case by case. *)
Lemma search_run :
  search query embeddingFn topK c
  = if (List.length (store c) =? 0)%nat then (Fulfilled [], c)
    else
      let r := fst (embeddingFn query (world c)) in
      (match r with
       | Fulfilled q => Fulfilled (rank q (store c) topK)
       | Rejected reason => Rejected reason
       | Pending => Pending
       end,
       mkConfig (store c) (snd (embeddingFn query (world c)))
                (trace c ++ [EmbedCall query r])).
Proof.
  unfold search. destruct (List.length (store c) =? 0)%nat; [reflexivity |].
  rewrite call_spec. cbv zeta.
  destruct (fst (embeddingFn query (world c))); reflexivity.
Qed.

Lemma search_result_ranking (res : list string) (c' : Config World) :
  search query embeddingFn topK c = (Fulfilled res, c') ->
  exists q,
    res = map (fun i => chunk (entry_at (store c) i))
              (firstn (JS.relative_index (List.length (store c)) topK)
                      (ranking q (store c))).
Proof.
  rewrite search_run.
  destruct (store c) as [| e es] eqn:Hs.
  - cbn [List.length Nat.eqb]. intro H. inversion H; subst.
    exists []. rewrite firstn_nil. reflexivity.
  - cbn [List.length Nat.eqb]. cbv zeta.
    destruct (fst (embeddingFn query (world c))) as [q | reason |];
      intro H; inversion H; subst.
    exists q. apply rank_ranking.
Qed.

End SearchRun.

(** X6.  A fulfilled [search] returns [min topK n] chunks of a store of [n]
    entries when [topK] is not negative; a negative [topK] counts from
    the end of the ranking, as [slice] does: all but the [-topK] lowest
    ranked entries are returned. *)
Theorem search_result_count :
  forall (World : Type) (query : string) (embeddingFn : EmbeddingFunction World)
         (topK : Z) (c c' : Config World) (res : list string),
    search query embeddingFn topK c = (Fulfilled res, c') ->
    (0 <= topK ->
     List.length res = Nat.min (Z.to_nat topK) (List.length (store c)))
    /\ (topK < 0 ->
        List.length res = (List.length (store c) - Z.to_nat (- topK))%nat).
Proof.
  intros World query embeddingFn topK c c' res Hrun.
  destruct (search_result_ranking embeddingFn query topK c res c' Hrun)
    as [q ->].
  rewrite length_map, length_firstn.
  rewrite (Permutation_length (ranking_permutation q (store c))), length_seq.
  unfold JS.relative_index.
  split; intro H.
  - destruct (Z.ltb_spec topK 0); lia.
  - destruct (Z.ltb_spec topK 0); lia.
Qed.

(** X7.  Whatever the scores are (NaN included), a fulfilled [search]
    returns the chunks of distinct entries of the store: nothing is
    invented and no entry is returned twice; when [topK] is at least the
    size of the store the result is a rearrangement of all its
    chunks. *)
Theorem search_results_are_distinct_entries :
  forall (World : Type) (query : string) (embeddingFn : EmbeddingFunction World)
         (topK : Z) (c c' : Config World) (res : list string),
    search query embeddingFn topK c = (Fulfilled res, c') ->
    (exists indices : list nat,
       NoDup indices
       /\ Forall (fun i => (i < List.length (store c))%nat) indices
       /\ res = map (fun i => chunk (entry_at (store c) i)) indices)
    /\ (Z.of_nat (List.length (store c)) <= topK ->
        Permutation res (map chunk (store c))).
Proof.
  intros World query embeddingFn topK c c' res Hrun.
  destruct (search_result_ranking embeddingFn query topK c res c' Hrun)
    as [q ->].
  assert (Hperm := ranking_permutation q (store c)).
  split.
  - exists (firstn (JS.relative_index (List.length (store c)) topK)
                   (ranking q (store c))).
    split; [| split; [| reflexivity]].
    + apply NoDup_firstn_of.
      apply (Permutation_NoDup (Permutation_sym Hperm)). apply seq_NoDup.
    + apply Forall_forall. intros i Hi. apply in_firstn in Hi.
      apply (Permutation_in _ Hperm) in Hi. apply in_seq in Hi. lia.
  - intro Hk.
    rewrite firstn_all2.
    2:{ rewrite (Permutation_length Hperm), length_seq.
        unfold JS.relative_index. destruct (Z.ltb_spec topK 0); lia. }
    rewrite <- (map_nth_seq chunk (store c) (mkEntry EmptyString [])).
    apply Permutation_map. exact Hperm.
Qed.

(** X8.  [search] never changes the store and never invokes the progress
    callback.  On a non-empty store it invokes the embedding function
    once, on the query, whatever [topK] is, and it is rejected, or
    never settles, exactly when that invocation is. *)
Theorem search_frame_and_failure :
  forall (World : Type) (query : string) (embeddingFn : EmbeddingFunction World)
         (topK : Z) (c c' : Config World) (out : Outcome (list string)),
    search query embeddingFn topK c = (out, c') ->
    store c' = store c
    /\ progress_calls (events_since c c') = []
    /\ embed_calls (events_since c c')
       = (if (List.length (store c) =? 0)%nat then [] else [query])
    /\ (forall reason,
          out = Rejected reason
          <-> In (EmbedCall query (Rejected reason)) (events_since c c'))
    /\ (out = Pending <-> In (EmbedCall query Pending) (events_since c c')).
Proof.
  intros World query embeddingFn topK c c' out. rewrite search_run.
  destruct (List.length (store c) =? 0)%nat.
  - intro H. inversion H; subst c' out. rewrite events_since_refl.
    repeat split; try reflexivity; try discriminate;
      intro Hin; destruct Hin.
  - cbv zeta. intro H. inversion H; subst c' out. clear H.
    rewrite events_since_app. cbn [store progress_calls embed_calls].
    split; [reflexivity |]. split; [reflexivity |]. split; [reflexivity |].
    destruct (fst (embeddingFn query (world c))) as [q | reason' |]; split.
    + intro reason. split; [discriminate |].
      intros [Hin | []]. discriminate.
    + split; [discriminate |]. intros [Hin | []]. discriminate.
    + intro reason. split.
      * intro Hr. inversion Hr. left. reflexivity.
      * intros [Hin | []]. inversion Hin. reflexivity.
    + split; [discriminate |]. intros [Hin | []]. discriminate.
    + intro reason. split; [discriminate |].
      intros [Hin | []]. discriminate.
    + split; [intros _; left; reflexivity | reflexivity].
Qed.

Lemma call_all_results {World} (embeddingFn : EmbeddingFunction World)
    (batch : list string) (c : Config World) :
  call_all embeddingFn batch c
  = (fst (call_results embeddingFn batch (world c)),
     mkConfig (store c) (snd (call_results embeddingFn batch (world c)))
       (trace c
        ++ embed_events batch
             (fst (call_results embeddingFn batch (world c))))).
Proof.
  revert c. induction batch as [| t batch IH]; intro c.
  - simpl. unfold embed_events. simpl. rewrite app_nil_r.
    destruct c; reflexivity.
  - cbn [call_all call_results]. rewrite call_spec.
    destruct (embeddingFn t (world c)) as [r w1] eqn:E.
    cbn [fst snd]. rewrite IH. cbn [store world trace].
    destruct (call_results embeddingFn batch w1) as [rs w2].
    cbn [fst snd]. unfold embed_events. cbn [combine map].
    rewrite <- app_assoc. reflexivity.
Qed.

Lemma filter_embed_events batch rs :
  filter is_embed_call (embed_events batch rs) = embed_events batch rs.
Proof.
  unfold embed_events. induction (combine batch rs) as [| p l IH];
    [reflexivity |]. cbn [map filter is_embed_call]. f_equal. exact IH.
Qed.

Lemma make_entries_length (batch : list string) (vs : list (list float)) :
  List.length vs = List.length batch ->
  List.length (make_entries batch vs) = List.length batch.
Proof.
  intro H. unfold make_entries. rewrite length_map, length_combine. lia.
Qed.

Section CreateAccounting.
Context {World : Type} (embeddingFn : EmbeddingFunction World).
Variable chunks : list string.

Let N := List.length chunks.

(** A rejected run of the loop: [k] batches completed, the calls of the
    next batch were all issued, no call of a later batch was. *)
Lemma create_loop_rejected_calls (onProgress : bool) (fuel : nat) :
  forall (i : nat) (c : Config World) reason c',
    create_loop fuel embeddingFn onProgress chunks i c = (Rejected reason, c') ->
    exists k evs,
      trace c' = trace c ++ evs
      /\ List.length (store c') = (List.length (store c) + batchSize * k)%nat
      /\ (i + batchSize * k < N)%nat
      /\ embed_calls evs = firstn (batchSize * k + batchSize) (skipn i chunks)
      /\ List.length (progress_calls evs) = (if onProgress then k else 0%nat).
Proof.
  induction fuel as [| fuel IH]; intros i c reason c' Hrun;
    [discriminate |].
  cbn [create_loop] in Hrun. fold N in Hrun.
  destruct (Nat.ltb_spec i N) as [Hlt | Hge]; [| discriminate].
  rewrite array_slice_nat in Hrun by lia.
  replace (i + batchSize - i)%nat with batchSize in Hrun by lia.
  set (batch := firstn batchSize (skipn i chunks)) in *.
  destruct (call_all_spec embeddingFn batch c) as [rs [w [Hcall Hlen]]].
  rewrite Hcall in Hrun.
  destruct (Promise_all rs) as [vs | reason' |] eqn:HP.
  - apply Promise_all_fulfilled in HP.
    assert (Hvs : List.length vs = List.length batch)
      by (rewrite <- Hlen, HP, length_map; reflexivity).
    cbn [store world trace] in Hrun.
    destruct (IH _ _ _ _ Hrun) as (k & evs & Htr & Hst & Hk & Hcalls & Hpr).
    assert (Hfull : List.length batch = batchSize).
    { subst batch. rewrite length_firstn, length_skipn. fold N.
      unfold batchSize in *. lia. }
    exists (S k),
      (embed_events batch rs
       ++ (if onProgress
           then [ProgressCall (progress_of (Nat.min (i + batchSize) N) N)]
           else [])
       ++ evs).
    assert (Hbatch : firstn (batchSize * S k + batchSize) (skipn i chunks)
                     = batch ++ firstn (batchSize * k + batchSize)
                                       (skipn (i + batchSize) chunks)).
    { replace (batchSize * S k + batchSize)%nat
        with (batchSize + (batchSize * k + batchSize))%nat by lia.
      rewrite firstn_plus, skipn_skipn.
      replace (batchSize + i)%nat with (i + batchSize)%nat by lia.
      reflexivity. }
    rewrite Hbatch, <- Hcalls.
    rewrite !embed_calls_app, !progress_calls_app, !length_app.
    rewrite embed_calls_embed_events by exact Hlen.
    rewrite progress_calls_embed_events, Hpr.
    destruct onProgress; cbn [trace store] in Htr, Hst;
      rewrite length_app, make_entries_length, Hfull in Hst by exact Hvs;
      (split; [rewrite Htr, <- ?app_assoc; reflexivity |]);
      (split; [rewrite Hst; unfold batchSize; lia |]);
      (split; [unfold batchSize in *; lia |]);
      split; reflexivity.
  - inversion Hrun; subst reason' c'. exists 0%nat, (embed_events batch rs).
    cbn [trace store]. rewrite Nat.mul_0_r, !Nat.add_0_r, Nat.add_0_l.
    repeat split; try lia.
    + apply embed_calls_embed_events. exact Hlen.
    + rewrite progress_calls_embed_events. destruct onProgress; reflexivity.
  - discriminate.
Qed.

(** The progress callback only observes: with and without it the loop
    ends the same way, with the same store, after the same calls. *)
Lemma create_loop_callback_only_observes (fuel : nat) :
  forall (i : nat) (c1 c2 : Config World),
    store c1 = store c2 -> world c1 = world c2 ->
    let r1 := create_loop fuel embeddingFn true chunks i c1 in
    let r2 := create_loop fuel embeddingFn false chunks i c2 in
    fst r1 = fst r2
    /\ store (snd r1) = store (snd r2)
    /\ world (snd r1) = world (snd r2)
    /\ exists evs,
         trace (snd r1) = trace c1 ++ evs
         /\ trace (snd r2) = trace c2 ++ filter is_embed_call evs.
Proof.
  induction fuel as [| fuel IH]; intros i c1 c2 Hs Hw; cbv zeta.
  - cbn [create_loop fst snd]. repeat split; try assumption.
    exists []. cbn [filter]. rewrite !app_nil_r. split; reflexivity.
  - cbn [create_loop]. fold N.
    destruct (Nat.ltb_spec i N) as [Hlt | Hge].
    2:{ cbn [fst snd]. repeat split; try assumption.
        exists []. cbn [filter]. rewrite !app_nil_r. split; reflexivity. }
    rewrite !call_all_results. rewrite <- Hw, <- Hs.
    set (batch := JS.array_slice chunks (Z.of_nat i) (Z.of_nat (i + batchSize))).
    set (rs := fst (call_results embeddingFn batch (world c1))).
    set (w := snd (call_results embeddingFn batch (world c1))).
    destruct (Promise_all rs) as [vs | reason |].
    + cbn [store world trace].
      match goal with
      | |- fst (create_loop _ _ _ _ _ ?a) = fst (create_loop _ _ _ _ _ ?b) /\ _ =>
          destruct (IH (i + batchSize)%nat a b eq_refl eq_refl)
            as (H1 & H2 & H3 & evs & H4 & H5)
      end.
      cbn [trace] in H4, H5.
      repeat split; try assumption.
      exists (embed_events batch rs
              ++ ProgressCall (progress_of (Nat.min (i + batchSize) N) N)
                 :: evs).
      split.
      * rewrite H4, <- !app_assoc. reflexivity.
      * rewrite H5, filter_app, filter_embed_events.
        cbn [filter is_embed_call]. rewrite <- app_assoc. reflexivity.
    + cbn [fst snd store world trace]. repeat split.
      exists (embed_events batch rs). rewrite filter_embed_events.
      split; reflexivity.
    + cbn [fst snd store world trace]. repeat split.
      exists (embed_events batch rs). rewrite filter_embed_events.
      split; reflexivity.
Qed.

End CreateAccounting.

Lemma store_after_create {World} (text : string)
    (embeddingFn : EmbeddingFunction World) (onProgress : bool)
    (c c1 : Config World) :
  create text embeddingFn onProgress c = (Fulfilled tt, c1) ->
  map chunk (store c1) = spec_windows text 1000 200.
Proof.
  intro Hcreate.
  destruct (create_run _ _ _ _ _ _ Hcreate) as (k & evs & Hpost).
  destruct Hpost as (Hst & _ & _ & _ & Hle & _).
  cbn [store map app skipn] in Hst. rewrite Nat.add_0_l in Hle.
  rewrite firstn_all2 in Hst by exact Hle. exact Hst.
Qed.

Lemma spec_windows_default_nonempty (text : string) :
  text <> EmptyString -> (1 <= List.length (spec_windows text 1000 200))%nat.
Proof.
  intro Hne.
  assert (Hnz : String.length text <> 0%nat)
    by (destruct text; [congruence | discriminate]).
  destruct (spec_windows_shape text 1000 200 ltac:(lia) ltac:(lia) Hnz)
    as (last & _ & Hws & _).
  rewrite Hws, length_map, length_seq. lia.
Qed.

Lemma rank_length (q : list float) (entries : list VectorStoreEntry)
    (topK : Z) :
  List.length (rank q entries topK)
  = JS.relative_index (List.length entries) topK.
Proof.
  rewrite rank_ranking, length_map, length_firstn.
  rewrite (Permutation_length (ranking_permutation q entries)), length_seq.
  assert (H := relative_index_le (List.length entries) topK). lia.
Qed.

Lemma rank_in (q : list float) (entries : list VectorStoreEntry) (topK : Z)
    (s : string) :
  In s (rank q entries topK) -> In s (map chunk entries).
Proof.
  rewrite rank_ranking. intro Hs.
  apply in_map_iff in Hs. destruct Hs as (i & <- & Hi).
  apply in_firstn in Hi.
  apply (Permutation_in _ (ranking_permutation q entries)) in Hi.
  apply in_seq in Hi. unfold entry_at.
  rewrite <- (map_nth chunk). apply nth_In. rewrite length_map. lia.
Qed.

(** X9.  [create] on the empty text: no chunk, hence no embedding call and
    no progress report; the previous contents of the store are dropped
    all the same, so that a following [search] is answered with the
    empty list without an embedding call either. *)
Theorem create_empty_text :
  forall (World : Type) (embeddingFn : EmbeddingFunction World)
         (onProgress : bool) (c : Config World),
    let c' := snd (create EmptyString embeddingFn onProgress c) in
    fst (create EmptyString embeddingFn onProgress c) = Fulfilled tt
    /\ store c' = []
    /\ world c' = world c
    /\ events_since c c' = []
    /\ forall query (embeddingFn' : EmbeddingFunction World) topK,
         search query embeddingFn' topK c' = (Fulfilled [], c').
Proof.
  intros World embeddingFn onProgress c. cbv zeta.
  change (create EmptyString embeddingFn onProgress c)
    with (@Fulfilled unit tt,
          mkConfig (@nil VectorStoreEntry) (world c) (trace c)).
  cbn [fst snd store world].
  repeat split.
  unfold events_since. cbn [trace]. apply skipn_all.
Qed.

(** X10.  A rejected [create]: when the failure comes in batch [k + 1], every
    call of that batch was issued ([Promise.all] does not hold back the
    calls that follow the failing one) and no call of a later batch:
    the embedding function was invoked on the first [5 k + 5] chunks
    (on all of them if there are fewer), in order; the store holds
    [5 k] entries and the callback, if supplied, was invoked [k]
    times. *)
Theorem create_rejected_call_accounting :
  forall (World : Type) (text : string) (embeddingFn : EmbeddingFunction World)
         (onProgress : bool) (c c' : Config World) (reason : string)
         (chunks : list string),
    chunkText text 1000 200 = Some chunks ->
    create text embeddingFn onProgress c = (Rejected reason, c') ->
    exists k : nat,
      (5 * k < List.length chunks)%nat
      /\ List.length (store c') = (5 * k)%nat
      /\ embed_calls (events_since c c') = firstn (5 * k + 5) chunks
      /\ List.length (progress_calls (events_since c c'))
         = (if onProgress then k else 0%nat).
Proof.
  intros World text embeddingFn onProgress c c' reason chunks Hc Hrun.
  assert (Hev := create_events _ _ _ _ _ _ Hrun).
  unfold create in Hrun. rewrite Hc in Hrun.
  destruct (create_loop_rejected_calls embeddingFn chunks onProgress
              _ _ _ _ _ Hrun) as (k & evs & Htr & Hst & Hk & Hcalls & Hpr).
  cbn [trace store List.length] in Htr, Hst.
  rewrite Htr in Hev. apply app_inv_head in Hev. subst evs.
  exists k. unfold batchSize in *. cbn [skipn] in Hcalls.
  rewrite Nat.add_0_l in Hk, Hst.
  repeat split; assumption.
Qed.


(** X12.  [create] then [search]: on the store built by a successful
    [create] over a non-empty text, a fulfilled [search] with
    [topK >= 1] returns at least one chunk and at most [topK], each of
    them a chunk of the text.  The list is never empty, however
    unrelated the query is. *)
Theorem search_after_create_returns_chunks :
  forall (World : Type) (text : string) (embeddingFn : EmbeddingFunction World)
         (onProgress : bool) (c c1 c2 : Config World)
         (query : string) (embeddingFn' : EmbeddingFunction World)
         (topK : Z) (res chunks : list string),
    text <> EmptyString ->
    1 <= topK ->
    chunkText text 1000 200 = Some chunks ->
    create text embeddingFn onProgress c = (Fulfilled tt, c1) ->
    search query embeddingFn' topK c1 = (Fulfilled res, c2) ->
    List.length res = Nat.min (Z.to_nat topK) (List.length chunks)
    /\ (1 <= List.length res)%nat
    /\ Forall (fun s => In s chunks) res.
Proof.
  intros World text embeddingFn onProgress c c1 c2 query embeddingFn' topK
         res chunks Hne Hk Hc Hcreate Hsearch.
  rewrite chunkText_defaults in Hc. injection Hc as Hc.
  destruct (create_run _ _ _ _ _ _ Hcreate) as (k & evs & Hpost).
  rewrite Hc in Hpost.
  destruct Hpost as (Hst & _ & _ & _ & Hle & _).
  cbn [store map app skipn] in Hst. rewrite Nat.add_0_l in Hle.
  rewrite firstn_all2 in Hst by exact Hle.
  assert (Hn : List.length (store c1) = List.length chunks)
    by (rewrite <- Hst, length_map; reflexivity).
  assert (Hpos : (1 <= List.length chunks)%nat).
  { assert (Hnz : String.length text <> 0%nat)
      by (destruct text; [congruence | discriminate]).
    destruct (spec_windows_shape text 1000 200 ltac:(lia) ltac:(lia) Hnz)
      as (last & _ & Hws & _).
    rewrite <- Hc, Hws, length_map, length_seq. lia. }
  destruct (search_result_ranking embeddingFn' query topK c1 res c2 Hsearch)
    as [q ->].
  assert (Hperm := ranking_permutation q (store c1)).
  assert (Hlen : List.length
                   (map (fun i => chunk (entry_at (store c1) i))
                      (firstn (JS.relative_index (List.length (store c1)) topK)
                              (ranking q (store c1))))
                 = Nat.min (Z.to_nat topK) (List.length chunks)).
  { rewrite length_map, length_firstn, (Permutation_length Hperm), length_seq.
    unfold JS.relative_index. destruct (Z.ltb_spec topK 0); lia. }
  split; [exact Hlen |]. split; [rewrite Hlen; lia |].
  apply Forall_forall. intros s Hs.
  apply in_map_iff in Hs. destruct Hs as (i & <- & Hi).
  apply in_firstn in Hi. apply (Permutation_in _ Hperm) in Hi.
  apply in_seq in Hi.
  rewrite <- Hst. unfold entry_at.
  rewrite <- (map_nth chunk). apply nth_In. rewrite length_map. lia.
Qed.

(** X13.  The cost of indexing a document.  A successful [create] over a
    non-empty text of [L] characters invokes the embedding function
    [max 1 (ceil ((L - 200) / 800))] times, once per chunk; a rejected
    [create] invokes it at most that many times. *)
Theorem create_embedding_call_count :
  forall (World : Type) (text : string) (embeddingFn : EmbeddingFunction World)
         (onProgress : bool) (c c' : Config World) (out : Outcome unit),
    text <> EmptyString ->
    create text embeddingFn onProgress c = (out, c') ->
    let L := Z.of_nat (String.length text) in
    let cost := Z.to_nat (Z.max 1 (ceil_div (L - 200) 800)) in
    let calls := List.length (embed_calls (events_since c c')) in
    (out = Fulfilled tt -> calls = cost)
    /\ (forall reason, out = Rejected reason -> (calls <= cost)%nat).
Proof.
  intros World text embeddingFn onProgress c c' out Hne Hrun L cost calls.
  assert (Hnz : String.length text <> 0%nat)
    by (destruct text; [congruence | discriminate]).
  assert (Hcount := spec_windows_count text 1000 200 ltac:(lia) ltac:(lia) Hnz).
  change (1000 - 200) with 800 in Hcount.
  assert (Hcost : cost = List.length (spec_windows text 1000 200))
    by (subst cost L; rewrite <- Hcount; lia).
  assert (Hev := create_events _ _ _ _ _ _ Hrun).
  split.
  - intros ->.
    destruct (create_run _ _ _ _ _ _ Hrun) as (k & evs & Hpost).
    destruct Hpost as (_ & Htr & _ & _ & _ & _ & Hcalls & _).
    cbn [trace skipn] in Htr, Hcalls.
    rewrite Htr in Hev. apply app_inv_head in Hev.
    subst calls. rewrite <- Hev, Hcalls. symmetry. exact Hcost.
  - intros reason ->.
    unfold create in Hrun. rewrite chunkText_defaults in Hrun.
    destruct (create_loop_rejected_calls embeddingFn _ onProgress
                _ _ _ _ _ Hrun) as (k & evs & Htr & _ & _ & Hcalls & _).
    cbn [trace skipn] in Htr, Hcalls.
    rewrite Htr in Hev. apply app_inv_head in Hev.
    subst calls. rewrite <- Hev, Hcalls, length_firstn, Hcost. lia.
Qed.

(* ================================================================== *)
(** * The callers in [useChat] *)

Lemma shown_table (a b : Z) :
  0 <= a <= 100 -> 0 <= b <= 100 ->
  (15 <=? shown_for a)%float = true /\ (shown_for a <=? 95)%float = true
  /\ ((rounded a <=? rounded b)%float = true ->
      (shown_for a <=? shown_for b)%float = true).
Proof.
  intros Ha Hb.
  assert (Htab : forallb (fun a => forallb (shown_pair_ok a) (seq 0 101))
                         (seq 0 101) = true) by (vm_compute; reflexivity).
  assert (Hpair : shown_pair_ok (Z.to_nat a) (Z.to_nat b) = true).
  { rewrite forallb_forall in Htab.
    specialize (Htab (Z.to_nat a) ltac:(apply in_seq; lia)).
    rewrite forallb_forall in Htab.
    apply Htab. apply in_seq. lia. }
  clear Htab. unfold shown_pair_ok in Hpair.
  rewrite !Z2Nat.id in Hpair by lia.
  apply andb_prop in Hpair. destruct Hpair as [Hab Hmono].
  apply andb_prop in Hab. destruct Hab as [H15 H95].
  split; [exact H15 |]. split; [exact H95 |].
  intro Hle. rewrite Hle in Hmono. exact Hmono.
Qed.

(** X14.  The progress bar of an upload.  While [create] embeds the chunks of
    a document ([N >= 1] chunks, fewer than 2^32), the percentages that
    [handleFileUpload] shows never go backwards, stay between the 15
    shown before the embedding and the 95 shown after it, and the last
    one is 95; the stage text is the one [create] reports. *)
Theorem upload_progress_never_goes_back :
  forall (World : Type) (text : string) (embeddingFn : EmbeddingFunction World)
         (c c' : Config World) (chunks : list string),
    chunkText text 1000 200 = Some chunks ->
    (1 <= List.length chunks)%nat ->
    Z.of_nat (List.length chunks) < 2 ^ 32 ->
    create text embeddingFn true c = (Fulfilled tt, c') ->
    let shown :=
      map UseChat.onEmbeddingProgress (progress_calls (events_since c c')) in
    map stage shown = map stage (progress_calls (events_since c c'))
    /\ Forall (fun p => (15 <=? percentage p)%float = true
                        /\ (percentage p <=? 95)%float = true) shown
    /\ (forall i j pi pj,
          (i <= j)%nat ->
          nth_error shown i = Some pi -> nth_error shown j = Some pj ->
          (percentage pi <=? percentage pj)%float = true)
    /\ (exists earlier final,
          shown = earlier ++ [final] /\ percentage final = 95%float).
Proof.
  intros World text embeddingFn c c' chunks Hchunks H1 H32 Hrun shown.
  rewrite chunkText_defaults in Hchunks. injection Hchunks as Hchunks.
  assert (Hev := create_events _ _ _ _ _ _ Hrun).
  destruct (create_run _ _ _ _ _ _ Hrun) as (k & evs & Hpost).
  rewrite Hchunks in Hpost.
  destruct Hpost as (_ & Htr & Hpr & _ & Hle & Hk & _).
  cbn [trace] in Htr. rewrite Nat.add_0_l in Hle, Hk.
  assert (Hevs : events_since c c' = evs).
  { rewrite Htr in Hev. apply app_inv_head in Hev. congruence. }
  assert (Hshown : shown = map UseChat.onEmbeddingProgress (reports chunks 0 k))
    by (subst shown; rewrite Hevs, Hpr; reflexivity).
  assert (Hentry : forall i p,
            nth_error shown i = Some p ->
            exists z,
              (i < k)%nat /\ 0 <= z <= 100
              /\ percentage_of (Nat.min (batchSize * S i) (List.length chunks))
                               (List.length chunks) = rounded z
              /\ percentage p = shown_for z).
  { intros i p Hi. rewrite Hshown, nth_error_map in Hi.
    destruct (nth_error (reports chunks 0 k) i) as [r |] eqn:Hr;
      [| discriminate].
    assert (Hp : p = UseChat.onEmbeddingProgress r)
      by (unfold option_map in Hi; congruence).
    apply nth_error_reports in Hr. destruct Hr as [Hik Er].
    rewrite Hp, Er. clear Hi Hp Er.
    destruct (percentage_of_range
                (Nat.min (batchSize * S i) (List.length chunks))
                (List.length chunks)) as (z & V & Hz & Hr & _);
      [unfold batchSize; lia | exact H32 |].
    exists z. repeat split; try assumption; try lia.
    unfold percentage_of in Hz.
    unfold UseChat.onEmbeddingProgress. rewrite Hz. reflexivity. }
  split; [| split; [| split]].
  - subst shown. rewrite map_map. reflexivity.
  - apply Forall_forall. intros p Hp. apply In_nth_error in Hp.
    destruct Hp as [i Hi].
    destruct (Hentry i p Hi) as (z & _ & Hz & _ & ->).
    destruct (shown_table z z Hz Hz) as (Ha & Hb & _).
    split; assumption.
  - intros i j pi pj Hij Hi Hj.
    destruct (Hentry i pi Hi) as (zi & Hik & Hzi & Ei & ->).
    destruct (Hentry j pj Hj) as (zj & Hjk & Hzj & Ej & ->).
    destruct (shown_table zi zj Hzi Hzj) as (_ & _ & Hm).
    apply Hm. rewrite <- Ei, <- Ej.
    apply percentage_of_monotone; [| | exact H32]; unfold batchSize; lia.
  - destruct k as [| k']; [unfold batchSize in Hle; lia |].
    exists (map UseChat.onEmbeddingProgress (reports chunks 0 k')),
           (UseChat.onEmbeddingProgress
              (progress_of (Nat.min (batchSize * S k') (List.length chunks))
                           (List.length chunks))).
    split.
    + rewrite Hshown. unfold reports. rewrite seq_S, !map_app.
      cbn [map]. rewrite Nat.add_0_l. reflexivity.
    + rewrite Nat.min_r by exact Hle.
      assert (Hfull := percentage_of_complete (List.length chunks) H1 H32).
      unfold percentage_of in Hfull.
      unfold UseChat.onEmbeddingProgress. rewrite Hfull.
      vm_compute. reflexivity.
Qed.

(** X15.  The [KnowledgeBase] case of [sendMessage] on a knowledge base
    built by a successful [create] over a non-empty text, when the
    embedding of the question is fulfilled: the question is answered
    from at least one and at most three chunks of the document, joined
    by blank lines, and these chunks are the sources of the answer; the
    reply that nothing relevant was found is never given, whatever the
    question.  Without a knowledge base the case is rejected before any
    call. *)
Theorem knowledgeBase_answers_from_document_chunks :
  forall (OverviewData OtherData World : Type)
         (getAnswerFromContext :
            string -> string -> option string -> World
            -> Outcome string * World)
         (text : string) (embeddingFn : EmbeddingFunction World)
         (onProgress : bool) (c vs : Config World)
         (question : string) (embedContent : EmbeddingFunction World)
         (geminiConfig : option string) (w : World) (q : list float),
    text <> EmptyString ->
    create text embeddingFn onProgress c = (Fulfilled tt, vs) ->
    fst (embedContent question w) = Fulfilled q ->
    let contextChunks := rank q (store vs) 3 in
    (1 <= List.length contextChunks <= 3)%nat
    /\ Forall (fun chunk => In chunk (spec_windows text 1000 200))
              contextChunks
    /\ chunkText text 1000 200 = Some (spec_windows text 1000 200)
    /\ fst (UseChat.knowledgeBaseCase (OverviewData := OverviewData)
              (OtherData := OtherData) getAnswerFromContext
              (Some (store vs)) question embedContent geminiConfig w)
       = match fst (getAnswerFromContext question
                      (String.concat (UseChat.newline ++ UseChat.newline)
                                     contextChunks)
                      geminiConfig (snd (embedContent question w))) with
         | Fulfilled answer =>
             Fulfilled
               (UseChat.Sourced answer
                  (map (fun chunk => UseChat.mkSource chunk "document_chunk")
                       contextChunks))
         | Rejected reason => Rejected reason
         | Pending => Pending
         end
    /\ UseChat.knowledgeBaseCase (OverviewData := OverviewData)
         (OtherData := OtherData) getAnswerFromContext
         None question embedContent geminiConfig w
       = (Rejected "Please upload a document to the Knowledge Base first.",
          w).
Proof.
  intros OverviewData OtherData World getAnswerFromContext text embeddingFn
         onProgress c vs question embedContent geminiConfig w q
         Hne Hcreate Hq contextChunks.
  assert (Hst := store_after_create _ _ _ _ _ Hcreate).
  assert (Hpos := spec_windows_default_nonempty text Hne).
  assert (Hn : List.length (store vs)
               = List.length (spec_windows text 1000 200))
    by (rewrite <- Hst, length_map; reflexivity).
  assert (Hlen : List.length contextChunks
                 = Nat.min 3 (List.length (store vs))).
  { subst contextChunks. rewrite rank_length. reflexivity. }
  split; [lia |].
  split.
  { apply Forall_forall. intros s Hs. rewrite <- Hst.
    exact (rank_in _ _ _ _ Hs). }
  split; [apply chunkText_defaults |].
  split; [| reflexivity].
  unfold UseChat.knowledgeBaseCase. rewrite search_run.
  cbn [store world trace].
  destruct (Nat.eqb_spec (List.length (store vs)) 0) as [E | _]; [lia |].
  cbv zeta. rewrite Hq. cbn [store world trace]. fold contextChunks.
  destruct (Nat.eqb_spec (List.length contextChunks) 0) as [E | _]; [lia |].
  destruct (getAnswerFromContext question
              (String.concat (UseChat.newline ++ UseChat.newline) contextChunks)
              geminiConfig (snd (embedContent question w)))
    as [a w2].
  reflexivity.
Qed.

Section UseChatCallbacks.
Context {OverviewData OtherData Store QADocument : Type}.
Variables KnowledgeBase QA : string.

Let State := UseChat.State OverviewData OtherData Store QADocument.
Let Action := UseChat.Action OverviewData OtherData.

Lemma set_key_other
    (prev : string
            -> option (list (UseChat.ChatMessage OverviewData OtherData)))
    (key k : string) value :
  k <> key -> UseChat.set_key prev key value k = prev k.
Proof.
  intro H. unfold UseChat.set_key.
  destruct (String.eqb_spec k key); [contradiction | reflexivity].
Qed.

Lemma step_elsewhere (s : State) (a : Action) (m : string) :
  UseChat.activeMode s <> m ->
  (forall l,
     UseChat.messagesByMode s m = Some l ->
     UseChat.messagesByMode (UseChat.step KnowledgeBase QA s a) m = Some l)
  /\ (m = KnowledgeBase ->
      UseChat.vectorStore (UseChat.step KnowledgeBase QA s a)
      = UseChat.vectorStore s)
  /\ (m = QA ->
      UseChat.qaDocument (UseChat.step KnowledgeBase QA s a)
      = UseChat.qaDocument s).
Proof.
  intro Hm.
  assert (Hm' : m <> UseChat.activeMode s) by congruence.
  destruct a as [message now | | newMode | newPersona now];
    cbn [UseChat.step].
  - unfold UseChat.addMessage.
    cbn [UseChat.messagesByMode UseChat.vectorStore UseChat.qaDocument].
    split; [| split; reflexivity].
    intros l Hl. rewrite set_key_other by exact Hm'. exact Hl.
  - unfold UseChat.clearChat.
    cbn [UseChat.messagesByMode UseChat.vectorStore UseChat.qaDocument].
    split; [| split].
    + intros l Hl. rewrite set_key_other by exact Hm'. exact Hl.
    + intros ->.
      destruct (String.eqb_spec (UseChat.activeMode s) KnowledgeBase);
        [contradiction | reflexivity].
    + intros ->.
      destruct (String.eqb_spec (UseChat.activeMode s) QA);
        [contradiction | reflexivity].
  - unfold UseChat.selectMode.
    destruct (String.eqb newMode (UseChat.activeMode s));
      [repeat split; auto |].
    cbn [UseChat.messagesByMode UseChat.vectorStore UseChat.qaDocument].
    split; [| split; reflexivity].
    intros l Hl.
    destruct (UseChat.messagesByMode s newMode) as [ms |] eqn:Hnew;
      [exact Hl |].
    rewrite set_key_other; [exact Hl |]. intros ->. congruence.
  - unfold UseChat.selectPersona.
    destruct (PersonaConfig.Persona_eqb newPersona (UseChat.activePersona s));
      [repeat split; auto |].
    unfold UseChat.addMessage.
    cbn [UseChat.messagesByMode UseChat.activeMode UseChat.vectorStore
         UseChat.qaDocument].
    split; [| split; reflexivity].
    intros l Hl. rewrite set_key_other by exact Hm'. exact Hl.
Qed.

Lemma run_elsewhere (actions : list Action) (m : string) :
  forall s : State,
    performed_elsewhere KnowledgeBase QA m actions s ->
    (forall l,
       UseChat.messagesByMode s m = Some l ->
       UseChat.messagesByMode (UseChat.run KnowledgeBase QA actions s) m
       = Some l)
    /\ (m = KnowledgeBase ->
        UseChat.vectorStore (UseChat.run KnowledgeBase QA actions s)
        = UseChat.vectorStore s)
    /\ (m = QA ->
        UseChat.qaDocument (UseChat.run KnowledgeBase QA actions s)
        = UseChat.qaDocument s).
Proof.
  induction actions as [| a actions IH]; intros s H.
  - repeat split; auto.
  - destruct H as [Hm H].
    change (UseChat.run KnowledgeBase QA (a :: actions) s)
      with (UseChat.run KnowledgeBase QA actions
              (UseChat.step KnowledgeBase QA s a)).
    destruct (step_elsewhere s a m Hm) as (S1 & S2 & S3).
    destruct (IH _ H) as (I1 & I2 & I3).
    split; [| split].
    + intros l Hl. apply I1, S1, Hl.
    + intro E. rewrite (I2 E). apply S2, E.
    + intro E. rewrite (I3 E). apply S3, E.
Qed.

End UseChatCallbacks.


(* ================================================================== *)
(** * The personas *)

(** X17.  The table of personas is consistent: the configuration found
    under a persona carries that persona as its [id], it is in
    [personaList], which lists every configuration once, and no two
    personas have the same name. *)
Theorem personaConfigs_consistent :
  (forall p, PersonaConfig.id (PersonaConfig.personaConfigs p) = p)
  /\ (forall p,
        In (PersonaConfig.personaConfigs p) PersonaConfig.personaList)
  /\ NoDup (map PersonaConfig.id PersonaConfig.personaList)
  /\ List.length PersonaConfig.personaList = 4%nat
  /\ (forall p p',
        PersonaConfig.name (PersonaConfig.personaConfigs p)
        = PersonaConfig.name (PersonaConfig.personaConfigs p') ->
        p = p').
Proof.
  split; [intros []; reflexivity |].
  split; [intros []; simpl; auto |].
  split.
  { simpl. repeat constructor; simpl; intuition discriminate. }
  split; [reflexivity |].
  intros [] []; simpl; intro H; try reflexivity; discriminate.
Qed.

(* ================================================================== *)
(** * The hook [useGemini] *)

Section UseGeminiProperties.
Import UseGemini.

Lemma run_cons {Data} (a : Action Data) (actions : list (Action Data))
    (s : State Data) :
  run (a :: actions) s = run actions (step s a).
Proof. reflexivity. Qed.

Lemma use_gemini_invariant {Data} (actions : list (Action Data)) :
  forall (n : nat) (s : State Data),
    one_at_a_time n actions = true ->
    (n <= 1)%nat ->
    isLoading s = Nat.eqb n 1 ->
    (data s = None \/ error s = None) ->
    (isLoading s = true -> data s = None /\ error s = None) ->
    exists n',
      in_flight n actions = Some n' /\ (n' <= 1)%nat
      /\ isLoading (run actions s) = Nat.eqb n' 1
      /\ (data (run actions s) = None \/ error (run actions s) = None)
      /\ (isLoading (run actions s) = true ->
          data (run actions s) = None /\ error (run actions s) = None).
Proof.
  induction actions as [| a actions IH]; intros n s Hseq Hn Hl Hx Hld.
  - exists n. change (run [] s) with s. repeat split; try assumption;
      apply Hld; assumption.
  - rewrite run_cons.
    destruct a as [| r |]; cbn [one_at_a_time in_flight step] in *.
    + destruct n as [| n]; [| discriminate].
      apply (IH 1%nat (execute_start s) Hseq); cbn; auto.
    + destruct n as [| n]; [discriminate |].
      assert (n = 0%nat) by lia. subst n.
      destruct (Hld Hl) as [Hd He].
      apply (IH 0%nat (execute_finish r s) Hseq); [lia | | |].
      * destruct r; reflexivity.
      * destruct r; cbn; [right; exact He | left; exact Hd].
      * destruct r; cbn; discriminate.
    + apply (IH n (clear s) Hseq); cbn; auto.
Qed.

Lemma use_gemini_error_message {Data} (actions : list (Action Data)) :
  forall s : State Data,
    is_failure_message (error s) ->
    is_failure_message (error (run actions s)).
Proof.
  induction actions as [| a actions IH]; intros s Hs; [exact Hs |].
  rewrite run_cons. apply IH.
  destruct a as [| [result | e] |]; cbn; auto.
  eexists. reflexivity.
Qed.

(** X18.  The hook under one request at a time.  After any sequence of
    [execute], settlements and [clear] in which [execute] is not called
    while a call is in flight: [isLoading] tells exactly whether a call
    is in flight; result and error are never both set; while loading,
    neither is shown.  An error message always starts with "Failed to
    get response. ". *)
Theorem useGemini_one_request_at_a_time :
  forall (Data : Type) (actions : list (Action Data)),
    one_at_a_time 0 actions = true ->
    let s := run actions initial in
    (exists n, in_flight 0 actions = Some n
               /\ isLoading s = Nat.eqb n 1 /\ (n <= 1)%nat)
    /\ (data s = None \/ error s = None)
    /\ (isLoading s = true -> data s = None /\ error s = None)
    /\ is_failure_message (error s).
Proof.
  intros Data actions Hseq s.
  destruct (use_gemini_invariant actions 0 initial Hseq)
    as (n & Hn & Hle & Hl & Hx & Hld); cbn; auto.
  split; [exists n; auto |]. split; [exact Hx |]. split; [exact Hld |].
  apply use_gemini_error_message. exact I.
Qed.

Lemma one_at_a_time_app {Data} (l1 l2 : list (Action Data)) :
  forall n,
    one_at_a_time n (l1 ++ l2) = true ->
    one_at_a_time n l1 = true
    /\ exists n', in_flight n l1 = Some n' /\ one_at_a_time n' l2 = true.
Proof.
  induction l1 as [| a l1 IH]; intros n H.
  - split; [reflexivity |]. exists n. split; [reflexivity | exact H].
  - destruct a as [| r |]; cbn [app one_at_a_time in_flight] in *.
    + destruct n; [apply IH; exact H | discriminate].
    + destruct n; [discriminate | apply IH; exact H].
    + apply IH. exact H.
Qed.

Lemma run_app {Data} (l1 l2 : list (Action Data)) (s : State Data) :
  run (l1 ++ l2) s = run l2 (run l1 s).
Proof. unfold run. apply fold_left_app. Qed.

(** X19.  What a request leaves.  Under one request at a time, when a call
    settles the hook stops loading and shows either the result, with no
    error, or the error message built from what was thrown, with no
    result: nothing of an earlier request stays on display. *)
Theorem useGemini_settled_request :
  forall (Data : Type) (actions : list (Action Data)) (r : Settlement Data),
    one_at_a_time 0 (actions ++ [Settle r]) = true ->
    let s := run (actions ++ [Settle r]) initial in
    isLoading s = false
    /\ match r with
       | Resolved result => data s = result /\ error s = None
       | Threw e =>
           data s = None
           /\ error s = Some ("Failed to get response. "
                              ++ match e with
                                 | ErrorObject message => message
                                 | OtherValue => "An unknown API error occurred."
                                 end)%string
       end.
Proof.
  intros Data actions r Hseq s. subst s. rewrite run_app.
  destruct (one_at_a_time_app actions [Settle r] 0 Hseq)
    as (H1 & n & Hn & H2).
  destruct (use_gemini_invariant actions 0 initial H1)
    as (n' & Hn' & Hle & Hl & _ & Hld); cbn; auto.
  rewrite Hn in Hn'. injection Hn' as <-.
  cbn [one_at_a_time] in H2. destruct n as [| n]; [discriminate |].
  assert (n = 0%nat) by lia. subst n.
  destruct (Hld Hl) as [Hd He].
  change (run [Settle r] (run actions initial))
    with (execute_finish r (run actions initial)).
  destruct r as [result | e];
    cbn [execute_finish isLoading data error errorMessage].
  - split; [reflexivity |]. split; [reflexivity | exact He].
  - split; [reflexivity |]. split; [exact Hd |]. destruct e; reflexivity.
Qed.

End UseGeminiProperties.

(* ================================================================== *)
(** * The upload [handleFileUpload] *)

Section Upload.
Context {Overview QuizData World File : Type}.
Variable fileName : File -> string.
Variables Quiz KnowledgeBase QA : string.
Variable processFile : File -> World -> Outcome string * World.
Variable embedContent : EmbeddingFunction World.
Variable generateDocumentOverview :
  string -> World -> Outcome Overview * World.
Variable generateQuiz : string -> World -> Outcome QuizData * World.
Variable errorMessage : string -> string.

Let upload :=
  UseChat.handleFileUpload File fileName Quiz KnowledgeBase QA processFile
    embedContent generateDocumentOverview generateQuiz errorMessage.

Let UploadState := @UseChat.UploadState Overview QuizData.

Lemma extractText_extracted (file : File) (w w1 : World) (text : string) :
  UseChat.extractText File processFile file w = (UseChat.Extracted text, w1) ->
  fst (processFile file w) = Fulfilled text /\ text <> EmptyString.
Proof.
  unfold UseChat.extractText.
  destruct (processFile file w) as [[t | reason |] w'] eqn:E; cbn [fst];
    try discriminate.
  destruct (Nat.eqb_spec (String.length t) 0) as [H0 | H0];
    cbn [orb]; [discriminate |].
  destruct (String.length (JSString.trim t) <? 10)%nat; [discriminate |].
  intro H. inversion H; subst. split; [reflexivity |].
  intros ->. apply H0. reflexivity.
Qed.

Lemma created_store_complete (text : string) (w : World) (vs : Config World) :
  text <> EmptyString ->
  create text embedContent true (fresh w) = (Fulfilled tt, vs) ->
  complete_store_of text (store vs).
Proof.
  intros Hne Hc. unfold complete_store_of.
  rewrite (store_after_create _ _ _ _ _ Hc).
  split; [apply chunkText_defaults |].
  assert (Hpos := spec_windows_default_nonempty text Hne).
  rewrite <- (store_after_create _ _ _ _ _ Hc), length_map in Hpos.
  destruct (store vs); [simpl in Hpos; lia | discriminate].
Qed.

Lemma addMessage_frame (msg : UseChat.ChatMessage (Overview * string) QuizData)
    (now : string) (s : UploadState) :
  UseChat.activeMode (UseChat.addMessage msg now s) = UseChat.activeMode s
  /\ UseChat.activePersona (UseChat.addMessage msg now s)
     = UseChat.activePersona s
  /\ UseChat.vectorStore (UseChat.addMessage msg now s)
     = UseChat.vectorStore s
  /\ UseChat.qaDocument (UseChat.addMessage msg now s) = UseChat.qaDocument s
  /\ (forall m, m <> UseChat.activeMode s ->
        UseChat.messagesByMode (UseChat.addMessage msg now s) m
        = UseChat.messagesByMode s m).
Proof.
  unfold UseChat.addMessage.
  cbn [UseChat.activeMode UseChat.activePersona UseChat.vectorStore
       UseChat.qaDocument UseChat.messagesByMode].
  repeat split. intros m Hm. apply set_key_other. exact Hm.
Qed.

Lemma upload_frame_refl (s : UploadState) : upload_frame s s.
Proof. repeat split. Qed.

Lemma upload_frame_addMessage msg now (s s1 : UploadState) :
  upload_frame s s1 -> upload_frame s (UseChat.addMessage msg now s1).
Proof.
  intros (H1 & H2 & H3).
  destruct (addMessage_frame msg now s1) as (A1 & A2 & _ & _ & A5).
  split; [exact (eq_trans A1 H1) |]. split; [exact (eq_trans A2 H2) |].
  intros m Hm.
  refine (eq_trans (A5 m _) (H3 m Hm)).
  intro E. apply Hm. exact (eq_trans E H1).
Qed.

Lemma upload_frame_set_key (s : UploadState) value vs qa :
  upload_frame s
    (UseChat.mkState
       (UseChat.set_key (UseChat.messagesByMode s) (UseChat.activeMode s) value)
       (UseChat.activeMode s) (UseChat.activePersona s) vs qa).
Proof.
  split; [reflexivity |]. split; [reflexivity |].
  intros m Hm. cbn [UseChat.messagesByMode]. apply set_key_other. exact Hm.
Qed.

Lemma upload_frame_stores (s s1 : UploadState) vs qa :
  upload_frame s s1 ->
  upload_frame s
    (UseChat.mkState (UseChat.messagesByMode s1) (UseChat.activeMode s1)
                     (UseChat.activePersona s1) vs qa).
Proof. intros (H1 & H2 & H3). repeat split; assumption. Qed.

End Upload.

Section UploadStores.
Context {Overview QuizData World File : Type}.
Variable fileName : File -> string.
Variables Quiz KnowledgeBase QA : string.
Variable processFile : File -> World -> Outcome string * World.
Variable embedContent : EmbeddingFunction World.
Variable generateDocumentOverview :
  string -> World -> Outcome Overview * World.
Variable generateQuiz : string -> World -> Outcome QuizData * World.
Variable errorMessage : string -> string.


End UploadStores.

Lemma shown_nonneg (a : Z) :
  0 <= a <= 100 -> (0 <=? shown_for a)%float = true.
Proof.
  intro Ha.
  assert (Htab : forallb shown_above_zero (seq 0 101) = true)
    by (vm_compute; reflexivity).
  rewrite forallb_forall in Htab.
  specialize (Htab (Z.to_nat a) ltac:(apply in_seq; lia)).
  unfold shown_above_zero in Htab. rewrite Z2Nat.id in Htab by lia.
  exact Htab.
Qed.

Lemma StronglySorted_app {A} (R : A -> A -> Prop) (l1 l2 : list A) :
  StronglySorted R l1 -> StronglySorted R l2 ->
  (forall x y, In x l1 -> In y l2 -> R x y) ->
  StronglySorted R (l1 ++ l2).
Proof.
  intros H1 H2 H. induction H1 as [| a l1 H1 IH Ha]; [exact H2 |].
  cbn [app]. constructor.
  - apply IH. intros x y Hx Hy. apply H; [right; exact Hx | exact Hy].
  - apply Forall_app. split; [exact Ha |].
    apply Forall_forall. intros y Hy. apply H; [left; reflexivity | exact Hy].
Qed.

(** The percentages shown for the reports of [k] batches. *)
Lemma shown_reports (chunks : list string) (k : nat) :
  (1 <= List.length chunks)%nat ->
  Z.of_nat (List.length chunks) < 2 ^ 32 ->
  let l := map (fun p => percentage (UseChat.onEmbeddingProgress p))
               (reports chunks 0 k) in
  never_decreases l
  /\ Forall (fun x => (0 <=? x)%float = true /\ (15 <=? x)%float = true
                      /\ (x <=? 95)%float = true) l.
Proof.
  intros H1 H32 l. subst l. unfold reports. rewrite map_map.
  set (N := List.length chunks) in *.
  assert (Hentry : forall j, In j (seq 1 k) ->
            exists z, 0 <= z <= 100
              /\ percentage_of (Nat.min (0 + batchSize * j) N) N = rounded z
              /\ percentage (UseChat.onEmbeddingProgress
                               (progress_of (Nat.min (0 + batchSize * j) N) N))
                 = shown_for z).
  { intros j Hj. apply in_seq in Hj.
    destruct (percentage_of_range (Nat.min (0 + batchSize * j) N) N)
      as (z & V & Hz & Hr & _); [unfold batchSize; lia | exact H32 |].
    exists z. split; [exact Hr |]. split; [exact Hz |].
    unfold percentage_of in Hz.
    unfold UseChat.onEmbeddingProgress, shown_for. rewrite Hz. reflexivity. }
  split.
  - unfold never_decreases. apply StronglySorted_map.
    apply (StronglySorted_weaken_in lt); [| apply StronglySorted_seq].
    intros a b Ha Hb Hab.
    destruct (Hentry a Ha) as (za & Hza & Ea & ->).
    destruct (Hentry b Hb) as (zb & Hzb & Eb & ->).
    destruct (shown_table za zb Hza Hzb) as (_ & _ & Hm).
    apply Hm. rewrite <- Ea, <- Eb.
    apply in_seq in Ha, Hb.
    apply percentage_of_monotone; [| | exact H32]; unfold batchSize; lia.
  - apply Forall_forall. intros x Hx. apply in_map_iff in Hx.
    destruct Hx as (j & <- & Hj).
    destruct (Hentry j Hj) as (z & Hz & _ & ->).
    destruct (shown_table z z Hz Hz) as (H15 & H95 & _).
    split; [apply shown_nonneg; exact Hz |]. split; assumption.
Qed.

Lemma bar_percentages_app (b1 b2 : list (option Progress)) :
  bar_percentages (b1 ++ b2) = bar_percentages b1 ++ bar_percentages b2.
Proof. apply flat_map_app. Qed.

Lemma bar_percentages_some (f : Progress -> Progress) (l : list Progress) :
  bar_percentages (map (fun p => Some (f p)) l)
  = map (fun p => percentage (f p)) l.
Proof.
  induction l as [| p l IH]; [reflexivity |].
  cbn [map bar_percentages flat_map app]. f_equal. exact IH.
Qed.

Lemma embedding_bar_never_decreases (l : list float) :
  never_decreases l ->
  Forall (fun x => (0 <=? x)%float = true /\ (15 <=? x)%float = true
                   /\ (x <=? 95)%float = true) l ->
  never_decreases ([0%float; 15%float] ++ l)
  /\ never_decreases (([0%float; 15%float] ++ l) ++ [95%float]).
Proof.
  intros Hs Hb. rewrite Forall_forall in Hb.
  assert (H1 : never_decreases ([0%float; 15%float] ++ l)).
  { apply StronglySorted_app; [| exact Hs |].
    - repeat constructor.
    - intros x y [<- | [<- | []]] Hy; apply (Hb y Hy). }
  split; [exact H1 |].
  apply StronglySorted_app; [exact H1 | repeat constructor |].
  intros x y Hx [<- | []]. apply in_app_or in Hx.
  destruct Hx as [[<- | [<- | []]] | Hx]; [reflexivity | reflexivity |].
  apply (Hb x Hx).
Qed.

Section UploadBar.
Context {Overview QuizData World File : Type}.
Variable fileName : File -> string.
Variables Quiz KnowledgeBase QA : string.
Variable processFile : File -> World -> Outcome string * World.
Variable embedContent : EmbeddingFunction World.
Variable generateDocumentOverview :
  string -> World -> Outcome Overview * World.
Variable generateQuiz : string -> World -> Outcome QuizData * World.
Variable errorMessage : string -> string.

(** X21.  The progress indicator of an upload never goes backwards.  In
    every run of [handleFileUpload], however it ends, the percentages
    successively shown never decrease: 0, 15, the percentages of the
    embedding, 95 (0, 25, 75 for a quiz).  The text has fewer than
    2^32 chunks, as every JavaScript array has. *)
Theorem handleFileUpload_progress_never_decreases (file : File) (now1 now2 : string)
         (s : @UseChat.UploadState Overview QuizData) (w : World) :
    (forall text chunks,
       fst (processFile file w) = Fulfilled text ->
       chunkText text 1000 200 = Some chunks ->
       Z.of_nat (List.length chunks) < 2 ^ 32) ->
    let r := UseChat.handleFileUpload File fileName Quiz KnowledgeBase QA
               processFile embedContent generateDocumentOverview generateQuiz
               errorMessage file now1 now2 s w in
    never_decreases (bar_percentages (snd (fst r))).
Proof.
  intros Hbound. cbv zeta. unfold UseChat.handleFileUpload. cbv zeta.
  destruct (String.eqb (UseChat.activeMode s) Quiz).
  - destruct (UseChat.extractText File processFile file w)
      as [[text | f |] w1] eqn:Ex.
    + destruct (generateQuiz text w1) as [[quizData | reason |] w2];
        cbn [fst snd]; unfold never_decreases; cbn; repeat constructor.
    + cbn [fst snd]; unfold never_decreases; cbn; repeat constructor.
    + cbn [fst snd]; unfold never_decreases; cbn; repeat constructor.
  - destruct (negb (String.eqb (UseChat.activeMode s) KnowledgeBase)
              && negb (String.eqb (UseChat.activeMode s) QA)).
    + cbn [fst snd]. constructor.
    + destruct (UseChat.extractText File processFile file w)
        as [[text | f |] w1] eqn:Ex.
      2:{ cbn [fst snd]; unfold never_decreases; cbn; repeat constructor. }
      2:{ cbn [fst snd]; unfold never_decreases; cbn; repeat constructor. }
      destruct (extractText_extracted processFile file w w1 text Ex)
        as [Htext Hne].
      assert (H32 := Hbound text _ Htext (chunkText_defaults text)).
      assert (H1 := spec_windows_default_nonempty text Hne).
      destruct (create text embedContent true (fresh w1)) as [out vs] eqn:Ec.
      destruct (create_run _ _ _ _ _ _ Ec) as (k & evs & Hpost).
      destruct Hpost as (_ & Htr & Hpr & _).
      cbn [trace fresh app] in Htr.
      destruct (shown_reports (spec_windows text 1000 200) k H1 H32)
        as [Hs Hb].
      destruct (embedding_bar_never_decreases _ Hs Hb) as [B1 B2].
      assert (Hbar : bar_percentages
                (map (fun p => Some (UseChat.onEmbeddingProgress p))
                     (progress_calls (trace vs)))
              = map (fun p => percentage (UseChat.onEmbeddingProgress p))
                    (reports (spec_windows text 1000 200) 0 k)).
      { rewrite Htr, Hpr. apply bar_percentages_some. }
      destruct out as [[] | reason |].
      * destruct (generateDocumentOverview
                    (if (4000 <? String.length text)%nat
                     then substring 0 4000 text else text) (world vs))
          as [[overviewData | reason |] w3]; cbn [fst snd];
          rewrite ?bar_percentages_app, Hbar; cbn [bar_percentages flat_map app];
          rewrite ?app_nil_r; exact B2.
      * cbn [fst snd].
        rewrite ?bar_percentages_app, Hbar. cbn [bar_percentages flat_map app].
        rewrite ?app_nil_r. exact B1.
      * cbn [fst snd].
        rewrite ?bar_percentages_app, Hbar. cbn [bar_percentages flat_map app].
        rewrite ?app_nil_r. exact B1.
Qed.
End UploadBar.

(* ================================================================== *)
(** * The document processor and the upload guard *)

Lemma trim_start_blank (s : string) :
  blank s = true -> JSString.trim_start s = EmptyString.
Proof.
  induction s as [| c s IH]; [reflexivity |].
  cbn [blank JSString.trim_start]. intro H. apply andb_prop in H.
  destruct H as [Hc Hs]. rewrite Hc. apply IH. exact Hs.
Qed.

Lemma trim_blank (s : string) : blank s = true -> JSString.trim s = EmptyString.
Proof.
  intro H. unfold JSString.trim. rewrite trim_start_blank by exact H.
  reflexivity.
Qed.

Lemma blank_append (a b : string) :
  blank (a ++ b) = blank a && blank b.
Proof.
  induction a as [| c a IH]; [reflexivity |].
  cbn [append blank]. rewrite IH. apply andb_assoc.
Qed.

Lemma blank_pageText (items : list string) :
  Forall (fun str => blank str = true) items ->
  blank (DocumentProcessor.pageText items) = true.
Proof.
  unfold DocumentProcessor.pageText.
  induction 1 as [| str items Hstr Hitems IH]; [reflexivity |].
  cbn [String.concat]. destruct items as [| str' items]; [exact Hstr |].
  rewrite !blank_append, Hstr, IH. reflexivity.
Qed.

Lemma blank_allText (pages : list (list string)) :
  Forall (Forall (fun str => blank str = true)) pages ->
  blank (DocumentProcessor.allText pages) = true.
Proof.
  unfold DocumentProcessor.allText.
  assert (H : forall acc,
            blank acc = true ->
            Forall (Forall (fun str => blank str = true)) pages ->
            blank (fold_left
                     (fun acc items =>
                        (acc ++ DocumentProcessor.pageText items
                             ++ DocumentProcessor.newline
                             ++ DocumentProcessor.newline)%string)
                     pages acc) = true).
  { induction pages as [| items pages IH]; intros acc Hacc Hp;
      [exact Hacc |].
    inversion Hp; subst. cbn [fold_left]. apply IH; [| assumption].
    rewrite !blank_append, Hacc, blank_pageText by assumption.
    reflexivity. }
  apply H. reflexivity.
Qed.

Lemma string_length_append (a b : string) :
  String.length (a ++ b) = (String.length a + String.length b)%nat.
Proof.
  induction a as [| c a IH]; [reflexivity |].
  cbn [append String.length]. rewrite IH. reflexivity.
Qed.

Lemma allText_length (pages : list (list string)) :
  (2 * List.length pages
   <= String.length (DocumentProcessor.allText pages))%nat.
Proof.
  unfold DocumentProcessor.allText.
  assert (H : forall acc,
            (String.length acc + 2 * List.length pages
             <= String.length
                  (fold_left
                     (fun acc items =>
                        (acc ++ DocumentProcessor.pageText items
                             ++ DocumentProcessor.newline
                             ++ DocumentProcessor.newline)%string)
                     pages acc))%nat).
  { induction pages as [| items pages IH]; intro acc; cbn [fold_left].
    - cbn [List.length]. lia.
    - eapply Nat.le_trans; [| apply IH].
      rewrite !string_length_append. cbn [List.length].
      unfold DocumentProcessor.newline. cbn [String.length]. lia. }
  apply (H EmptyString).
Qed.

(** X22.  What the upload makes of files without text.  A PDF whose
    text items are all blank (a scan has none at all) gives a text of
    white space only, two line feeds per page; it is not empty, but
    the upload rejects it as insufficient before any embedding call.
    A file that is neither a PDF nor an image is rejected without
    being read. *)
Theorem upload_rejects_files_without_text :
  forall (World File : Type) (fileType : File -> string)
         (readPdf : File -> World -> Outcome (list (list string)) * World)
         (processImage : File -> World -> Outcome string * World)
         (file : File) (w : World),
    let processFile :=
      DocumentProcessor.processFile File fileType readPdf processImage in
    (forall pages,
       fileType file = "application/pdf" ->
       fst (readPdf file w) = Fulfilled pages ->
       Forall (Forall (fun str => blank str = true)) pages ->
       (2 * List.length pages
        <= String.length (DocumentProcessor.allText pages))%nat
       /\ UseChat.extractText File processFile file w
          = (UseChat.Caught UseChat.InsufficientText, snd (readPdf file w)))
    /\ (fileType file <> "application/pdf" ->
        String.prefix "image/" (fileType file) = false ->
        UseChat.extractText File processFile file w
        = (UseChat.Caught
             (UseChat.CallRejected
                "Unsupported file type. Please upload a PDF or an image."),
           w)).
Proof.
  intros World File fileType readPdf processImage file w processFile.
  split.
  - intros pages Hpdf Hread Hblank. split.
    + apply allText_length.
    + unfold UseChat.extractText. subst processFile.
      unfold DocumentProcessor.processFile, DocumentProcessor.processPdf.
      rewrite Hpdf, String.eqb_refl.
      destruct (readPdf file w) as [r w1]. cbn [fst snd] in *. subst r.
      cbv beta iota.
      rewrite (trim_blank _ (blank_allText pages Hblank)).
      cbn [String.length Nat.ltb Nat.leb]. rewrite orb_true_r. reflexivity.
  - intros Hpdf Himg. unfold UseChat.extractText. subst processFile.
    unfold DocumentProcessor.processFile.
    destruct (String.eqb_spec (fileType file) "application/pdf");
      [contradiction |].
    rewrite Himg. reflexivity.
Qed.

(* ================================================================== *)
(** * The sources of a spoken answer *)

Section VoiceSources.
Import UseVoiceAssistant.

Lemma has_In (u : string) (l : list string) : has u l = true <-> In u l.
Proof.
  unfold has. rewrite existsb_exists. split.
  - intros (x & Hx & E). apply String.eqb_eq in E. subst. exact Hx.
  - intro H. exists u. split; [exact H | apply String.eqb_refl].
Qed.

Lemma title_or_uri_not_empty (w : Web) (u : string) :
  u <> EmptyString -> title_or_uri w u <> EmptyString.
Proof.
  unfold title_or_uri. intro H.
  destruct (title w) as [[| c t] |]; try exact H. discriminate.
Qed.

Lemma collect_spec (chunks : list GroundingChunk) :
  forall sources uniqueUris,
    map content sources = uniqueUris ->
    NoDup uniqueUris ->
    NoDup (map content (collect chunks sources uniqueUris))
    /\ (forall u,
          In u (map content (collect chunks sources uniqueUris))
          <-> In u uniqueUris
              \/ (u <> EmptyString
                  /\ exists chunk, In chunk chunks /\ web_uri chunk u))
    /\ (forall s,
          In s (collect chunks sources uniqueUris) ->
          In s sources
          \/ (content s <> EmptyString
              /\ sourceTitle s <> EmptyString
              /\ type s = "web_link"
              /\ exists chunk w,
                   In chunk chunks /\ web chunk = Some w
                   /\ uri w = Some (content s)
                   /\ sourceTitle s = title_or_uri w (content s))).
Proof.
  induction chunks as [| chunk rest IH]; intros sources uniqueUris Hm Hn.
  - cbn [collect]. rewrite Hm. split; [exact Hn |]. split.
    + intro u. split; [intro H; left; exact H |].
      intros [H | (_ & c & [] & _)]. exact H.
    + intros s H. left. exact H.
  - cbn [collect].
    assert (Hskip :
      (forall u, ~ (u <> EmptyString /\ web_uri chunk u /\ ~ In u uniqueUris)) ->
      NoDup (map content (collect rest sources uniqueUris))
      /\ (forall u,
            In u (map content (collect rest sources uniqueUris))
            <-> In u uniqueUris
                \/ (u <> EmptyString
                    /\ exists chunk0,
                         In chunk0 (chunk :: rest) /\ web_uri chunk0 u))
      /\ (forall s,
            In s (collect rest sources uniqueUris) ->
            In s sources
            \/ (content s <> EmptyString
                /\ sourceTitle s <> EmptyString
                /\ type s = "web_link"
                /\ exists chunk0 w,
                     In chunk0 (chunk :: rest) /\ web chunk0 = Some w
                     /\ uri w = Some (content s)
                     /\ sourceTitle s = title_or_uri w (content s)))).
    { intro Hno. destruct (IH sources uniqueUris Hm Hn) as (A & B & C).
      split; [exact A |]. split.
      - intro u. rewrite B. split.
        + intros [H | (Hu & c & Hc & Hw)]; [left; exact H |].
          right. split; [exact Hu |]. exists c. split; [right; exact Hc |].
          exact Hw.
        + intros [H | (Hu & c & [<- | Hc] & Hw)]; [left; exact H | |].
          * left. destruct (in_dec string_dec u uniqueUris) as [i | n];
              [exact i |]. exfalso. apply (Hno u). auto.
          * right. split; [exact Hu |]. exists c. auto.
      - intros s Hs. destruct (C s Hs) as [H | (H1 & H2 & H3 & c & w & H4 & H5)];
          [left; exact H |].
        right. repeat (split; [assumption |]). exists c, w.
        split; [right; exact H4 | exact H5]. }
    destruct (web chunk) as [w |] eqn:Ew.
    2:{ apply Hskip. intros u (_ & (w & Hw & _) & _). congruence. }
    destruct (uri w) as [u |] eqn:Eu.
    2:{ apply Hskip. intros u (_ & (w' & Hw & Hu) & _). congruence. }
    destruct (truthy (Some u) && negb (has u uniqueUris)) eqn:Ec.
    2:{ apply Hskip. intros u' (Hne & (w' & Hw & Hu) & Hnot).
        assert (w' = w) by congruence. subst w'.
        assert (u' = u) by congruence. subst u'.
        apply andb_false_iff in Ec. destruct Ec as [Ec | Ec].
        - destruct u; [apply Hne; reflexivity | discriminate].
        - apply negb_false_iff, has_In in Ec. contradiction. }
    apply andb_prop in Ec. destruct Ec as [Et Eh].
    assert (Hne : u <> EmptyString) by (destruct u; discriminate).
    apply negb_true_iff in Eh.
    assert (Hnot : ~ In u uniqueUris).
    { intro H. apply has_In in H. congruence. }
    destruct (IH (sources ++ [mkSource u (title_or_uri w u) "web_link"])
                 (uniqueUris ++ [u])) as (A & B & C).
    { rewrite map_app, Hm. reflexivity. }
    { apply NoDup_app; [exact Hn | repeat constructor; intros [] |].
      intros x Hx [<- | []]. contradiction. }
    split; [exact A |]. split.
    + intro u'. rewrite B, in_app_iff. cbn [In]. split.
      * intros [[H | [<- | []]] | (Hu & c & Hc & Hw)].
        -- left. exact H.
        -- right. split; [exact Hne |]. exists chunk.
           split; [left; reflexivity |]. exists w. auto.
        -- right. split; [exact Hu |]. exists c. auto.
      * intros [H | (Hu & c & [<- | Hc] & Hw)].
        -- left. left. exact H.
        -- left. right. left. destruct Hw as (w' & Hw & Hu').
           congruence.
        -- right. split; [exact Hu |]. exists c. auto.
    + intros s Hs. destruct (C s Hs) as [H | (H1 & H2 & H3 & c & w' & H4 & H5)].
      * apply in_app_iff in H. destruct H as [H | [<- | []]];
          [left; exact H |].
        right. cbn [content sourceTitle type].
        split; [exact Hne |].
        split; [apply title_or_uri_not_empty; exact Hne |].
        split; [reflexivity |]. exists chunk, w.
        split; [left; reflexivity |]. auto.
      * right. repeat (split; [assumption |]). exists c, w'.
        split; [right; exact H4 | exact H5].
Qed.

Lemma not_blank_trim (t : string) :
  JSString.trim t <> EmptyString -> blank t = false.
Proof.
  intro H. destruct (blank t) eqn:E; [| reflexivity].
  exfalso. apply H. apply trim_blank. exact E.
Qed.

(** X23.  The sources the voice assistant shows with an answer.  They
    are the web pages of the grounding chunks of the response, each
    page once however often the response cites it; a chunk without a
    web page or with an empty URI gives none.  Every source has a
    title that is not empty (the URI where the page has none) and is
    a web link.  When there is a source, the transcript entry has a
    text that is not blank, also when the response has none; without
    sources the text is that of the response as it is. *)
Theorem voice_sources_are_the_cited_pages_once :
  forall (groundingChunks : option (list GroundingChunk))
         (aiText : option string),
    let sources := groundingSources groundingChunks in
    NoDup (map content sources)
    /\ (forall u,
          In u (map content sources)
          <-> u <> EmptyString
              /\ exists chunks chunk,
                   groundingChunks = Some chunks
                   /\ In chunk chunks /\ web_uri chunk u)
    /\ (forall s,
          In s sources ->
          sourceTitle s <> EmptyString /\ type s = "web_link")
    /\ (sources <> [] ->
        exists t,
          transcriptText aiText sources = Some t /\ blank t = false)
    /\ (sources = [] -> transcriptText aiText sources = aiText).
Proof.
  intros groundingChunks aiText sources.
  assert (Hs : NoDup (map content sources)
               /\ (forall u,
                     In u (map content sources)
                     <-> u <> EmptyString
                         /\ exists chunks chunk,
                              groundingChunks = Some chunks
                              /\ In chunk chunks /\ web_uri chunk u)
               /\ (forall s,
                     In s sources ->
                     sourceTitle s <> EmptyString /\ type s = "web_link")).
  { subst sources. destruct groundingChunks as [chunks |];
      cbn [groundingSources].
    - destruct (collect_spec chunks [] [] eq_refl (NoDup_nil _))
        as (A & B & C).
      split; [exact A |]. split.
      + intro u. rewrite B. cbn [In]. split.
        * intros [[] | (Hu & c & Hc & Hw)]. split; [exact Hu |].
          exists chunks, c. auto.
        * intros (Hu & chunks' & c & E & Hc & Hw). injection E as <-.
          right. split; [exact Hu |]. exists c. auto.
      + intros s H. destruct (C s H) as [[] | (_ & H2 & H3 & _)]. auto.
    - split; [constructor |]. split.
      + intro u. cbn [map In]. split; [intros [] |].
        intros (_ & chunks & _ & E & _). discriminate.
      + intros s []. }
  destruct Hs as (A & B & C).
  split; [exact A |]. split; [exact B |]. split; [exact C |].
  unfold transcriptText. split.
  - intro Hne. destruct sources as [| s rest]; [contradiction |].
    cbn [List.length Nat.ltb Nat.leb]. rewrite andb_true_r.
    destruct aiText as [t |].
    + destruct (negb (truthy (Some t))
                || negb (truthy (Some (JSString.trim t)))) eqn:E.
      * eexists. split; [reflexivity |]. vm_compute. reflexivity.
      * exists t. split; [reflexivity |].
        apply orb_false_iff in E. destruct E as [_ E].
        apply negb_false_iff in E. apply not_blank_trim.
        destruct (JSString.trim t); discriminate.
    + eexists. split; [reflexivity |]. vm_compute. reflexivity.
  - intros ->. cbn [List.length Nat.ltb Nat.leb]. rewrite andb_false_r.
    reflexivity.
Qed.

End VoiceSources.

(* ================================================================== *)
(** * Concrete runs of the further properties *)

Lemma chunkText_consecutive_chunks_overlap_witness :
  substring 3 1 "abcd" = substring 0 1 "defg"
  /\ String.length "abcd" = 4%nat.
Proof.
  destruct (chunkText_consecutive_chunks_overlap "abcdefghij" 4 1
              ["abcd"; "defg"; "ghij"]%string) as [H _];
    [lia | lia | vm_compute; reflexivity |].
  destruct (H 0%nat) as (H1 & _ & H3); [simpl; lia |].
  split; [exact H3 | exact H1].
Defined.

Lemma chunkText_stitch_is_text_witness :
  stitch 1 ["abcd"; "defg"; "ghij"]%string = "abcdefghij".
Proof.
  apply (chunkText_stitch_is_text "abcdefghij" 4 1); [lia | lia |].
  vm_compute. reflexivity.
Defined.

Lemma chunkText_without_positive_stride_witness :
  chunkText_loop 1000 "abcdef" 3 3 0 [] = None
  /\ chunkText "abc" 3 5 = Some ["abc"%string].
Proof.
  destruct (chunkText_without_positive_stride "abcdef" 3 3) as (_ & _ & H).
  destruct (chunkText_without_positive_stride "abc" 3 5) as (_ & H' & _).
  split.
  - apply H; [discriminate | simpl; lia | lia].
  - apply H'; [discriminate | simpl; lia].
Defined.

Lemma cosineSimilarity_symmetric_witness :
  cosineSimilarity [1%float; 2%float] [3%float; 4%float]
  = cosineSimilarity [3%float; 4%float] [1%float; 2%float].
Proof. apply cosineSimilarity_symmetric. reflexivity. Defined.

Lemma cosineSimilarity_second_vector_too_short_witness :
  cosineSimilarity [1%float; 2%float] [1%float] = nan.
Proof.
  rewrite cosineSimilarity_second_vector_too_short by (simpl; lia).
  vm_compute. reflexivity.
Defined.

Lemma search_result_count_witness :
  exists res c',
    search "query" (counting_stub 100) 2 (mkConfig one_hot 0%nat [])
    = (Fulfilled res, c')
    /\ List.length res = 2%nat.
Proof.
  set (r := search "query" (counting_stub 100) 2 (mkConfig one_hot 0%nat [])).
  assert (E : r = (Fulfilled ["a"; "b"]%string, snd r))
    by (vm_compute; reflexivity).
  exists ["a"; "b"]%string, (snd r). split; [exact E |].
  destruct (search_result_count nat "query" (counting_stub 100) 2
              (mkConfig one_hot 0%nat []) (snd r) ["a"; "b"]%string E)
    as [H _].
  rewrite H by lia. reflexivity.
Defined.

Lemma search_results_are_distinct_entries_witness :
  exists res c',
    search "query" (counting_stub 100) 9 (mkConfig one_hot 0%nat [])
    = (Fulfilled res, c')
    /\ Permutation res ["a"; "b"; "c"; "d"]%string.
Proof.
  set (r := search "query" (counting_stub 100) 9 (mkConfig one_hot 0%nat [])).
  assert (E : r = (Fulfilled ["a"; "b"; "c"; "d"]%string, snd r))
    by (vm_compute; reflexivity).
  exists ["a"; "b"; "c"; "d"]%string, (snd r). split; [exact E |].
  destruct (search_results_are_distinct_entries nat "query" (counting_stub 100)
              9 (mkConfig one_hot 0%nat []) (snd r)
              ["a"; "b"; "c"; "d"]%string E) as [_ H].
  apply H. simpl. lia.
Defined.

Lemma search_frame_and_failure_witness :
  store (snd (search "query" (counting_stub 0) 3 (mkConfig one_hot 0%nat [])))
  = one_hot
  /\ fst (search "query" (counting_stub 0) 3 (mkConfig one_hot 0%nat []))
     = Rejected "quota exceeded".
Proof.
  set (c := mkConfig one_hot 0%nat []).
  set (r := search "query" (counting_stub 0) 3 c).
  assert (E : r = (fst r, snd r)) by (destruct r; reflexivity).
  destruct (search_frame_and_failure nat "query" (counting_stub 0) 3 c
              (snd r) (fst r) E) as (H1 & _ & _ & H4 & _).
  split; [exact H1 |].
  apply H4. vm_compute. left. reflexivity.
Defined.

Lemma create_rejected_call_accounting_witness :
  exists k : nat,
    List.length
      (store (snd (create long_text (counting_stub 5) true (fresh 0%nat))))
    = (5 * k)%nat
    /\ List.length
         (embed_calls
            (events_since (fresh 0%nat)
               (snd (create long_text (counting_stub 5) true (fresh 0%nat)))))
       = 6%nat.
Proof.
  set (r := create long_text (counting_stub 5) true (fresh 0%nat)).
  assert (E : r = (Rejected "quota exceeded", snd r))
    by (vm_compute; reflexivity).
  destruct (create_rejected_call_accounting nat long_text (counting_stub 5)
              true (fresh 0%nat) (snd r) "quota exceeded"
              (spec_windows long_text 1000 200)
              (chunkText_defaults long_text) E)
    as (k & Hk & Hst & Hcalls & _).
  exists k. split; [exact Hst |].
  rewrite Hcalls, length_firstn.
  assert (H6 : List.length (spec_windows long_text 1000 200) = 6%nat)
    by (vm_compute; reflexivity).
  assert (H5 : List.length (store (snd r)) = 5%nat)
    by (vm_compute; reflexivity).
  rewrite H6. rewrite H5 in Hst. lia.
Defined.

Lemma search_after_create_returns_chunks_witness :
  exists res c2,
    search "query" (counting_stub 100) 3
      (snd (create long_text (counting_stub 100) false (fresh 0%nat)))
    = (Fulfilled res, c2)
    /\ List.length res = 3%nat.
Proof.
  set (c1 := snd (create long_text (counting_stub 100) false (fresh 0%nat))).
  set (r := search "query" (counting_stub 100) 3 c1).
  set (res := match fst r with Fulfilled x => x | _ => [] end).
  assert (E : r = (Fulfilled res, snd r)) by (vm_compute; reflexivity).
  assert (Ec : create long_text (counting_stub 100) false (fresh 0%nat)
               = (Fulfilled tt, c1)) by (vm_compute; reflexivity).
  assert (Hne : long_text <> EmptyString) by (vm_compute; discriminate).
  assert (Hk : 1 <= 3) by lia.
  destruct (search_after_create_returns_chunks nat long_text
              (counting_stub 100) false (fresh 0%nat) c1 (snd r) "query"
              (counting_stub 100) 3 res (spec_windows long_text 1000 200)
              Hne Hk (chunkText_defaults long_text) Ec E) as (H & _).
  exists res, (snd r). split; [exact E |].
  rewrite H. vm_compute. reflexivity.
Defined.

Lemma create_embedding_call_count_witness :
  List.length
    (embed_calls
       (events_since (fresh 0%nat)
          (snd (create long_text (counting_stub 100) false (fresh 0%nat)))))
  = 6%nat.
Proof.
  set (r := create long_text (counting_stub 100) false (fresh 0%nat)).
  assert (E : r = (Fulfilled tt, snd r)) by (vm_compute; reflexivity).
  assert (Hne : long_text <> EmptyString) by (vm_compute; discriminate).
  destruct (create_embedding_call_count nat long_text (counting_stub 100)
              false (fresh 0%nat) (snd r) (Fulfilled tt) Hne E) as [H _].
  rewrite (H eq_refl). vm_compute. reflexivity.
Defined.

Lemma upload_progress_never_goes_back_witness :
  exists earlier final,
    map UseChat.onEmbeddingProgress
      (progress_calls
         (events_since (fresh 0%nat)
            (snd (create long_text (counting_stub 100) true (fresh 0%nat)))))
    = earlier ++ [final]
    /\ percentage final = 95%float.
Proof.
  assert (H6 : List.length (spec_windows long_text 1000 200) = 6%nat)
    by (vm_compute; reflexivity).
  pose proof (upload_progress_never_goes_back nat long_text (counting_stub 100)
                (fresh 0%nat)
                (snd (create long_text (counting_stub 100) true (fresh 0%nat)))
                (spec_windows long_text 1000 200)
                (chunkText_defaults long_text)) as H.
  rewrite H6 in H.
  assert (H1 : (1 <= 6)%nat) by lia.
  assert (H32 : Z.of_nat 6 < 2 ^ 32) by (vm_compute; reflexivity).
  assert (Hrun : create long_text (counting_stub 100) true (fresh 0%nat)
                 = (Fulfilled tt,
                    snd (create long_text (counting_stub 100) true
                           (fresh 0%nat))))
    by (vm_compute; reflexivity).
  specialize (H H1 H32 Hrun). cbv zeta in H.
  destruct H as (_ & _ & _ & Hlast). exact Hlast.
Defined.

Lemma useGemini_one_request_at_a_time_witness :
  UseGemini.isLoading (UseGemini.run two_requests UseGemini.initial) = false
  /\ (UseGemini.data (UseGemini.run two_requests UseGemini.initial) = None
      \/ UseGemini.error (UseGemini.run two_requests UseGemini.initial) = None).
Proof.
  destruct (useGemini_one_request_at_a_time nat two_requests eq_refl)
    as ((n & Hn & Hl & _) & Hx & _).
  split; [| exact Hx].
  rewrite Hl. vm_compute in Hn. injection Hn as <-. reflexivity.
Defined.

Lemma useGemini_settled_request_witness :
  UseGemini.data
    (UseGemini.run
       ([UseGemini.Execute]
        ++ [UseGemini.Settle
              (UseGemini.Threw (UseGemini.ErrorObject "quota exceeded"))])
       (@UseGemini.initial nat))
  = None
  /\ UseGemini.error
       (UseGemini.run
          ([UseGemini.Execute]
           ++ [UseGemini.Settle
                 (UseGemini.Threw (UseGemini.ErrorObject "quota exceeded"))])
          (@UseGemini.initial nat))
     = Some "Failed to get response. quota exceeded".
Proof.
  destruct (useGemini_settled_request nat [UseGemini.Execute]
              (UseGemini.Threw (UseGemini.ErrorObject "quota exceeded"))
              eq_refl) as (_ & Hd & He).
  split; [exact Hd | exact He].
Defined.


Lemma knowledgeBase_answers_from_document_chunks_witness :
  exists answer sources,
    fst (UseChat.knowledgeBaseCase (OverviewData := unit) (OtherData := unit)
           echo_context_stub
           (Some (store (snd (create long_text (counting_stub 100) false
                                (fresh 0%nat)))))
           "question" (counting_stub 100) None 6%nat)
    = Fulfilled (UseChat.Sourced answer sources)
    /\ List.length sources = 3%nat.
Proof.
  set (vs := snd (create long_text (counting_stub 100) false (fresh 0%nat))).
  assert (Ec : create long_text (counting_stub 100) false (fresh 0%nat)
               = (Fulfilled tt, vs)) by (vm_compute; reflexivity).
  assert (Hne : long_text <> EmptyString) by (vm_compute; discriminate).
  set (q := match fst (counting_stub 100 "question" 6%nat) with
            | Fulfilled v => v
            | _ => []
            end).
  assert (Hq : fst (counting_stub 100 "question" 6%nat) = Fulfilled q)
    by (vm_compute; reflexivity).
  destruct (knowledgeBase_answers_from_document_chunks unit unit nat
              echo_context_stub long_text (counting_stub 100) false
              (fresh 0%nat) vs "question" (counting_stub 100) None 6%nat q
              Hne Ec Hq) as (Hlen & _ & _ & Hres & _).
  cbn [echo_context_stub fst] in Hres.
  eexists. eexists. split; [exact Hres |].
  rewrite length_map. vm_compute. reflexivity.
Defined.

Lemma handleFileUpload_progress_never_decreases_witness :
  never_decreases
    (bar_percentages (snd (fst (upload_long_text empty_knowledge_base)))).
Proof.
  apply (handleFileUpload_progress_never_decreases (fun _ => "notes.pdf")
           "Quiz" "KnowledgeBase" "QA" long_text_file (counting_stub 100)
           sample_overview no_quiz (fun reason => reason) tt
           "1700000000003" "1700000000004" empty_knowledge_base 0%nat).
  intros text chunks Ht Hc. cbn in Ht. injection Ht as <-.
  rewrite chunkText_defaults in Hc. injection Hc as <-.
  vm_compute. reflexivity.
Defined.

Lemma upload_rejects_files_without_text_witness :
  String.length (DocumentProcessor.allText scanned_pages) = 8%nat
  /\ UseChat.extractText string processFile_of_type "application/pdf" 0%nat
     = (UseChat.Caught UseChat.InsufficientText, 1%nat)
  /\ UseChat.extractText string processFile_of_type "text/plain" 0%nat
     = (UseChat.Caught
          (UseChat.CallRejected
             "Unsupported file type. Please upload a PDF or an image."),
        0%nat).
Proof.
  destruct (upload_rejects_files_without_text nat string (fun type => type)
              read_scanned transcribed_image "application/pdf" 0%nat)
    as [Hpdf _].
  destruct (upload_rejects_files_without_text nat string (fun type => type)
              read_scanned transcribed_image "text/plain" 0%nat)
    as [_ Hother].
  destruct (Hpdf scanned_pages) as [Hlen Hcaught].
  - reflexivity.
  - reflexivity.
  - repeat constructor.
  - split; [| split].
    + vm_compute. reflexivity.
    + exact Hcaught.
    + apply Hother; [vm_compute; discriminate | reflexivity].
Defined.

Lemma voice_sources_are_the_cited_pages_once_witness :
  UseVoiceAssistant.groundingSources (Some cited_pages)
  = [UseVoiceAssistant.mkSource "https://a.example/cycle" "The water cycle"
       "web_link";
     UseVoiceAssistant.mkSource "https://b.example/rain"
       "https://b.example/rain" "web_link"]
  /\ NoDup (map UseVoiceAssistant.content
              (UseVoiceAssistant.groundingSources (Some cited_pages)))
  /\ UseVoiceAssistant.transcriptText (Some "  ")
       (UseVoiceAssistant.groundingSources (Some cited_pages))
     = Some "I found some relevant information. Please see the sources for details.".
Proof.
  destruct (voice_sources_are_the_cited_pages_once (Some cited_pages)
              (Some "  ")) as (Hunique & _).
  split; [vm_compute; reflexivity |].
  split; [exact Hunique |].
  vm_compute. reflexivity.
Defined.
